(** * Pytakt realtime MIDI output engine: a shallow embedding

    The development follows [src/pytakt/src/notemap.h],
    [src/pytakt/src/midiout.cpp] and [src/pytakt/src/cmidiio.cpp], and,
    for the input relay and the conversion of messages in the platform
    adapters, [src/pytakt/src/midiin.cpp], [src/pytakt/src/sysdepWin.cpp],
    [src/pytakt/src/sysdepLinux.cpp] and [src/pytakt/src/sysdepMacOSX.cpp].

    - C++ [int] values are integers of [Z]; the sequence counter of a queue
      element, which the source lets wrap around, is kept in the signed
      32-bit range by [wrap32], and the pile counts of the note maps, which
      the source increments and decrements in place, wrap around at the
      ends of that range ([int_incr], [int_decr]).
    - C++ [double] values are values of [double] below: exact rationals
      extended with the IEEE special values.
    - [std::map<key_type,int,lessp>] is an association list kept strictly
      increasing for [lessp]; iterators are positions in that list.
    - [std::vector<T>] is [list T]; [std::make_heap], [std::push_heap] and
      [std::pop_heap] belong to the C++ library and enter by their contract.
    - The calls to the platform layer ([SysDep::midi_send]) and to the input
      relay ([MidiIn::enqueue]) are recorded in traces held in the state. *)

From Stdlib Require Import ZArith QArith Qminmax Qfield Lqa Lia.
From Stdlib Require Import List Bool Permutation Sorted Wf_nat.
From Stdlib Require String.
Import String.StringSyntax.
Delimit Scope string_scope with string.
Import ListNotations.

Local Open Scope Z_scope.

(* ================================================================== *)
(** * Numbers *)
(* ================================================================== *)

(** ** [double]

    A finite double is read as the rational it denotes. The model keeps
    what the code relies on, the propagation of infinities and NaN through
    [+ - * /] and the comparisons, and leaves out rounding, overflow of
    finite results and the sign of zero (a zero divisor is taken as +0). *)

Inductive double : Type :=
| Fin (q : Q)
| PInf
| NInf
| NaN.

Definition Qlt_bool (a b : Q) : bool := negb (Qle_bool b a).

Definition dopp (x : double) : double :=
  match x with
  | Fin a => Fin (- a)
  | PInf => NInf
  | NInf => PInf
  | NaN => NaN
  end.

Definition dadd (x y : double) : double :=
  match x, y with
  | NaN, _ | _, NaN => NaN
  | Fin a, Fin b => Fin (a + b)
  | PInf, NInf | NInf, PInf => NaN
  | PInf, _ | _, PInf => PInf
  | NInf, _ | _, NInf => NInf
  end.

Definition dsub (x y : double) : double := dadd x (dopp y).

(** The infinity that carries the sign of [q], NaN when [q] is zero. *)
Definition signed_inf (positive : bool) (q : Q) : double :=
  if Qeq_bool q 0 then NaN
  else if Bool.eqb positive (Qlt_bool 0 q) then PInf else NInf.

Definition dmul (x y : double) : double :=
  match x, y with
  | NaN, _ | _, NaN => NaN
  | Fin a, Fin b => Fin (a * b)
  | Fin a, PInf | PInf, Fin a => signed_inf true a
  | Fin a, NInf | NInf, Fin a => signed_inf false a
  | PInf, PInf | NInf, NInf => PInf
  | PInf, NInf | NInf, PInf => NInf
  end.

Definition ddiv (x y : double) : double :=
  match x, y with
  | NaN, _ | _, NaN => NaN
  | Fin a, Fin b => if Qeq_bool b 0 then signed_inf true a else Fin (a / b)
  | Fin _, PInf | Fin _, NInf => Fin 0
  | PInf, Fin b => if Qlt_bool b 0 then NInf else PInf
  | NInf, Fin b => if Qlt_bool b 0 then PInf else NInf
  | PInf, PInf | PInf, NInf | NInf, PInf | NInf, NInf => NaN
  end.

(** The comparisons [==], [<], [<=] and [>] of C++; all are false on NaN. *)
Definition deqb (x y : double) : bool :=
  match x, y with
  | Fin a, Fin b => Qeq_bool a b
  | PInf, PInf | NInf, NInf => true
  | _, _ => false
  end.

Definition dltb (x y : double) : bool :=
  match x, y with
  | NaN, _ | _, NaN => false
  | Fin a, Fin b => Qlt_bool a b
  | NInf, NInf | PInf, _ | _, NInf => false
  | NInf, _ | _, PInf => true
  end.

Definition dleb (x y : double) : bool := dltb x y || deqb x y.
Definition dgtb (x y : double) : bool := dltb y x.

Definition isinf (x : double) : bool :=
  match x with PInf | NInf => true | _ => false end.

Definition is_nan (x : double) : bool :=
  match x with NaN => true | _ => false end.

Definition double_of_Z (z : Z) : double := Fin (inject_Z z).

(** Equality of two model values as numbers. *)
Definition deq (x y : double) : Prop := deqb x y = true.

Declare Scope double_scope.
Delimit Scope double_scope with D.
Bind Scope double_scope with double.
Infix "+" := dadd : double_scope.
Infix "-" := dsub : double_scope.
Infix "*" := dmul : double_scope.
Infix "/" := ddiv : double_scope.
Infix "==" := deq (at level 70, no associativity) : double_scope.

(** ** 32-bit counters *)

Definition wrap32 (z : Z) : Z := (z + 2 ^ 31) mod 2 ^ 32 - 2 ^ 31.

(** ** [int] counts

    [second++] and [--second] on an [int].  At the ends of the range the
    count wraps around, as it does in the builds of the program: one more
    than [INT_MAX] is [INT_MIN], one less than [INT_MIN] is [INT_MAX]. *)

Definition INT_MAX : Z := 2147483647.
Definition INT_MIN : Z := -2147483648.

Definition int_incr (c : Z) : Z := if c =? INT_MAX then INT_MIN else c + 1.
Definition int_decr (c : Z) : Z := if c =? INT_MIN then INT_MAX else c - 1.

(** ** Bytes *)

Definition to_uchar (z : Z) : Z := z mod 256.

(** Constants of [src/takt/src/defs.h]. *)
Definition C_SUSTAIN : Z := 64.
Definition C_ALL_SOUND_OFF : Z := 120.
Definition C_ALL_NOTES_OFF : Z := 123.
Definition M_TEMPO : Z := 0x51.
Definition ALL_TRACKS : Z := -1.
Definition DEV_DUMMY : Z := -1.
Definition DEV_LOOPBACK : Z := -2.

Definition message_t : Type := list Z.

(* ================================================================== *)
(** * The tempo map (midiout.cpp, lines 28-32 and 59-76) *)
(* ================================================================== *)

Record tempo_state : Type := mkTempo {
  currentTempo : double;       (* current tempo in BPM *)
  tempoScale : double;         (* current tempo scale (possibly zero) *)
  lastTempoChangeS : double;   (* time of the last tempo change in msecs *)
  lastTempoChangeT : double    (* time of the last tempo change in ticks *)
}.

Definition ticksToMsecs (st : tempo_state) (ticks : double) : double :=
  ((ticks - lastTempoChangeT st) * Fin 125
     / (currentTempo st * tempoScale st) + lastTempoChangeS st)%D.

Definition msecsToTicks (st : tempo_state) (msecs : double) : double :=
  ((msecs - lastTempoChangeS st) * currentTempo st * tempoScale st
     / Fin 125 + lastTempoChangeT st)%D.

(** [MidiOut::startup]: 125 beats per minute, one tick is one millisecond. *)
Definition startup_tempo : tempo_state :=
  mkTempo (Fin 125) (Fin 1) (Fin 0) (Fin 0).

(** The expression of [MidiOut::setTempoScale]: [scale < 0 ? 0 : scale]. *)
Definition clamp_scale (scale : double) : double :=
  if dltb scale (Fin 0) then Fin 0 else scale.

(** The re-anchoring of the scheduler thread (lines 237-244), [msecs] being
    the value of [SysDep::get_time()]. *)
Definition applyTempoScaleChange (msecs requested : double)
    (st : tempo_state) : tempo_state :=
  let lastT := ((msecs - lastTempoChangeS st) * currentTempo st
                  * tempoScale st / Fin 125 + lastTempoChangeT st)%D in
  mkTempo (currentTempo st) requested msecs lastT.

(* ================================================================== *)
(** * The note map (notemap.h) *)
(* ================================================================== *)

Module NoteMap.

Record key_type : Type := mkKey {
  devNum : Z;
  tk : Z;    (* track number *)
  ch : Z;    (* MIDI channel number (0-15) *)
  n : Z      (* MIDI note number (-1 for pedal) *)
}.

Definition lessp (m1 m2 : key_type) : bool :=
  (devNum m1 <? devNum m2) ||
  ((devNum m1 =? devNum m2) &&
   ((tk m1 <? tk m2) ||
    ((tk m1 =? tk m2) &&
     ((ch m1 <? ch m2) ||
      ((ch m1 =? ch m2) && (n m1 <? n m2)))))).

(** The value of the map is the note-on pile count. *)
Definition note_map : Type := list (key_type * Z).

(** *** The operations of [std::map] the class uses *)

(** Two keys are the same key for the map when neither is below the other. *)
Definition equiv (k1 k2 : key_type) : bool :=
  negb (lessp k1 k2) && negb (lessp k2 k1).

Fixpoint find (key : key_type) (m : note_map) : option Z :=
  match m with
  | [] => None
  | (k, c) :: r => if equiv k key then Some c else find key r
  end.

(** [insert] leaves the map as it is when the key is already there. *)
Fixpoint insert (key : key_type) (v : Z) (m : note_map) : note_map :=
  match m with
  | [] => [(key, v)]
  | (k, c) :: r =>
      if lessp key k then (key, v) :: m
      else if lessp k key then (k, c) :: insert key v r
      else m
  end.

(** Assignment through an iterator: [i->second = v]. *)
Fixpoint assign (key : key_type) (v : Z) (m : note_map) : note_map :=
  match m with
  | [] => []
  | (k, c) :: r =>
      if equiv k key then (k, v) :: r else (k, c) :: assign key v r
  end.

Fixpoint erase (key : key_type) (m : note_map) : note_map :=
  match m with
  | [] => []
  | (k, c) :: r => if equiv k key then r else (k, c) :: erase key r
  end.

(** [erase(p1, p2)] on positions; [end()] is the length of the list. *)
Definition erase_range (p1 p2 : nat) (m : note_map) : note_map :=
  firstn p1 m ++ skipn p2 m.

(** *** The member functions *)

Definition push (devNum tk ch n : Z) (m : note_map) : Z * note_map :=
  let key := mkKey devNum tk ch n in
  let m1 := insert key 0 m in
  let old := match find key m1 with Some c => c | None => 0 end in
  (old, assign key (int_incr old) m1).

Definition set (devNum tk ch n count : Z) (m : note_map) : note_map :=
  let key := mkKey devNum tk ch n in
  insert key count m.

Definition pop (devNum tk ch n : Z) (m : note_map) : Z * note_map :=
  let key := mkKey devNum tk ch n in
  match find key m with
  | Some c =>
      let count := int_decr c in
      (count, if count =? 0 then erase key m else assign key count m)
  | None => (0, m)
  end.

Definition clear_all (m : note_map) : note_map := [].

(** The scan shared by [clear(devNum, tk, ch)] and [clearAndCall]: [p1]
    becomes the first position that matches, [p2] the first position after
    [p1] that does not; [iend] stands for [noteMap.end()]. *)
Fixpoint scan (hit : key_type -> bool) (m : note_map) (i iend p1 p2 : nat)
    : nat * nat :=
  match m with
  | [] => (p1, p2)
  | (k, _) :: r =>
      if hit k then
        scan hit r (S i) iend (if Nat.eqb p1 iend then i else p1) p2
      else
        scan hit r (S i) iend p1
          (if negb (Nat.eqb p1 iend) && Nat.eqb p2 iend then i else p2)
  end.

Definition prefix_hit (devNum tk ch : Z) (k : key_type) : bool :=
  (NoteMap.devNum k =? devNum) && (NoteMap.tk k =? tk) && (NoteMap.ch k =? ch).

Definition clear (devNum tk ch : Z) (m : note_map) : note_map :=
  let iend := length m in
  let (p1, p2) := scan (prefix_hit devNum tk ch) m 0 iend iend iend in
  erase_range p1 p2 m.

Definition track_hit (devNum tk : Z) (k : key_type) : bool :=
  (NoteMap.devNum k =? devNum) &&
  ((tk =? ALL_TRACKS) || (NoteMap.tk k =? tk)).

(** For each entry with [devNum] and [tk], call a function and delete it.
    The loop calls [func] on every entry that matches and, as [scan] does,
    finds the range to erase. The callback works on a state [St] of its own:
    in the program it is [cancelFunc], which never touches the map that is
    being walked. *)
Fixpoint scan_call {St : Type} (devNum tk : Z)
    (func : Z -> Z -> Z -> Z -> Z -> St -> St)
    (m : note_map) (i iend p1 p2 : nat) (s : St) : nat * nat * St :=
  match m with
  | [] => (p1, p2, s)
  | (k, c) :: r =>
      if track_hit devNum tk k then
        scan_call devNum tk func r (S i) iend
          (if Nat.eqb p1 iend then i else p1) p2
          (func devNum tk (NoteMap.ch k) (NoteMap.n k) c s)
      else
        scan_call devNum tk func r (S i) iend p1
          (if negb (Nat.eqb p1 iend) && Nat.eqb p2 iend then i else p2) s
  end.

Definition clearAndCall {St : Type} (devNum tk : Z)
    (func : Z -> Z -> Z -> Z -> Z -> St -> St) (m : note_map) (s : St)
    : note_map * St :=
  let iend := length m in
  let '(p1, p2, s') := scan_call devNum tk func m 0 iend iend iend s in
  (erase_range p1 p2 m, s').

(** The count the map holds for a key, 0 for a key that is not there. *)
Definition count_of (key : key_type) (m : note_map) : Z :=
  match find key m with Some c => c | None => 0 end.

Definition present (key : key_type) (m : note_map) : Prop :=
  find key m <> None.

(** The invariant of [std::map]: keys strictly increasing. *)
Definition ordered (m : note_map) : Prop :=
  StronglySorted (fun a b => lessp (fst a) (fst b) = true) m.

(** The states the class can be in, starting from the empty map. *)
Inductive reachable : note_map -> Prop :=
| reach_empty : reachable []
| reach_push d t c k m : reachable m -> reachable (snd (push d t c k m))
| reach_pop d t c k m : reachable m -> reachable (snd (pop d t c k m))
| reach_set d t c k m : reachable m -> reachable (set d t c k 1 m)
| reach_clear_all m : reachable m -> reachable (clear_all m)
| reach_clear d t c m : reachable m -> reachable (clear d t c m)
| reach_clearAndCall (St : Type) d t
    (func : Z -> Z -> Z -> Z -> Z -> St -> St) (s : St) m :
    reachable m -> reachable (fst (clearAndCall d t func m s)).

(** The states the class is in as long as no count has overflowed: a key is
    pushed only while its count is below [INT_MAX]. *)
Inductive reachable_in_range : note_map -> Prop :=
| range_empty : reachable_in_range []
| range_push d t c k m :
    reachable_in_range m -> count_of (mkKey d t c k) m < INT_MAX ->
    reachable_in_range (snd (push d t c k m))
| range_pop d t c k m :
    reachable_in_range m -> reachable_in_range (snd (pop d t c k m))
| range_set d t c k m :
    reachable_in_range m -> reachable_in_range (set d t c k 1 m)
| range_clear_all m : reachable_in_range m -> reachable_in_range (clear_all m)
| range_clear d t c m :
    reachable_in_range m -> reachable_in_range (clear d t c m)
| range_clearAndCall (St : Type) d t
    (func : Z -> Z -> Z -> Z -> Z -> St -> St) (s : St) m :
    reachable_in_range m ->
    reachable_in_range (fst (clearAndCall d t func m s)).

End NoteMap.

(* ================================================================== *)
(** * The platform layer and the input relay, as far as the output side
      calls them *)
(* ================================================================== *)

Module SysDep.

Record midimsg_t : Type := mkMsg {
  msg : message_t;   (* MIDI message *)
  isSysEx : bool
}.

End SysDep.

Module MidiIn.

Record mi_queue_elm : Type := mkIn {
  devNum : Z;
  time : double;
  msg : message_t;
  tk : Z
}.

(** [MidiIn::enqueue] pushes at the back of the FIFO. *)
Definition enqueue (devNum : Z) (ticks : double) (tk : Z) (msg : message_t)
    (q : list mi_queue_elm) : list mi_queue_elm :=
  q ++ [mkIn devNum ticks msg tk].

End MidiIn.

(* ================================================================== *)
(** * The output scheduler (midiout.cpp) *)
(* ================================================================== *)

(** ** The queue of time-stamped messages *)

Record mo_queue_elm : Type := mkElm {
  devNum : Z;
  time : double;      (* time in ticks *)
  count : Z;          (* wrap-around counter necessary for stable sorting *)
  msg : message_t;
  tk : Z              (* track number *)
}.

Definition greater (e1 e2 : mo_queue_elm) : bool :=
  if deqb (time e1) (time e2) then 0 <? wrap32 (count e1 - count e2)
  else dgtb (time e1) (time e2).

(** The three heap algorithms of the C++ library, each taking the
    comparison as [std::make_heap(first, last, comp)] does. *)
Record heap_algorithms : Type := mkHeapAlgorithms {
  make_heap : forall A : Type, (A -> A -> bool) -> list A -> list A;
  push_heap : forall A : Type, (A -> A -> bool) -> list A -> list A;
  pop_heap : forall A : Type, (A -> A -> bool) -> list A -> list A
}.

(** The heap property of [std::is_heap]: no parent compares below its
    child, the parent of position [i] being position [(i - 1) / 2]. *)
Definition is_heap {A : Type} (comp : A -> A -> bool) (l : list A) : Prop :=
  forall (i : nat) (p c : A),
    (0 < i)%nat ->
    nth_error l i = Some c ->
    nth_error l ((i - 1) / 2) = Some p ->
    comp p c = false.

(** What the library asks of [comp]: a strict weak ordering, here on the
    values of the range. *)
Record strict_weak_order {A : Type} (comp : A -> A -> bool) (l : list A)
    : Prop := {
  swo_irrefl : forall a, In a l -> comp a a = false;
  swo_trans : forall a b c, In a l -> In b l -> In c l ->
    comp a b = true -> comp b c = true -> comp a c = true;
  swo_negtrans : forall a b c, In a l -> In b l -> In c l ->
    comp a b = false -> comp b c = false -> comp a c = false
}.

(** The contract of the three algorithms (ISO C++, [alg.heap.operations]). *)
Record heap_contract (H : heap_algorithms) : Prop := {
  make_heap_perm : forall A (comp : A -> A -> bool) l,
    Permutation l (make_heap H A comp l);
  make_heap_is_heap : forall A (comp : A -> A -> bool) l,
    strict_weak_order comp l -> is_heap comp (make_heap H A comp l);
  push_heap_perm : forall A (comp : A -> A -> bool) l,
    Permutation l (push_heap H A comp l);
  push_heap_is_heap : forall A (comp : A -> A -> bool) l x,
    strict_weak_order comp (l ++ [x]) -> is_heap comp l ->
    is_heap comp (push_heap H A comp (l ++ [x]));
  pop_heap_spec : forall A (comp : A -> A -> bool) x l,
    strict_weak_order comp (x :: l) -> is_heap comp (x :: l) ->
    exists l', pop_heap H A comp (x :: l) = l' ++ [x] /\
               Permutation l l' /\ is_heap comp l'
}.

(** An instance of the interface: every algorithm sorts the range by
    insertion, the top of the heap first; [pop_heap] then moves the top to
    the back. *)
Fixpoint sorted_insert {A : Type} (comp : A -> A -> bool) (x : A)
    (l : list A) : list A :=
  match l with
  | [] => [x]
  | y :: r => if comp y x then x :: l else y :: sorted_insert comp x r
  end.

Definition insertion_sort {A : Type} (comp : A -> A -> bool) (l : list A)
    : list A :=
  fold_right (sorted_insert comp) [] l.

Definition sorting_heap : heap_algorithms :=
  mkHeapAlgorithms
    (fun A comp l => insertion_sort comp l)
    (fun A comp l => insertion_sort comp l)
    (fun A comp l =>
       match l with
       | [] => []
       | x :: r => insertion_sort comp r ++ [x]
       end).

(** ** The state of the output side

    The static variables of midiout.cpp, [currentCount] of the constructor
    of [mo_queue_elm], and two traces: [sent] lists the calls of
    [SysDep::midi_send] (device number and message) and [miEventQueue] is the
    FIFO of the input relay, which loop-back events are pushed to.
    [midiOutHandles] holds, for each device number, whether its handle is
    non-null. *)

Record mo_state : Type := mkState {
  midiOutHandles : list bool;
  shutdownRequest : bool;
  stopRequest : bool;
  tempoScaleChangeRequest : bool;
  cancelRequests : list (Z * Z);
  tempo_map : tempo_state;
  requestedTempoScale : double;
  retriggerNotes : bool;
  retriggerNotesChangeReq : Z;
  currentCount : Z;
  moEventQueue : list mo_queue_elm;
  retriggerNoteMap : NoteMap.note_map;
  cancelNoteMap : NoteMap.note_map;
  sent : list (Z * SysDep.midimsg_t);
  miEventQueue : list MidiIn.mi_queue_elm
}.

Definition set_midiOutHandles (v : list bool) (s : mo_state) : mo_state :=
  mkState v (shutdownRequest s) (stopRequest s) (tempoScaleChangeRequest s)
    (cancelRequests s) (tempo_map s) (requestedTempoScale s) (retriggerNotes s)
    (retriggerNotesChangeReq s) (currentCount s) (moEventQueue s)
    (retriggerNoteMap s) (cancelNoteMap s) (sent s) (miEventQueue s).

Definition set_shutdownRequest (v : bool) (s : mo_state) : mo_state :=
  mkState (midiOutHandles s) v (stopRequest s) (tempoScaleChangeRequest s)
    (cancelRequests s) (tempo_map s) (requestedTempoScale s) (retriggerNotes s)
    (retriggerNotesChangeReq s) (currentCount s) (moEventQueue s)
    (retriggerNoteMap s) (cancelNoteMap s) (sent s) (miEventQueue s).

Definition set_stopRequest (v : bool) (s : mo_state) : mo_state :=
  mkState (midiOutHandles s) (shutdownRequest s) v (tempoScaleChangeRequest s)
    (cancelRequests s) (tempo_map s) (requestedTempoScale s) (retriggerNotes s)
    (retriggerNotesChangeReq s) (currentCount s) (moEventQueue s)
    (retriggerNoteMap s) (cancelNoteMap s) (sent s) (miEventQueue s).

Definition set_tempoScaleChangeRequest (v : bool) (s : mo_state) : mo_state :=
  mkState (midiOutHandles s) (shutdownRequest s) (stopRequest s) v
    (cancelRequests s) (tempo_map s) (requestedTempoScale s) (retriggerNotes s)
    (retriggerNotesChangeReq s) (currentCount s) (moEventQueue s)
    (retriggerNoteMap s) (cancelNoteMap s) (sent s) (miEventQueue s).

Definition set_cancelRequests (v : list (Z * Z)) (s : mo_state) : mo_state :=
  mkState (midiOutHandles s) (shutdownRequest s) (stopRequest s)
    (tempoScaleChangeRequest s) v (tempo_map s) (requestedTempoScale s)
    (retriggerNotes s) (retriggerNotesChangeReq s) (currentCount s)
    (moEventQueue s) (retriggerNoteMap s) (cancelNoteMap s) (sent s)
    (miEventQueue s).

Definition set_tempo (v : tempo_state) (s : mo_state) : mo_state :=
  mkState (midiOutHandles s) (shutdownRequest s) (stopRequest s)
    (tempoScaleChangeRequest s) (cancelRequests s) v (requestedTempoScale s)
    (retriggerNotes s) (retriggerNotesChangeReq s) (currentCount s)
    (moEventQueue s) (retriggerNoteMap s) (cancelNoteMap s) (sent s)
    (miEventQueue s).

Definition set_requestedTempoScale (v : double) (s : mo_state) : mo_state :=
  mkState (midiOutHandles s) (shutdownRequest s) (stopRequest s)
    (tempoScaleChangeRequest s) (cancelRequests s) (tempo_map s) v
    (retriggerNotes s) (retriggerNotesChangeReq s) (currentCount s)
    (moEventQueue s) (retriggerNoteMap s) (cancelNoteMap s) (sent s)
    (miEventQueue s).

Definition set_retriggerNotes (v : bool) (s : mo_state) : mo_state :=
  mkState (midiOutHandles s) (shutdownRequest s) (stopRequest s)
    (tempoScaleChangeRequest s) (cancelRequests s) (tempo_map s)
    (requestedTempoScale s) v (retriggerNotesChangeReq s) (currentCount s)
    (moEventQueue s) (retriggerNoteMap s) (cancelNoteMap s) (sent s)
    (miEventQueue s).

Definition set_retriggerNotesChangeReq (v : Z) (s : mo_state) : mo_state :=
  mkState (midiOutHandles s) (shutdownRequest s) (stopRequest s)
    (tempoScaleChangeRequest s) (cancelRequests s) (tempo_map s)
    (requestedTempoScale s) (retriggerNotes s) v (currentCount s)
    (moEventQueue s) (retriggerNoteMap s) (cancelNoteMap s) (sent s)
    (miEventQueue s).

Definition set_currentCount (v : Z) (s : mo_state) : mo_state :=
  mkState (midiOutHandles s) (shutdownRequest s) (stopRequest s)
    (tempoScaleChangeRequest s) (cancelRequests s) (tempo_map s)
    (requestedTempoScale s) (retriggerNotes s) (retriggerNotesChangeReq s) v
    (moEventQueue s) (retriggerNoteMap s) (cancelNoteMap s) (sent s)
    (miEventQueue s).

Definition set_moEventQueue (v : list mo_queue_elm) (s : mo_state)
    : mo_state :=
  mkState (midiOutHandles s) (shutdownRequest s) (stopRequest s)
    (tempoScaleChangeRequest s) (cancelRequests s) (tempo_map s)
    (requestedTempoScale s) (retriggerNotes s) (retriggerNotesChangeReq s)
    (currentCount s) v (retriggerNoteMap s) (cancelNoteMap s) (sent s)
    (miEventQueue s).

Definition set_retriggerNoteMap (v : NoteMap.note_map) (s : mo_state)
    : mo_state :=
  mkState (midiOutHandles s) (shutdownRequest s) (stopRequest s)
    (tempoScaleChangeRequest s) (cancelRequests s) (tempo_map s)
    (requestedTempoScale s) (retriggerNotes s) (retriggerNotesChangeReq s)
    (currentCount s) (moEventQueue s) v (cancelNoteMap s) (sent s)
    (miEventQueue s).

Definition set_cancelNoteMap (v : NoteMap.note_map) (s : mo_state)
    : mo_state :=
  mkState (midiOutHandles s) (shutdownRequest s) (stopRequest s)
    (tempoScaleChangeRequest s) (cancelRequests s) (tempo_map s)
    (requestedTempoScale s) (retriggerNotes s) (retriggerNotesChangeReq s)
    (currentCount s) (moEventQueue s) (retriggerNoteMap s) v (sent s)
    (miEventQueue s).

Definition set_sent (v : list (Z * SysDep.midimsg_t)) (s : mo_state)
    : mo_state :=
  mkState (midiOutHandles s) (shutdownRequest s) (stopRequest s)
    (tempoScaleChangeRequest s) (cancelRequests s) (tempo_map s)
    (requestedTempoScale s) (retriggerNotes s) (retriggerNotesChangeReq s)
    (currentCount s) (moEventQueue s) (retriggerNoteMap s) (cancelNoteMap s)
    v (miEventQueue s).

Definition set_miEventQueue (v : list MidiIn.mi_queue_elm) (s : mo_state)
    : mo_state :=
  mkState (midiOutHandles s) (shutdownRequest s) (stopRequest s)
    (tempoScaleChangeRequest s) (cancelRequests s) (tempo_map s)
    (requestedTempoScale s) (retriggerNotes s) (retriggerNotesChangeReq s)
    (currentCount s) (moEventQueue s) (retriggerNoteMap s) (cancelNoteMap s)
    (sent s) v.

(** The state after [MidiOut::startup], before any device is opened. *)
Definition startup_state : mo_state :=
  mkState [] false false false [] startup_tempo (Fin 0) true 0 0 [] [] []
    [] [].

(** [midiOutHandles[devNum]] read as a truth value; the program only reads
    positions inside the vector. *)
Definition handle_open (devNum : Z) (s : mo_state) : bool :=
  nth (Z.to_nat devNum) (midiOutHandles s) false.

(** [SysDep::midi_send(midiOutHandles[devNum], &m)]. *)
Definition midi_send (devNum : Z) (m : SysDep.midimsg_t) (s : mo_state)
    : mo_state :=
  set_sent (sent s ++ [(devNum, m)]) s.

(** [m.msg[i]]; the program only reads positions inside the message. *)
Definition byte_at (m : message_t) (i : nat) : Z := nth i m 0.

(** ** Device table *)

(** [MidiOut::openDevice], for a device the platform opens ([true]) or
    refuses ([false]); [num_devs] is [SysDep::midiout_get_num_devs()].
    The result is the error flag. *)
Definition openDevice (num_devs : Z) (platform_opens : bool) (devNum : Z)
    (s : mo_state) : bool * mo_state :=
  if devNum <? 0 then (false, s)
  else if devNum >=? num_devs then (true, s)
  else
    let hs := midiOutHandles s in
    let hs := if (Z.of_nat (length hs) <=? devNum)
              then hs ++ repeat false (Z.to_nat devNum + 1 - length hs)
              else hs in
    if nth (Z.to_nat devNum) hs false then (false, set_midiOutHandles hs s)
    else if platform_opens
         then (false, set_midiOutHandles
                        (firstn (Z.to_nat devNum) hs ++ true ::
                         skipn (S (Z.to_nat devNum)) hs) s)
         else (true, set_midiOutHandles hs s).

Definition closeDevice (devNum : Z) (s : mo_state) : mo_state :=
  if devNum <? 0 then s
  else if (devNum <? Z.of_nat (length (midiOutHandles s)))
          && handle_open devNum s
       then set_midiOutHandles
              (firstn (Z.to_nat devNum) (midiOutHandles s) ++ false ::
               skipn (S (Z.to_nat devNum)) (midiOutHandles s)) s
       else s.

Definition isOpenedDevice (devNum : Z) (s : mo_state) : bool :=
  if devNum <? 0 then true
  else (devNum <? Z.of_nat (length (midiOutHandles s)))
       && handle_open devNum s.

(** ** Stop and cancel *)

(** Function called from [cancelNoteMap.clearAndCall]. *)
Definition cancelFunc (devNum tk ch n count : Z) (s : mo_state) : mo_state :=
  if n =? -1 then
    midi_send devNum
      (SysDep.mkMsg [to_uchar (0xb0 + ch); C_SUSTAIN; 0] false) s
  else
    Nat.iter (Z.to_nat count)
      (fun s =>
         let s1 := midi_send devNum
                     (SysDep.mkMsg [to_uchar (0x90 + ch); to_uchar n; 0]
                        false) s in
         if retriggerNotes s1
         then set_retriggerNoteMap
                (snd (NoteMap.pop devNum 0 ch n (retriggerNoteMap s1))) s1
         else s1)
      s.

(** [cancelNoteMap.clearAndCall(devNum, tk, cancelFunc)]. *)
Definition cancelNotes (devNum tk : Z) (s : mo_state) : mo_state :=
  let (cm, s1) :=
    NoteMap.clearAndCall devNum tk cancelFunc (cancelNoteMap s) s in
  set_cancelNoteMap cm s1.

(** The body of the loop over the channels in [doStopAll]. *)
Definition all_off (i ch : Z) (s : mo_state) : mo_state :=
  let b0 := to_uchar (0xb0 + ch) in
  let s1 := midi_send i (SysDep.mkMsg [b0; C_ALL_NOTES_OFF; 0] false) s in
  let s2 := midi_send i (SysDep.mkMsg [b0; C_SUSTAIN; 0] false) s1 in
  midi_send i (SysDep.mkMsg [b0; C_ALL_SOUND_OFF; 0] false) s2.

Definition channels : list Z := map Z.of_nat (seq 0 16).

Definition stopDevice (s : mo_state) (i : Z) : mo_state :=
  if handle_open i s then
    fold_left (fun s ch => all_off i ch s) channels
      (cancelNotes i ALL_TRACKS s)
  else s.

(** Send all-notes-off and sustain-off messages for each channel of all the
    opening devices and clear the event queue and note maps. *)
Definition doStopAll (s : mo_state) : mo_state :=
  let devices := map Z.of_nat (seq 0 (length (midiOutHandles s))) in
  let s1 := fold_left stopDevice devices s in
  set_cancelNoteMap (NoteMap.clear_all (cancelNoteMap s1))
    (set_retriggerNoteMap (NoteMap.clear_all (retriggerNoteMap s1))
       (set_moEventQueue [] s1)).

(** The test of both inner loops of [doCancelMessages]. *)
Definition cancel_hit (dev trk : Z) (e : mo_queue_elm) : bool :=
  (devNum e =? dev) && ((trk =? ALL_TRACKS) || (tk e =? trk)).

Definition null_elm : mo_queue_elm := mkElm 0 (Fin 0) 0 [] 0.

(** [moEventQueue[i]]; the program only reads positions inside the vector. *)
Definition elm_at (q : list mo_queue_elm) (i : Z) : mo_queue_elm :=
  nth (Z.to_nat i) q null_elm.

(** Exchange of [moEventQueue[i]] and [moEventQueue[j]]. *)
Definition store {A : Type} (q : list A) (i : Z) (e : A) : list A :=
  firstn (Z.to_nat i) q ++ e :: skipn (S (Z.to_nat i)) q.

Definition swap (q : list mo_queue_elm) (i j : Z) : list mo_queue_elm :=
  let tmp := elm_at q j in
  store (store q j (elm_at q i)) i tmp.

(** First inner loop: [while (i <= j && !hit(q[i])) i++]. The loops of
    [doCancelMessages] run on a budget that the length of the queue
    covers. *)
Fixpoint skip_kept (hit : mo_queue_elm -> bool) (q : list mo_queue_elm)
    (budget : nat) (i j : Z) : Z :=
  match budget with
  | O => i
  | S b =>
      if (i <=? j) && negb (hit (elm_at q i))
      then skip_kept hit q b (i + 1) j
      else i
  end.

(** Second inner loop: [while (i <= j && hit(q[j])) j--]. *)
Fixpoint skip_dropped (hit : mo_queue_elm -> bool) (q : list mo_queue_elm)
    (budget : nat) (i j : Z) : Z :=
  match budget with
  | O => j
  | S b =>
      if (i <=? j) && hit (elm_at q j)
      then skip_dropped hit q b i (j - 1)
      else j
  end.

(** The outer loop: the events deleted are moved to the end part of the
    queue; the result is the queue and the final [i]. *)
Fixpoint move_hits (hit : mo_queue_elm -> bool) (budget : nat)
    (q : list mo_queue_elm) (i j : Z) : list mo_queue_elm * Z :=
  match budget with
  | O => (q, i)
  | S b =>
      let i1 := skip_kept hit q (length q) i j in
      let j1 := skip_dropped hit q (length q) i1 j in
      if i1 >? j1 then (q, i1)
      else move_hits hit b (swap q i1 j1) i1 j1
  end.

(** Cancel messages for particular [devNum] and [tk]. *)
Definition doCancelMessages (H : heap_algorithms) (dev trk : Z)
    (s : mo_state) : mo_state :=
  let q := moEventQueue s in
  let (q1, i) :=
    move_hits (cancel_hit dev trk) (S (length q)) q 0
      (Z.of_nat (length q) - 1) in
  let q2 := firstn (Z.to_nat i) q1 in
  let s1 := set_moEventQueue (make_heap H _ greater q2) s in
  if (dev >=? 0) && (dev <? Z.of_nat (length (midiOutHandles s1)))
     && handle_open dev s1
  then cancelNotes dev trk s1
  else s1.

(** ** Sending *)

(** Send a MIDI message with optional retrigger processing. *)
Definition midiOutSendMessage (dev trk : Z) (m : SysDep.midimsg_t)
    (s : mo_state) : mo_state :=
  let b := byte_at (SysDep.msg m) in
  let ch := Z.land (b 0%nat) 0xf in
  let status := Z.land (b 0%nat) 0xf0 in
  let '(no_output, s1) :=
    if ((status =? 0x90) && (b 2%nat =? 0)) || (status =? 0x80) then
      (* note-off *)
      let '(no_output, s1) :=
        if retriggerNotes s then
          let (c, rm) := NoteMap.pop dev 0 ch (b 1%nat) (retriggerNoteMap s) in
          (c >=? 1, set_retriggerNoteMap rm s)
        else (false, s) in
      (no_output,
       set_cancelNoteMap
         (snd (NoteMap.pop dev trk ch (b 1%nat) (cancelNoteMap s1))) s1)
    else if status =? 0x90 then
      (* note-on *)
      let s1 :=
        if retriggerNotes s then
          let (c, rm) :=
            NoteMap.push dev 0 ch (b 1%nat) (retriggerNoteMap s) in
          let s0 := set_retriggerNoteMap rm s in
          if c >=? 1 then
            let m_off :=
              SysDep.mkMsg (store (SysDep.msg m) 2 0) (SysDep.isSysEx m) in
            midi_send dev m_off s0
          else s0
        else s in
      (false,
       set_cancelNoteMap
         (snd (NoteMap.push dev trk ch (b 1%nat) (cancelNoteMap s1))) s1)
    else if (status =? 0xb0)
            && ((b 1%nat =? C_ALL_NOTES_OFF) || (b 1%nat =? C_ALL_SOUND_OFF))
    then
      (false,
       if retriggerNotes s
       then set_retriggerNoteMap
              (NoteMap.clear dev 0 ch (retriggerNoteMap s)) s
       else s)
    else if (status =? 0xb0) && (b 1%nat =? C_SUSTAIN) then
      (false,
       if b 2%nat =? 0
       then set_cancelNoteMap
              (snd (NoteMap.pop dev trk ch (-1) (cancelNoteMap s))) s
       else set_cancelNoteMap
              (NoteMap.set dev trk ch (-1) 1 (cancelNoteMap s)) s)
    else (false, s) in
  if negb no_output then midi_send dev m s1 else s1.

(** ** The scheduler thread *)

(** What the thread waits for at the top of its loop (lines 214-234):
    [None] for [cond_wait], [Some (ticks, msecs)] for [cond_timedwait] until
    [msecs]. *)
Definition wait_target (s : mo_state) : option (double * double) :=
  match moEventQueue s with
  | [] => None
  | top :: _ =>
      let tempo := (currentTempo (tempo_map s) * tempoScale (tempo_map s))%D in
      if dleb tempo (Fin 0) then None
      else
        let ticks := time top in
        if isinf ticks && dgtb ticks (Fin 0) then None
        else
          let ticks := if isinf ticks then Fin 0 else ticks in
          let msecs :=
            ((ticks - lastTempoChangeT (tempo_map s)) * Fin 125 / tempo
               + lastTempoChangeS (tempo_map s))%D in
          Some (ticks, msecs)
  end.

(** What the loop does with the event at the top of the queue
    (lines 264-286). *)
Definition dispatch (ticks msecs : double) (qtop : mo_queue_elm)
    (s : mo_state) : mo_state :=
  if devNum qtop =? DEV_LOOPBACK then
    set_miEventQueue
      (MidiIn.enqueue (devNum qtop) (time qtop) (tk qtop) (msg qtop)
         (miEventQueue s)) s
  else if negb (byte_at (msg qtop) 0 =? 0xff) then
    if (devNum qtop >=? 0) && handle_open (devNum qtop) s then
      let m :=
        if byte_at (msg qtop) 0 =? 0xf0
        then SysDep.mkMsg (tl (msg qtop)) true
        else SysDep.mkMsg (msg qtop) false in
      midiOutSendMessage (devNum qtop) (tk qtop) m s
    else s
  else if (Z.of_nat (length (msg qtop)) >=? 5)
          && (byte_at (msg qtop) 1 =? M_TEMPO) then
    (* tempo event *)
    let usecsPerBeat :=
      Z.shiftl (byte_at (msg qtop) 2) 16 + Z.shiftl (byte_at (msg qtop) 3) 8
      + byte_at (msg qtop) 4 in
    set_tempo
      (mkTempo (Fin 60000000 / double_of_Z usecsPerBeat)%D
         (tempoScale (tempo_map s)) msecs ticks) s
  else s (* ignore other meta-events *).

(** Pop the events at the queue's top and output them (lines 263-292). The
    loop takes one event off the queue at each turn, so the length of the
    queue covers its budget. The first component lists the events in the
    order the loop took them. *)
Fixpoint dispatch_loop (H : heap_algorithms) (budget : nat)
    (ticks msecs : double) (s : mo_state) : list mo_queue_elm * mo_state :=
  match budget with
  | O => ([], s)
  | S b =>
      match moEventQueue s with
      | [] => ([], s)
      | qtop :: _ =>
          if dleb (time qtop) ticks then
            let s1 := dispatch ticks msecs qtop s in
            let q := pop_heap H _ greater (moEventQueue s1) in
            let s2 := set_moEventQueue (removelast q) s1 in
            let (out, s3) := dispatch_loop H b ticks msecs s2 in
            (qtop :: out, s3)
          else ([], s)
      end
  end.

(** Shutdown: close all devices. *)
Definition close_all (s : mo_state) : mo_state :=
  set_midiOutHandles (map (fun _ => false) (midiOutHandles s)) s.

(** The scheduler applies a request for a tempo scale (lines 237-244).
    [now] is the value [SysDep::get_time()] returns; the first component is
    the variable [msecs] of the loop, which the block overwrites. *)
Definition applyScaleRequest (now msecs : double) (s : mo_state)
    : double * mo_state :=
  if tempoScaleChangeRequest s then
    (now,
     set_tempoScaleChangeRequest false
       (set_tempo
          (applyTempoScaleChange now (requestedTempoScale s) (tempo_map s))
          s))
  else (msecs, s).

(** One turn of the loop of [midiOutThreadBody] from the return of the wait
    (lines 236-292). [tmout] is the result of the wait, [(ticks, msecs)] its
    target, [now] the value [SysDep::get_time()] returns if it is called.
    The first component is false when the thread leaves the loop. *)
Definition thread_wake (H : heap_algorithms) (tmout : bool)
    (ticks msecs now : double) (s : mo_state) : bool * mo_state :=
  if shutdownRequest s then (false, close_all s)
  else
    let '(msecs, s1) := applyScaleRequest now msecs s in
    let s2 :=
      if stopRequest s1 then
        let s' := set_stopRequest false (doStopAll s1) in
        if negb (retriggerNotesChangeReq s' =? 0) then
          set_retriggerNotesChangeReq 0
            (set_retriggerNotes
               (negb (retriggerNotesChangeReq s' - 1 =? 0)) s')
        else s'
      else s1 in
    let s3 :=
      set_cancelRequests []
        (fold_left (fun s r => doCancelMessages H (fst r) (snd r) s)
           (cancelRequests s2) s2) in
    if negb tmout then (true, s3)
    else
      (true,
       snd (dispatch_loop H (length (moEventQueue s3)) ticks msecs s3)).

(** ** Requests of the other threads *)

Definition shutdown (s : mo_state) : mo_state := set_shutdownRequest true s.

Definition stopAll (s : mo_state) : mo_state := set_stopRequest true s.

Definition setTempoScale (scale : double) (s : mo_state) : mo_state :=
  set_requestedTempoScale (clamp_scale scale)
    (set_tempoScaleChangeRequest true s).

Definition cancelMessages (dev trk : Z) (s : mo_state) : mo_state :=
  set_cancelRequests (cancelRequests s ++ [(dev, trk)]) s.

Definition setRetrigger (enable : bool) (s : mo_state) : mo_state :=
  set_retriggerNotesChangeReq ((if enable then 1 else 0) + 1)
    (set_stopRequest true s).

(** The constructor of [mo_queue_elm] draws the counter. *)
Definition new_mo_queue_elm (d : Z) (t : double) (trk : Z) (s : mo_state)
    : mo_queue_elm * mo_state :=
  (mkElm d t (currentCount s) [] trk,
   set_currentCount (wrap32 (currentCount s + 1)) s).

Definition enqueue (H : heap_algorithms) (q : mo_queue_elm) (s : mo_state)
    : mo_state :=
  set_moEventQueue (push_heap H _ greater (moEventQueue s ++ [q])) s.

(** Put a message in the message queue; the result is the error flag. *)
Definition queueMessage (H : heap_algorithms) (dev : Z) (ticks : double)
    (trk : Z) (m : message_t) (s : mo_state) : bool * mo_state :=
  if Z.of_nat (length m) <? 1 then (true, s)
  else if (dev >=? 0)
          && ((dev >=? Z.of_nat (length (midiOutHandles s)))
              || negb (handle_open dev s))
  then (true, s)
  else
    let (q, s1) := new_mo_queue_elm dev ticks trk s in
    let q := mkElm (devNum q) (time q) (count q) m (tk q) in
    (false, enqueue H q s1).

(* ================================================================== *)
(** * The facade (cmidiio.cpp) *)
(* ================================================================== *)

Definition midimsg_size (status : Z) : Z :=
  let table := [3; 3; 3; 3; 2; 2; 3; 0] in
  let len := nth (Z.to_nat (Z.land (Z.shiftr status 4) 7)) table 0 in
  if negb (len =? 0) then len
  else if status =? 0xf0 then 0       (* exclusive *)
  else if (status =? 0xf1) || (status =? 0xf3) then 2
  else if status =? 0xf2 then 3
  else 1.

(** What [takt_queue_message] hands back to Python: [None], or the
    exception it raises. *)
Inductive py_result : Type :=
| Py_None
| PyExc_ValueError (text : String.string)
| PyExc_RuntimeError (text : String.string).

Definition takt_queue_message (H : heap_algorithms) (dev : Z)
    (ticks : double) (trk : Z) (m : message_t) (s : mo_state)
    : py_result * mo_state :=
  let size := Z.of_nat (length m) in
  let m0 := byte_at m 0 in
  if negb (dev =? DEV_LOOPBACK)
     && negb ((size >? 0)
              && (((m0 >=? 0x80) && (m0 <? 0xf0)
                   && (size =? midimsg_size m0))
                  || (m0 =? 0xf0) || (m0 =? 0xff)))
  then (PyExc_ValueError "invalid MIDI (or meta) message"%string, s)
  else
    let (err, s1) := queueMessage H dev ticks trk m s in
    if err then (PyExc_RuntimeError "device is not opened"%string, s1)
    else (Py_None, s1).

(* ================================================================== *)
(** * The output scheduler, further *)
(* ================================================================== *)


(* ================================================================== *)
(** * The input relay (midiin.cpp) *)
(* ================================================================== *)

Module MidiInput.

(** The static variables of midiin.cpp. [midiInHandles] holds, for each
    device number, whether its handle is non-null. *)
Record mi_state : Type := mkState {
  midiInHandles : list bool;
  miEventQueue : list MidiIn.mi_queue_elm;
  receiving : bool
}.

Definition startup_state : mi_state := mkState [] [] false.

(** [MidiIn::closeDevice]: the handle is closed if there is one, and the
    messages of the device are taken out of the queue: the queue is copied,
    cleared, and the messages of the other devices are pushed back. *)
Definition closeDevice (devNum : Z) (s : mi_state) : mi_state :=
  if devNum <? 0 then s
  else
    let hs :=
      if (devNum <? Z.of_nat (length (midiInHandles s)))
         && nth (Z.to_nat devNum) (midiInHandles s) false
      then store (midiInHandles s) devNum false
      else midiInHandles s in
    let queueCopy := miEventQueue s in
    let q :=
      fold_left
        (fun q e => if negb (MidiIn.devNum e =? devNum) then q ++ [e] else q)
        queueCopy [] in
    mkState hs q (receiving s).

Definition isOpenedDevice (devNum : Z) (s : mi_state) : bool :=
  if devNum <? 0 then true
  else (devNum <? Z.of_nat (length (midiInHandles s)))
       && nth (Z.to_nat devNum) (midiInHandles s) false.

(** [MidiIn::receiveMessage] up to its wait: [receiving = true]. *)
Definition receive_begin (s : mi_state) : mi_state :=
  mkState (midiInHandles s) (miEventQueue s) true.

(** [MidiIn::receiveMessage] from one test of its loop
    [while (miEventQueue.empty() && receiving)]: [None] when the call waits
    on, else the values it hands back (device, ticks, track, message) and
    the state it leaves. *)
Definition receive_end (s : mi_state)
    : option ((Z * double * Z * message_t) * mi_state) :=
  match miEventQueue s, receiving s with
  | [], true => None
  | e :: r, true =>
      Some ((MidiIn.devNum e, MidiIn.time e, MidiIn.tk e, MidiIn.msg e),
            mkState (midiInHandles s) r false)
  | _, false =>
      (* interrupted while receiving *)
      Some ((DEV_DUMMY, Fin 0, 0, []), s)
  end.

(** [MidiIn::enqueue]. *)
Definition enqueue (devNum : Z) (ticks : double) (tk : Z) (msg : message_t)
    (s : mi_state) : mi_state :=
  mkState (midiInHandles s)
    (MidiIn.enqueue devNum ticks tk msg (miEventQueue s)) (receiving s).

(** [MidiIn::interrupt]. *)
Definition interrupt (s : mi_state) : mi_state :=
  mkState (midiInHandles s) [] false.

(** One turn of the loop of [midiInThreadBody] after [device_wait] has
    returned [MIDIIN] for [devNum]: [recv] is what [SysDep::midi_recv]
    gives, the message and its time stamp in milliseconds, or [None] when
    it reports an error; [tm] is the tempo map [MidiOut::msecsToTicks]
    reads. *)
Definition midiInThreadBody_step (tm : tempo_state) (devNum : Z)
    (recv : option (SysDep.midimsg_t * double)) (s : mi_state) : mi_state :=
  match recv with
  | Some (midimsg, tstamp) =>
      let ticks := msecsToTicks tm tstamp in
      let m :=
        if SysDep.isSysEx midimsg then 0xf0 :: SysDep.msg midimsg
        else SysDep.msg midimsg in
      enqueue devNum ticks 0 m s
  | None => s
  end.

End MidiInput.

(* ================================================================== *)
(** * Platform adapters: the conversion of messages *)
(* ================================================================== *)

(** ** Windows (sysdepWin.cpp) *)

Module Win.

(** The word [SysDep::midi_send] hands to [midiOutShortMsg] for a message
    that is not a system-exclusive one (lines 295-296). The function reads
    [msg[0]] and [msg[1]], and [msg[2]] when the size is 2 or more; the
    result is [None] when one of these positions is not in the message. *)
Definition midi_send_short (m : message_t) : option Z :=
  match nth_error m 0, nth_error m 1 with
  | Some m0, Some m1 =>
      let d := Z.lor m0 (Z.shiftl m1 8) in
      if Z.of_nat (length m) >=? 2 then
        match nth_error m 2 with
        | Some m2 => Some (Z.lor d (Z.shiftl m2 16))
        | None => None
        end
      else Some d
  | _, _ => None
  end.

(** The input buffer holds, for a short message, its time stamp and the
    word of the driver. *)
Definition midiin_buffer : Type := list (Z * Z).

(** [midiInHandler] on [MIM_DATA] (lines 326-334): system messages are
    ignored; the word is kept as a [DWORD]. *)
Definition midiInHandler_data (dwParam1 timeStamp : Z) (b : midiin_buffer)
    : midiin_buffer :=
  if Z.land dwParam1 0xff <? 0xf0
  then b ++ [(timeStamp, dwParam1 mod 2 ^ 32)]
  else b.

(** The message [SysDep::midi_recv] makes of a short message
    (lines 461-466). *)
Definition midi_recv_short (elm_msg : Z) : SysDep.midimsg_t :=
  SysDep.mkMsg
    [Z.land elm_msg 0xff;
     Z.land (Z.shiftr elm_msg 8) 0xff;
     Z.land (Z.shiftr elm_msg 16) 0xff]
    false.

End Win.

(** ** Linux ALSA (sysdepLinux.cpp) *)

Module Alsa.

(** The sequencer events of ALSA as far as the adapter builds and reads
    them: the type of the event and the fields [data.note]
    ([channel], [note], [velocity]), [data.control] ([channel], [param],
    [value]) or [data.ext]. The setters of ALSA
    ([snd_seq_ev_set_noteon(ev, ch, key, vel)] and the like) store their
    arguments in these fields in this order. *)
Inductive snd_seq_event : Type :=
| NOTEOFF (channel note velocity : Z)
| NOTEON (channel note velocity : Z)
| KEYPRESS (channel note velocity : Z)
| CONTROLLER (channel param value : Z)
| PGMCHANGE (channel value : Z)
| CHANPRESS (channel value : Z)
| PITCHBEND (channel value : Z)
| SYSEX (ext : list Z)
| OTHER.

(** The event [SysDep::midi_send] outputs, [None] when it returns without
    output ("ignore system msgs"). *)
Definition midi_send (m : SysDep.midimsg_t) : option snd_seq_event :=
  let b := byte_at (SysDep.msg m) in
  let ch := Z.land (b 0%nat) 0xf in
  if negb (SysDep.isSysEx m) then
    let status := Z.land (b 0%nat) 0xf0 in
    if status =? 0x80 then Some (NOTEOFF ch (b 1%nat) (b 2%nat))
    else if status =? 0x90 then Some (NOTEON ch (b 1%nat) (b 2%nat))
    else if status =? 0xa0 then Some (KEYPRESS ch (b 1%nat) (b 2%nat))
    else if status =? 0xb0 then Some (CONTROLLER ch (b 1%nat) (b 2%nat))
    else if status =? 0xc0 then Some (PGMCHANGE ch (b 1%nat))
    else if status =? 0xd0 then Some (CHANPRESS ch (b 1%nat))
    else if status =? 0xe0
    then Some (PITCHBEND ch (b 1%nat + Z.shiftl (b 2%nat) 7 - 8192))
    else None
  else Some (SYSEX (SysDep.msg m)).

(** The message [SysDep::midi_recv] makes of the event, [None] when it
    reports an error (unknown event type). *)
Definition midi_recv (ev : snd_seq_event) : option SysDep.midimsg_t :=
  match ev with
  | NOTEOFF channel note velocity =>
      Some (SysDep.mkMsg
              [to_uchar (Z.lor 0x80 (Z.land channel 0xf)); to_uchar note;
               to_uchar velocity] false)
  | NOTEON channel note velocity =>
      Some (SysDep.mkMsg
              [to_uchar (Z.lor 0x90 (Z.land channel 0xf)); to_uchar note;
               to_uchar velocity] false)
  | KEYPRESS channel note velocity =>
      Some (SysDep.mkMsg
              [to_uchar (Z.lor 0xa0 (Z.land channel 0xf)); to_uchar note;
               to_uchar velocity] false)
  | CONTROLLER channel param value =>
      Some (SysDep.mkMsg
              [to_uchar (Z.lor 0xb0 (Z.land channel 0xf)); to_uchar param;
               to_uchar value] false)
  | PGMCHANGE channel value =>
      Some (SysDep.mkMsg
              [to_uchar (Z.lor 0xc0 (Z.land channel 0xf)); to_uchar value]
              false)
  | CHANPRESS channel value =>
      Some (SysDep.mkMsg
              [to_uchar (Z.lor 0xd0 (Z.land channel 0xf)); to_uchar value]
              false)
  | PITCHBEND channel value =>
      Some (SysDep.mkMsg
              [to_uchar (Z.lor 0xe0 (Z.land channel 0xf));
               to_uchar (Z.land (value + 8192) 0x7f);
               to_uchar (Z.land (Z.shiftr (value + 8192) 7) 0x7f)] false)
  | SYSEX ext => Some (SysDep.mkMsg ext true)
  | OTHER => None
  end.

End Alsa.

(** ** macOS CoreMIDI (sysdepMacOSX.cpp) *)

Module CoreMidi.

Record midiin_buffer_elm : Type := mkElm {
  timeStamp : Z;
  isShortMsg : bool;
  msg : Z * Z * Z;    (* for short msg *)
  lmsg : list Z       (* for long msg *)
}.

(** The fields of [SysDep::midiin_t] the read procedure works on;
    [sysexData] is [None] for the null pointer. *)
Record midiin_t : Type := mkIn {
  inputBuffer : list midiin_buffer_elm;
  sysexData : option (list Z);
  sysexTimeStamp : Z
}.

Record MIDIPacket : Type := mkPacket {
  packet_timeStamp : Z;
  data : list Z       (* the [length] bytes of the packet *)
}.

(** The block [if( msgComplete )] (lines 254-264): "message from IAC may
    have a far past timestamp"; [now] is the value of
    [AudioGetCurrentHostTime()]. The result is the variable [elm] and the
    device. *)
Definition complete (startHostTime now : Z) (elm : midiin_buffer_elm)
    (mi : midiin_t) : midiin_buffer_elm * midiin_t :=
  let elm :=
    if timeStamp elm <? startHostTime
    then mkElm now (isShortMsg elm) (msg elm) (lmsg elm)
    else elm in
  (elm, mkIn (inputBuffer mi ++ [elm]) (sysexData mi) (sysexTimeStamp mi)).

(** The loop [while( k < packet->length )] of [midiInReadProc] on the
    bytes from position [k] on. [elm] is the local variable of that name,
    which keeps its fields from one message to the next. The result is
    [None] when the procedure reads [packet->data] at or past
    [packet->length], and when the budget is used up; two turns for each
    byte and one more cover the budget. *)
Fixpoint read_bytes (budget : nat) (startHostTime now ts : Z)
    (bytes : list Z) (elm : midiin_buffer_elm) (mi : midiin_t)
    : option (midiin_buffer_elm * midiin_t) :=
  match budget with
  | O => None
  | S budget =>
      match bytes with
      | [] => Some (elm, mi)
      | d :: rest =>
          match sysexData mi with
          | Some sx =>
              if d <? 0x80 then
                (* sysex data byte *)
                read_bytes budget startHostTime now ts rest elm
                  (mkIn (inputBuffer mi) (Some (sx ++ [d]))
                     (sysexTimeStamp mi))
              else if d <? 0xf8 then
                (* end of exclusive; abnormal termination if not 0xf7 *)
                let bytes' := if negb (d =? 0xf7) then bytes else rest in
                let elm1 :=
                  mkElm (sysexTimeStamp mi) false (msg elm)
                    (sx ++ [0xf7]) in
                let mi1 := mkIn (inputBuffer mi) None (sysexTimeStamp mi) in
                let (elm2, mi2) := complete startHostTime now elm1 mi1 in
                read_bytes budget startHostTime now ts bytes' elm2 mi2
              else
                (* ignore real-time messages embedded in a sysex message *)
                read_bytes budget startHostTime now ts rest elm mi
          | None =>
              if d =? 0xf0 then
                (* a new exclusive message *)
                read_bytes budget startHostTime now ts rest elm
                  (mkIn (inputBuffer mi) (Some [d]) ts)
              else if d <? 0xf0 then
                (* short MIDI message *)
                match rest with
                | [] => None
                | d1 :: rest1 =>
                    if negb (Z.land d 0xf0 =? 0xc0)
                       && negb (Z.land d 0xf0 =? 0xd0)
                    then
                      match rest1 with
                      | [] => None
                      | d2 :: rest2 =>
                          let elm1 :=
                            mkElm ts true (d, d1, d2) (lmsg elm) in
                          let (elm2, mi2) :=
                            complete startHostTime now elm1 mi in
                          read_bytes budget startHostTime now ts rest2
                            elm2 mi2
                      end
                    else
                      let elm1 :=
                        mkElm ts true (d, d1, snd (msg elm)) (lmsg elm) in
                      let (elm2, mi2) :=
                        complete startHostTime now elm1 mi in
                      read_bytes budget startHostTime now ts rest1 elm2 mi2
                end
              else
                (* ignore system messages *)
                let rest' :=
                  if d =? 0xf2 then skipn 2 rest
                  else if d =? 0xf3 then skipn 1 rest
                  else rest in
                read_bytes budget startHostTime now ts rest' elm mi
          end
      end
  end.

(** The loop over the packets of the list. *)
Fixpoint read_packets (startHostTime now : Z) (packets : list MIDIPacket)
    (elm : midiin_buffer_elm) (mi : midiin_t)
    : option (midiin_buffer_elm * midiin_t) :=
  match packets with
  | [] => Some (elm, mi)
  | p :: ps =>
      match read_bytes (2 * length (data p) + 1) startHostTime now
              (packet_timeStamp p) (data p) elm mi with
      | Some (elm1, mi1) => read_packets startHostTime now ps elm1 mi1
      | None => None
      end
  end.

(** [midiInReadProc]: [elm0] is what the local variable [elm], which is
    not initialised, holds at the start. *)
Definition midiInReadProc (startHostTime now : Z)
    (packetList : list MIDIPacket) (elm0 : midiin_buffer_elm)
    (mi : midiin_t) : option midiin_t :=
  match read_packets startHostTime now packetList elm0 mi with
  | Some (_, mi') => Some mi'
  | None => None
  end.

(** The message [SysDep::midi_recv] makes of an element of the input
    buffer (lines 351-361). *)
Definition midi_recv_msg (elm : midiin_buffer_elm) : SysDep.midimsg_t :=
  if isShortMsg elm then
    SysDep.mkMsg
      [fst (fst (msg elm)); snd (fst (msg elm)); snd (msg elm)] false
  else SysDep.mkMsg (lmsg elm) true.

End CoreMidi.

(* ================================================================== *)
(** * Notions the properties are stated with *)
(* ================================================================== *)

(** ** What the range erase of the note map amounts to *)

Fixpoint drop_while (hit : NoteMap.key_type -> bool) (m : NoteMap.note_map)
    : NoteMap.note_map :=
  match m with
  | [] => []
  | e :: r => if hit (fst e) then drop_while hit r else m
  end.

(** The list without its first run of entries that match. *)
Fixpoint drop_run (hit : NoteMap.key_type -> bool) (m : NoteMap.note_map)
    : NoteMap.note_map :=
  match m with
  | [] => []
  | e :: r => if hit (fst e) then drop_while hit r else e :: drop_run hit r
  end.

(** The calls [clearAndCall] makes, in the order of the map. *)
Definition call_each {St : Type} (dev trk : Z)
    (func : Z -> Z -> Z -> Z -> Z -> St -> St) (m : NoteMap.note_map)
    (s : St) : St :=
  fold_left
    (fun s e => func dev trk (NoteMap.ch (fst e)) (NoteMap.n (fst e)) (snd e) s)
    (filter (fun e => NoteMap.track_hit dev trk (fst e)) m) s.

Definition positive (m : NoteMap.note_map) : Prop :=
  Forall (fun e => 0 < snd e) m.

(** ** The messages of stop and cancel *)

Definition sustain_off (ch : Z) : SysDep.midimsg_t :=
  SysDep.mkMsg [to_uchar (0xb0 + ch); C_SUSTAIN; 0] false.

Definition note_off (ch n : Z) : SysDep.midimsg_t :=
  SysDep.mkMsg [to_uchar (0x90 + ch); to_uchar n; 0] false.

(** What one entry of the cancel map makes [cancelFunc] send to device
    [dev]: one sustain-off for a pedal entry, [count] note-offs otherwise. *)
Definition cancel_msgs (dev : Z) (e : NoteMap.key_type * Z)
    : list (Z * SysDep.midimsg_t) :=
  if NoteMap.n (fst e) =? -1 then [(dev, sustain_off (NoteMap.ch (fst e)))]
  else repeat (dev, note_off (NoteMap.ch (fst e)) (NoteMap.n (fst e)))
         (Z.to_nat (snd e)).

(** The entries of a note map for a device, in the order of the map. *)
Definition entries_of (dev : Z) (m : NoteMap.note_map) : NoteMap.note_map :=
  filter (fun e => NoteMap.devNum (fst e) =? dev) m.

(** All-Notes-Off, Sustain = 0 and All-Sound-Off on the 16 channels. *)
Definition broadcast (dev : Z) : list (Z * SysDep.midimsg_t) :=
  flat_map
    (fun ch =>
       [(dev, SysDep.mkMsg [to_uchar (0xb0 + ch); C_ALL_NOTES_OFF; 0] false);
        (dev, SysDep.mkMsg [to_uchar (0xb0 + ch); C_SUSTAIN; 0] false);
        (dev, SysDep.mkMsg [to_uchar (0xb0 + ch); C_ALL_SOUND_OFF; 0] false)])
    channels.

(** What [doStopAll] sends: device after device, for each open one, the
    messages of its entries and then the broadcast. *)
Definition stop_trace (handles : list bool) (cm : NoteMap.note_map)
    : list (Z * SysDep.midimsg_t) :=
  flat_map
    (fun i =>
       if nth (Z.to_nat i) handles false
       then flat_map (cancel_msgs i) (entries_of i cm) ++ broadcast i
       else [])
    (map Z.of_nat (seq 0 (length handles))).

(** The state with other note maps and another trace of sent messages. *)
Definition with_notes (rm cm : NoteMap.note_map)
    (tr : list (Z * SysDep.midimsg_t)) (s : mo_state) : mo_state :=
  set_cancelNoteMap cm (set_retriggerNoteMap rm (set_sent tr s)).

(** The state of the outer loop of [doCancelMessages]: kept events below
    [i], cancelled events above [j]. *)
Definition parted (hit : mo_queue_elm -> bool) (q : list mo_queue_elm)
    (i j : Z) : Prop :=
  0 <= i /\ j < Z.of_nat (length q) /\ i <= j + 1 /\
  (forall k, 0 <= k < i -> hit (elm_at q k) = false) /\
  (forall k, j < k < Z.of_nat (length q) -> hit (elm_at q k) = true).

(** A state in which a note is sounding on a device that has been closed:
    device 0 is opened, a note-on for it is sent, and the device is
    closed. *)
Definition closed_device_state : mo_state :=
  closeDevice 0
    (midiOutSendMessage 0 7 (SysDep.mkMsg [0x90; 60; 100] false)
       (snd (openDevice 1 true 0 startup_state))).

(** ** The order of dispatch *)

(** The number of counters drawn from [base] up to the one of [e], modulo
    [2^32]: the position of [e] in the order of enqueueing, as long as the
    events alive were drawn within a window that starts at [base]. *)
Definition age (base : Z) (e : mo_queue_elm) : Z :=
  (count e - base) mod 2 ^ 32.

(** The counters of the events span less than half the counter range. *)
Definition in_window (base : Z) (q : list mo_queue_elm) : Prop :=
  Forall (fun e => age base e < 2 ^ 31) q /\ NoDup (map (age base) q).

(** [a] is due before [b]: at an earlier tick, or at the same tick and
    enqueued earlier. *)
Definition before (base : Z) (a b : mo_queue_elm) : Prop :=
  dltb (time a) (time b) = true \/
  (deqb (time a) (time b) = true /\ age base a < age base b).

Definition timed (q : list mo_queue_elm) : Prop :=
  Forall (fun e => is_nan (time e) = false) q.


(** Device 0 open, a note sounding on track 7, and two events waiting in
    the queue, one of them for track 7. *)
Definition playing_state : mo_state :=
  let s0 := snd (openDevice 1 true 0 startup_state) in
  let s1 := midiOutSendMessage 0 7 (SysDep.mkMsg [0x90; 60; 100] false) s0 in
  let s2 := snd (queueMessage sorting_heap 0 (Fin 1000) 7 [0x80; 60; 0] s1) in
  snd (queueMessage sorting_heap 0 (Fin 500) 3 [0x90; 64; 90] s2).

(** The age the next event to be enqueued will have. *)
Definition next_age (base : Z) (s : mo_state) : Z :=
  (currentCount s - base) mod 2 ^ 32.

(** ** The scheduler at work *)

(** The device table, the requests, the retrigger mode and the counter. *)
Definition control (s : mo_state)
    : list bool * bool * bool * bool * list (Z * Z) * double * bool * Z * Z :=
  (midiOutHandles s, shutdownRequest s, stopRequest s,
   tempoScaleChangeRequest s, cancelRequests s, requestedTempoScale s,
   retriggerNotes s, retriggerNotesChangeReq s, currentCount s).

(** The calls of [SysDep::midi_send] from [s] to [s'] all go to devices
    that are open in [s]. *)
Definition sends_to_open (s s' : mo_state) : Prop :=
  exists tr,
    sent s' = sent s ++ tr /\
    Forall (fun dm => 0 <= fst dm /\ isOpenedDevice (fst dm) s = true) tr.

(** What the loopback device hands to the input relay for a queue
    element. *)
Definition relay_elm (e : mo_queue_elm) : MidiIn.mi_queue_elm :=
  MidiIn.mkIn (devNum e) (time e) (msg e) (tk e).

(** The reads [qtop->msg[0]] and [midiOutHandles[qtop->devNum]] of the
    dispatch loop are inside the vectors for every element of the queue. *)
Definition queue_safe (s : mo_state) : Prop :=
  Forall
    (fun e => msg e <> [] /\ devNum e < Z.of_nat (length (midiOutHandles s)))
    (moEventQueue s).

(** The invariant of the queue: a heap for [greater], of events whose
    counters lie in a window that starts at [base] and were drawn before
    the counter of the state, with ticks that are numbers, and whose reads
    are safe. *)
Definition scheduler_inv (base : Z) (s : mo_state) : Prop :=
  is_heap greater (moEventQueue s) /\
  in_window base (moEventQueue s) /\
  Forall (fun e => age base e < next_age base s) (moEventQueue s) /\
  timed (moEventQueue s) /\
  queue_safe s.

(** ** The input relay *)

(** The values [MidiIn::receiveMessage] hands back for a queue element. *)
Definition received (e : MidiIn.mi_queue_elm) : Z * double * Z * message_t :=
  (MidiIn.devNum e, MidiIn.time e, MidiIn.tk e, MidiIn.msg e).

(** [n] calls of [MidiIn::receiveMessage] one after the other, none of
    which has to wait: the values handed back, and the state left; [None]
    if one of the calls would wait. *)
Fixpoint receive_many (n : nat) (s : MidiInput.mi_state)
    : option (list (Z * double * Z * message_t) * MidiInput.mi_state) :=
  match n with
  | O => Some ([], s)
  | S n =>
      match MidiInput.receive_end (MidiInput.receive_begin s) with
      | Some (v, s1) =>
          match receive_many n s1 with
          | Some (vs, s2) => Some (v :: vs, s2)
          | None => None
          end
      | None => None
      end
  end.

(** ** What a device has been told about a note *)

(** Whether the note [n] of channel [ch] is sounding on device [d] after
    the message [dm] has been sent, [before] telling whether it was
    sounding before: a note-on of the note turns it on; a note-off of the
    note (status 8x, or 9x with velocity 0), an All-Notes-Off and an
    All-Sound-Off of the channel turn it off. *)
Definition tells (dm : Z * SysDep.midimsg_t) (d ch n : Z) (before : bool)
    : bool :=
  let b := byte_at (SysDep.msg (snd dm)) in
  let status := Z.land (b 0%nat) 0xf0 in
  if negb (fst dm =? d) || SysDep.isSysEx (snd dm)
     || negb (Z.land (b 0%nat) 0xf =? ch)
  then before
  else if (status =? 0x90) && negb (b 2%nat =? 0) && (b 1%nat =? n)
  then true
  else if ((status =? 0x80) || (status =? 0x90)) && (b 1%nat =? n)
  then false
  else if (status =? 0xb0)
          && ((b 1%nat =? C_ALL_NOTES_OFF) || (b 1%nat =? C_ALL_SOUND_OFF))
  then false
  else before.

(** Whether the note is sounding after the messages of the trace. *)
Definition sounding (tr : list (Z * SysDep.midimsg_t)) (d ch n : Z) : bool :=
  fold_left (fun acc dm => tells dm d ch n acc) tr false.

(** The retrigger map knows every note that is sounding. *)
Definition retrigger_inv (s : mo_state) : Prop :=
  forall d ch n,
    sounding (sent s) d ch n = true ->
    0 < NoteMap.count_of (NoteMap.mkKey d 0 ch n) (retriggerNoteMap s).

(* ================================================================== *)
(** * Properties *)
(* ================================================================== *)

Lemma Qlt_bool_iff (a b : Q) : Qlt_bool a b = true <-> (a < b)%Q.
Proof.
  unfold Qlt_bool. rewrite negb_true_iff.
  split; intro H.
  - apply Qnot_le_lt. intro L. apply Qle_bool_iff in L. congruence.
  - destruct (Qle_bool b a) eqn:E; [|reflexivity].
    apply Qle_bool_iff in E. exfalso. apply (Qlt_not_le _ _ H E).
Qed.

Lemma Qlt_bool_false_iff (a b : Q) : Qlt_bool a b = false <-> (b <= a)%Q.
Proof.
  unfold Qlt_bool. rewrite negb_false_iff. apply Qle_bool_iff.
Qed.

Lemma Qeq_bool_false_iff (a b : Q) : Qeq_bool a b = false <-> ~ (a == b)%Q.
Proof.
  split; intro H.
  - apply Qeq_bool_neq; assumption.
  - destruct (Qeq_bool a b) eqn:E; [|reflexivity].
    apply Qeq_bool_iff in E. contradiction.
Qed.

(** Turn the boolean comparisons of rationals in the context and the goal
    into propositions. *)
Ltac qprop :=
  repeat match goal with
  | H : Qlt_bool _ _ = true |- _ => apply Qlt_bool_iff in H
  | H : Qlt_bool _ _ = false |- _ => apply Qlt_bool_false_iff in H
  | H : Qeq_bool _ _ = true |- _ => apply Qeq_bool_iff in H
  | H : Qeq_bool _ _ = false |- _ => apply Qeq_bool_false_iff in H
  | |- Qlt_bool _ _ = true => apply Qlt_bool_iff
  | |- Qlt_bool _ _ = false => apply Qlt_bool_false_iff
  | |- Qeq_bool _ _ = true => apply Qeq_bool_iff
  | |- Qeq_bool _ _ = false => apply Qeq_bool_false_iff
  end.

(** Split on every comparison of rationals the goal tests. *)
Ltac dcases :=
  repeat first
    [ progress (unfold signed_inf)
    | progress cbn
    | match goal with
      | |- context [Qlt_bool ?a ?b] => destruct (Qlt_bool a b) eqn:?
      | |- context [Qeq_bool ?a ?b] => destruct (Qeq_bool a b) eqn:?
      end ].

Lemma tempo_positive_nonzero (c s : Q) :
  dgtb (Fin c * Fin s) (Fin 0) = true -> (0 < c * s)%Q.
Proof. cbn. intro H. qprop. exact H. Qed.

Lemma Qmul_pos_cases (c s : Q) :
  (0 < c * s)%Q -> (0 < c /\ 0 < s)%Q \/ (c < 0 /\ s < 0)%Q.
Proof.
  intro H.
  destruct (Qlt_le_dec 0 c) as [Hc|Hc], (Qlt_le_dec 0 s) as [Hs|Hs].
  - left; split; assumption.
  - exfalso. assert (c * s <= 0)%Q by nra. lra.
  - exfalso. assert (c * s <= 0)%Q by nra. lra.
  - right. split.
    + apply Qnot_le_lt. intro. assert (c == 0)%Q by lra.
      assert (c * s == 0)%Q by (rewrite H1; ring). lra.
    + apply Qnot_le_lt. intro. assert (s == 0)%Q by lra.
      assert (c * s == 0)%Q by (rewrite H1; ring). lra.
Qed.

(** C2, for a finite tempo state. For every tempo state whose tempo,
    scale and anchor are finite, with [currentTempo * tempoScale > 0], and
    every finite tick value [t], [msecsToTicks (ticksToMsecs t)] is [t];
    the same holds for the tick value +infinity, which the queue accepts.
    The equality is exact in the arithmetic of the model, which leaves the
    rounding of the machine out. *)
Theorem ticks_roundtrip (c s S T t : Q) :
  let st := mkTempo (Fin c) (Fin s) (Fin S) (Fin T) in
  dgtb (currentTempo st * tempoScale st) (Fin 0) = true ->
  (msecsToTicks st (ticksToMsecs st (Fin t)) == Fin t)%D /\
  msecsToTicks st (ticksToMsecs st PInf) = PInf.
Proof.
  intros st H. apply tempo_positive_nonzero in H.
  assert (Hne : ~ (c * s == 0)%Q) by lra.
  unfold msecsToTicks, ticksToMsecs, st; cbn.
  apply Qeq_bool_false_iff in Hne. rewrite Hne. cbn.
  apply Qeq_bool_false_iff in Hne.
  split.
  - unfold deq; cbn. qprop. field.
    split; intro Hc; apply Hne; rewrite Hc; ring.
  - destruct (Qmul_pos_cases _ _ H) as [[Hc Hs]|[Hc Hs]];
      dcases; try reflexivity; qprop; exfalso; lra.
Qed.

Lemma ticksToMsecs_zero_tempo_cases (c s S T t : Q) :
  (c * s == 0)%Q ->
  ticksToMsecs (mkTempo (Fin c) (Fin s) (Fin S) (Fin T)) (Fin t) =
  if Qlt_bool T t then PInf else if Qlt_bool t T then NInf else NaN.
Proof.
  intro Hz. unfold ticksToMsecs; cbn.
  apply Qeq_bool_iff in Hz. rewrite Hz.
  dcases; try reflexivity; qprop; exfalso; lra.
Qed.

(** C3, at the inputs where the code leaves the claim. The tempo scale is
    set to 0 and applied at 1000 ms, so the product of tempo and scale is 0
    and the anchor is (1000 ms, tick 1000): [ticksToMsecs] gives NaN for
    tick 1000 and -infinity for tick 500, and +infinity only for a tick
    after the anchor. *)
Theorem ticksToMsecs_frozen (H : heap_algorithms) :
  let s := snd (thread_wake H false (Fin 0) (Fin 0) (Fin 1000)
                  (setTempoScale (Fin 0) startup_state)) in
  (currentTempo (tempo_map s) * tempoScale (tempo_map s) == Fin 0)%D /\
  ticksToMsecs (tempo_map s) (Fin 1000) = NaN /\
  ticksToMsecs (tempo_map s) (Fin 500) = NInf /\
  ticksToMsecs (tempo_map s) (Fin 2000) = PInf.
Proof. vm_compute. repeat split. Qed.

Lemma clamp_scale_max (r : Q) : (clamp_scale (Fin r) == Fin (Qmax r 0))%D.
Proof.
  unfold clamp_scale, dltb.
  destruct (Qlt_bool r 0) eqn:E; unfold deq, deqb; qprop.
  - symmetry. apply Q.max_r. lra.
  - symmetry. apply Q.max_l. lra.
Qed.

Lemma clamp_scale_finite (r : Q) :
  clamp_scale (Fin r) = Fin (if Qlt_bool r 0 then 0 else r).
Proof. unfold clamp_scale; cbn. destruct (Qlt_bool r 0); reflexivity. Qed.

Lemma applyTempoScaleChange_continuous (c s S T now r : Q) :
  let st := mkTempo (Fin c) (Fin s) (Fin S) (Fin T) in
  let st' := applyTempoScaleChange (Fin now) (clamp_scale (Fin r)) st in
  (tempoScale st' == Fin (Qmax r 0))%D /\
  currentTempo st' = currentTempo st /\
  lastTempoChangeS st' = Fin now /\
  lastTempoChangeT st' = msecsToTicks st (Fin now) /\
  (msecsToTicks st' (Fin now) == msecsToTicks st (Fin now))%D.
Proof.
  cbn. repeat split.
  - apply clamp_scale_max.
  - rewrite clamp_scale_finite. unfold msecsToTicks, deq; cbn.
    qprop. field.
Qed.

(** * The order of the keys *)

(** Turn boolean tests on integers into propositions. *)
Ltac bprop :=
  repeat rewrite ?Z.geb_leb, ?Z.gtb_ltb in *;
  repeat rewrite ?orb_true_iff, ?andb_true_iff, ?orb_false_iff,
    ?andb_false_iff, ?negb_true_iff, ?negb_false_iff, ?Z.ltb_lt, ?Z.ltb_ge,
    ?Z.eqb_eq, ?Z.eqb_neq, ?Z.leb_le, ?Z.leb_gt in *.

Ltac zbool := bprop; try (intuition lia).

Lemma lessp_irrefl k : NoteMap.lessp k k = false.
Proof. destruct k; unfold NoteMap.lessp; cbn. zbool. Qed.

Lemma lessp_trans k1 k2 k3 :
  NoteMap.lessp k1 k2 = true -> NoteMap.lessp k2 k3 = true ->
  NoteMap.lessp k1 k3 = true.
Proof.
  destruct k1, k2, k3; unfold NoteMap.lessp; cbn. intros. zbool.
Qed.

Lemma equiv_eq k1 k2 : NoteMap.equiv k1 k2 = true <-> k1 = k2.
Proof.
  split.
  - destruct k1, k2; unfold NoteMap.equiv, NoteMap.lessp; cbn. intros.
    bprop. f_equal; intuition lia.
  - intros ->. unfold NoteMap.equiv. rewrite lessp_irrefl. reflexivity.
Qed.

Lemma equiv_refl k : NoteMap.equiv k k = true.
Proof. apply equiv_eq. reflexivity. Qed.

Lemma equiv_of_not_lessp k1 k2 :
  NoteMap.lessp k1 k2 = false -> NoteMap.lessp k2 k1 = false ->
  NoteMap.equiv k2 k1 = true.
Proof. intros H1 H2. unfold NoteMap.equiv. rewrite H1, H2. reflexivity. Qed.

Lemma lessp_not_equiv k1 k2 :
  NoteMap.lessp k1 k2 = true -> NoteMap.equiv k1 k2 = false.
Proof. intros H. unfold NoteMap.equiv. rewrite H. reflexivity. Qed.

(** * The map operations *)

Lemma find_In key m c :
  NoteMap.find key m = Some c -> In (key, c) m.
Proof.
  induction m as [|[k v] r IH]; cbn; [discriminate|].
  destruct (NoteMap.equiv k key) eqn:E.
  - intros [= ->]. apply equiv_eq in E. subst. left. reflexivity.
  - intro. right. auto.
Qed.

Lemma positive_assign key v m :
  0 < v -> positive m -> positive (NoteMap.assign key v m).
Proof.
  intros Hv. induction 1 as [|[k c] r Hc Hr IH]; cbn; [constructor|].
  destruct (NoteMap.equiv k key); constructor; auto.
Qed.

Lemma positive_erase key m : positive m -> positive (NoteMap.erase key m).
Proof.
  induction 1 as [|[k c] r Hc Hr IH]; cbn; [constructor|].
  destruct (NoteMap.equiv k key); [assumption|constructor; auto].
Qed.

Lemma positive_insert key v m :
  0 < v -> positive m -> positive (NoteMap.insert key v m).
Proof.
  intros Hv. induction 1 as [|[k c] r Hc Hr IH]; cbn.
  - repeat constructor. exact Hv.
  - destruct (NoteMap.lessp key k).
    + constructor; [exact Hv|constructor; assumption].
    + destruct (NoteMap.lessp k key); constructor; auto.
Qed.

(** * The range erase *)

Lemma scan_done hit m i iend p1 p2 :
  p1 <> iend -> p2 <> iend -> NoteMap.scan hit m i iend p1 p2 = (p1, p2).
Proof.
  intros H1 H2. revert i.
  induction m as [|[k c] r IH]; intro i; cbn; [reflexivity|].
  apply Nat.eqb_neq in H1, H2. rewrite H1, H2. cbn.
  destruct (hit k); apply IH.
Qed.

Lemma erase_range_run hit iend suf : forall pre p1,
  (p1 < iend)%nat -> (length pre + length suf = iend)%nat ->
  (p1 <= length pre)%nat ->
  (let (a, b) := NoteMap.scan hit suf (length pre) iend p1 iend in
   NoteMap.erase_range a b (pre ++ suf)) =
  firstn p1 pre ++ drop_while hit suf.
Proof.
  induction suf as [|[k c] r IH]; intros pre p1 Hp Hlen Hle; cbn.
  - unfold NoteMap.erase_range. rewrite app_nil_r. cbn in Hlen.
    rewrite skipn_all2 by lia. reflexivity.
  - assert (E1 : Nat.eqb p1 iend = false) by (apply Nat.eqb_neq; lia).
    rewrite E1, Nat.eqb_refl. cbn.
    destruct (hit k) eqn:Hk.
    + specialize (IH (pre ++ [(k, c)]) p1 Hp).
      rewrite length_app in IH. cbn in IH, Hlen.
      replace (length pre + 1)%nat with (S (length pre)) in IH by lia.
      rewrite <- app_assoc in IH. cbn in IH.
      rewrite IH by lia.
      rewrite firstn_app.
      replace (p1 - length pre)%nat with 0%nat by lia.
      cbn. rewrite app_nil_r. reflexivity.
    + cbn in Hlen. rewrite scan_done by lia.
      unfold NoteMap.erase_range.
      rewrite firstn_app.
      replace (p1 - length pre)%nat with 0%nat by lia.
      cbn. rewrite app_nil_r.
      rewrite skipn_app, skipn_all, Nat.sub_diag. reflexivity.
Qed.

Lemma erase_range_scan hit iend suf : forall pre,
  (length pre + length suf = iend)%nat ->
  (let (a, b) := NoteMap.scan hit suf (length pre) iend iend iend in
   NoteMap.erase_range a b (pre ++ suf)) =
  pre ++ drop_run hit suf.
Proof.
  induction suf as [|[k c] r IH]; intros pre Hlen; cbn.
  - unfold NoteMap.erase_range. rewrite app_nil_r. cbn in Hlen.
    rewrite firstn_all2, skipn_all2 by lia. apply app_nil_r.
  - rewrite Nat.eqb_refl. cbn. cbn in Hlen.
    destruct (hit k) eqn:Hk.
    + pose proof (erase_range_run hit iend r (pre ++ [(k, c)]) (length pre))
        as R.
      rewrite length_app in R. cbn in R.
      replace (length pre + 1)%nat with (S (length pre)) in R by lia.
      rewrite <- app_assoc in R. cbn in R.
      rewrite R by lia.
      rewrite firstn_app, Nat.sub_diag, firstn_all. cbn.
      rewrite app_nil_r. reflexivity.
    + specialize (IH (pre ++ [(k, c)])).
      rewrite length_app in IH. cbn in IH.
      replace (length pre + 1)%nat with (S (length pre)) in IH by lia.
      rewrite <- app_assoc in IH. cbn in IH.
      rewrite IH by lia. rewrite <- app_assoc. reflexivity.
Qed.

Lemma clear_drop_run d t c m :
  NoteMap.clear d t c m = drop_run (NoteMap.prefix_hit d t c) m.
Proof.
  unfold NoteMap.clear.
  exact (erase_range_scan (NoteMap.prefix_hit d t c) (length m) m [] eq_refl).
Qed.

Lemma scan_call_scan {St : Type} d t
    (func : Z -> Z -> Z -> Z -> Z -> St -> St) m : forall i iend p1 p2 s,
  NoteMap.scan_call d t func m i iend p1 p2 s =
  (NoteMap.scan (NoteMap.track_hit d t) m i iend p1 p2,
   call_each d t func m s).
Proof.
  unfold call_each.
  induction m as [|[k c] r IH]; intros i iend p1 p2 s; cbn; [reflexivity|].
  destruct (NoteMap.track_hit d t k); cbn; apply IH.
Qed.

Lemma clearAndCall_drop_run {St : Type} d t
    (func : Z -> Z -> Z -> Z -> Z -> St -> St) m s :
  NoteMap.clearAndCall d t func m s =
  (drop_run (NoteMap.track_hit d t) m, call_each d t func m s).
Proof.
  unfold NoteMap.clearAndCall. rewrite scan_call_scan.
  pose proof (erase_range_scan (NoteMap.track_hit d t) (length m) m []
                eq_refl) as R.
  cbn in R.
  destruct (NoteMap.scan (NoteMap.track_hit d t) m 0 (length m) (length m)
              (length m)) as [a b].
  rewrite R. reflexivity.
Qed.

Lemma positive_drop_while hit m : positive m -> positive (drop_while hit m).
Proof.
  induction 1 as [|e r He Hr IH]; cbn; [constructor|].
  destruct (hit (fst e)); [assumption|constructor; assumption].
Qed.

Lemma positive_drop_run hit m : positive m -> positive (drop_run hit m).
Proof.
  induction 1 as [|e r He Hr IH]; cbn; [constructor|].
  destruct (hit (fst e)).
  - apply positive_drop_while; assumption.
  - constructor; assumption.
Qed.

(** * Counts stay positive *)

Lemma In_insert e key v m :
  In e (NoteMap.insert key v m) -> e = (key, v) \/ In e m.
Proof.
  induction m as [|[k c] r IH]; cbn.
  - intros [<-|[]]. left. reflexivity.
  - destruct (NoteMap.lessp key k).
    + intros [<-|Hin]; [left; reflexivity|right; exact Hin].
    + destruct (NoteMap.lessp k key).
      * intros [<-|Hin]; [right; left; reflexivity|].
        destruct (IH Hin) as [->|H']; [left; reflexivity|right; right; exact H'].
      * intro Hin. right. exact Hin.
Qed.

Lemma positive_assign_insert key v m :
  0 < v -> positive m ->
  positive (NoteMap.assign key v (NoteMap.insert key 0 m)).
Proof.
  intros Hv. induction 1 as [|[k c] r Hc Hr IH]; cbn.
  - rewrite equiv_refl. repeat constructor. exact Hv.
  - destruct (NoteMap.lessp key k) eqn:L1.
    + cbn. rewrite equiv_refl. repeat constructor; assumption.
    + destruct (NoteMap.lessp k key) eqn:L2; cbn.
      * rewrite (lessp_not_equiv _ _ L2). constructor; assumption.
      * rewrite (equiv_of_not_lessp _ _ L1 L2). constructor; assumption.
Qed.

(** The increment and the decrement away from the ends of the range. *)
Lemma int_incr_below c : c < INT_MAX -> int_incr c = c + 1.
Proof.
  intro H. unfold int_incr. destruct (Z.eqb_spec c INT_MAX); [lia|reflexivity].
Qed.

Lemma int_decr_above c : INT_MIN < c -> int_decr c = c - 1.
Proof.
  intro H. unfold int_decr. destruct (Z.eqb_spec c INT_MIN); [lia|reflexivity].
Qed.

Lemma int_decr_positive c : 0 < c -> int_decr c = c - 1.
Proof. intro H. apply int_decr_above. unfold INT_MIN. lia. Qed.

(** On the values of an [int] they are the increment and the decrement
    modulo [2 ^ 32]. *)
Lemma int_incr_wrap32 c :
  INT_MIN <= c <= INT_MAX -> int_incr c = wrap32 (c + 1).
Proof.
  unfold int_incr, wrap32, INT_MIN, INT_MAX. intro H.
  destruct (Z.eqb_spec c 2147483647) as [->|N]; [reflexivity|].
  change (2 ^ 31) with 2147483648. change (2 ^ 32) with 4294967296.
  rewrite Z.mod_small; lia.
Qed.

Lemma int_decr_wrap32 c :
  INT_MIN <= c <= INT_MAX -> int_decr c = wrap32 (c - 1).
Proof.
  unfold int_decr, wrap32, INT_MIN, INT_MAX. intro H.
  destruct (Z.eqb_spec c (-2147483648)) as [->|N]; [reflexivity|].
  change (2 ^ 31) with 2147483648. change (2 ^ 32) with 4294967296.
  rewrite Z.mod_small; lia.
Qed.

Lemma positive_pop d t c k m :
  positive m -> positive (snd (NoteMap.pop d t c k m)).
Proof.
  intro Hm. unfold NoteMap.pop.
  destruct (NoteMap.find _ m) as [old|] eqn:F; cbn; [|exact Hm].
  destruct (Z.eqb_spec (int_decr old) 0) as [E|N].
  - apply positive_erase. exact Hm.
  - apply positive_assign; [|exact Hm].
    apply find_In in F. unfold positive in Hm. rewrite Forall_forall in Hm.
    specialize (Hm _ F). cbn in Hm.
    rewrite int_decr_positive in N |- * by exact Hm. lia.
Qed.

(** * The order of the map is kept *)

Lemma ordered_cons_inv e m :
  NoteMap.ordered (e :: m) ->
  NoteMap.ordered m /\
  Forall (fun b => NoteMap.lessp (fst e) (fst b) = true) m.
Proof. apply StronglySorted_inv. Qed.

Lemma Forall_lessp_trans k1 k2 (m : NoteMap.note_map) :
  NoteMap.lessp k1 k2 = true ->
  Forall (fun b => NoteMap.lessp k2 (fst b) = true) m ->
  Forall (fun b => NoteMap.lessp k1 (fst b) = true) m.
Proof.
  intros L. apply Forall_impl. intros b Hb. exact (lessp_trans _ _ _ L Hb).
Qed.

Lemma Forall_insert (P : NoteMap.key_type * Z -> Prop) key v m :
  P (key, v) -> Forall P m -> Forall P (NoteMap.insert key v m).
Proof.
  intros Hk Hm. apply Forall_forall. intros e Hin.
  apply In_insert in Hin. destruct Hin as [->|Hin]; [exact Hk|].
  rewrite Forall_forall in Hm. auto.
Qed.

Lemma lessp_total k1 k2 :
  NoteMap.lessp k1 k2 = false -> NoteMap.lessp k2 k1 = false -> k1 = k2.
Proof.
  intros H1 H2. symmetry. apply equiv_eq. apply equiv_of_not_lessp; assumption.
Qed.

Lemma ordered_insert key v m :
  NoteMap.ordered m -> NoteMap.ordered (NoteMap.insert key v m).
Proof.
  induction m as [|[k c] r IH]; intro Ho; cbn.
  - repeat constructor.
  - apply ordered_cons_inv in Ho. destruct Ho as [Hr Hall]. cbn in Hall.
    destruct (NoteMap.lessp key k) eqn:L1.
    + constructor.
      * constructor; assumption.
      * constructor; [exact L1|].
        exact (Forall_lessp_trans _ _ _ L1 Hall).
    + destruct (NoteMap.lessp k key) eqn:L2.
      * constructor; [apply IH; exact Hr|].
        apply Forall_insert; assumption.
      * constructor; assumption.
Qed.

Lemma keys_assign key v m :
  map fst (NoteMap.assign key v m) = map fst m.
Proof.
  induction m as [|[k c] r IH]; cbn; [reflexivity|].
  destruct (NoteMap.equiv k key); cbn; [reflexivity|]. rewrite IH. reflexivity.
Qed.

Lemma ordered_keys m : forall m',
  map fst m = map fst m' -> NoteMap.ordered m -> NoteMap.ordered m'.
Proof.
  induction m as [|e r IH]; intros [|e' r'] E Ho; try discriminate.
  - constructor.
  - cbn in E. injection E as E1 E2.
    apply ordered_cons_inv in Ho. destruct Ho as [Hr Hall].
    constructor; [apply IH; assumption|].
    rewrite <- E1.
    rewrite Forall_forall in *. intros b Hb.
    assert (Hk : In (fst b) (map fst r)).
    { rewrite E2. apply in_map. exact Hb. }
    apply in_map_iff in Hk. destruct Hk as [b' [Eb Hb']].
    rewrite <- Eb. apply Hall. exact Hb'.
Qed.

Lemma ordered_assign key v m :
  NoteMap.ordered m -> NoteMap.ordered (NoteMap.assign key v m).
Proof. apply ordered_keys. symmetry. apply keys_assign. Qed.

Lemma In_erase e key m : In e (NoteMap.erase key m) -> In e m.
Proof.
  induction m as [|[k c] r IH]; cbn; [tauto|].
  destruct (NoteMap.equiv k key); cbn; tauto.
Qed.

Lemma ordered_erase key m :
  NoteMap.ordered m -> NoteMap.ordered (NoteMap.erase key m).
Proof.
  induction m as [|[k c] r IH]; intro Ho; cbn; [constructor|].
  apply ordered_cons_inv in Ho. destruct Ho as [Hr Hall].
  destruct (NoteMap.equiv k key); [exact Hr|].
  constructor; [apply IH; exact Hr|].
  rewrite Forall_forall in *. intros b Hb. apply Hall.
  exact (In_erase _ _ _ Hb).
Qed.

Lemma In_drop_while hit e m : In e (drop_while hit m) -> In e m.
Proof.
  induction m as [|x r IH]; cbn; [tauto|].
  destruct (hit (fst x)); cbn; tauto.
Qed.

Lemma In_drop_run hit e m : In e (drop_run hit m) -> In e m.
Proof.
  induction m as [|x r IH]; cbn; [tauto|].
  destruct (hit (fst x)); cbn.
  - intro H. right. exact (In_drop_while _ _ _ H).
  - tauto.
Qed.

Lemma ordered_drop_while hit m :
  NoteMap.ordered m -> NoteMap.ordered (drop_while hit m).
Proof.
  induction m as [|x r IH]; intro Ho; cbn; [constructor|].
  destruct (hit (fst x)); [|exact Ho].
  apply IH. apply ordered_cons_inv in Ho. tauto.
Qed.

Lemma ordered_drop_run hit m :
  NoteMap.ordered m -> NoteMap.ordered (drop_run hit m).
Proof.
  induction m as [|x r IH]; intro Ho; cbn; [constructor|].
  apply ordered_cons_inv in Ho. destruct Ho as [Hr Hall].
  destruct (hit (fst x)).
  - apply ordered_drop_while. exact Hr.
  - constructor; [apply IH; exact Hr|].
    rewrite Forall_forall in *. intros b Hb. apply Hall.
    exact (In_drop_run _ _ _ Hb).
Qed.

Lemma reachable_ordered m : NoteMap.reachable m -> NoteMap.ordered m.
Proof.
  induction 1.
  - constructor.
  - unfold NoteMap.push; cbn. apply ordered_assign, ordered_insert; assumption.
  - unfold NoteMap.pop. destruct (NoteMap.find _ m); cbn; [|assumption].
    destruct (_ =? 0); [apply ordered_erase|apply ordered_assign]; assumption.
  - apply ordered_insert; assumption.
  - constructor.
  - rewrite clear_drop_run. apply ordered_drop_run; assumption.
  - rewrite clearAndCall_drop_run. cbn. apply ordered_drop_run; assumption.
Qed.

(** * What [push] and [pop] return *)

Lemma find_above key m :
  Forall (fun b => NoteMap.lessp key (fst b) = true) m ->
  NoteMap.find key m = None.
Proof.
  induction 1 as [|[k c] r Hk Hr IH]; cbn [NoteMap.find]; [reflexivity|].
  cbn [fst] in Hk. unfold NoteMap.equiv. rewrite Hk, andb_false_r. exact IH.
Qed.

(** In a map in order [push] returns the count the map held for the key,
    0 for a key that was not there. *)
Lemma push_returns_count d t c k m :
  NoteMap.ordered m ->
  fst (NoteMap.push d t c k m) = NoteMap.count_of (NoteMap.mkKey d t c k) m.
Proof.
  unfold NoteMap.push, NoteMap.count_of. cbn [fst].
  set (key := NoteMap.mkKey d t c k).
  induction m as [|[k0 c0] r IH]; intro Ho.
  - cbn [NoteMap.insert NoteMap.find]. rewrite equiv_refl. reflexivity.
  - apply ordered_cons_inv in Ho. destruct Ho as [Hr Hall]. cbn [fst] in Hall.
    cbn [NoteMap.insert NoteMap.find].
    destruct (NoteMap.lessp key k0) eqn:L1.
    + cbn [NoteMap.find]. rewrite equiv_refl.
      unfold NoteMap.equiv at 1. rewrite L1, andb_false_r.
      rewrite find_above; [reflexivity|].
      exact (Forall_lessp_trans _ _ _ L1 Hall).
    + destruct (NoteMap.lessp k0 key) eqn:L2.
      * cbn [NoteMap.find]. rewrite (lessp_not_equiv _ _ L2). apply IH, Hr.
      * cbn [NoteMap.find]. rewrite (equiv_of_not_lessp _ _ L1 L2).
        reflexivity.
Qed.

(** [pop] returns the count the key is left with, 0 for a key that was not
    there. *)
Lemma pop_returns_count d t c k m :
  fst (NoteMap.pop d t c k m) =
  match NoteMap.find (NoteMap.mkKey d t c k) m with
  | Some v => int_decr v
  | None => 0
  end.
Proof. unfold NoteMap.pop. destruct (NoteMap.find _ m); reflexivity. Qed.

(** * Counts stay positive while they stay in range *)

Lemma count_of_nonneg key m : positive m -> 0 <= NoteMap.count_of key m.
Proof.
  intro Hm. unfold NoteMap.count_of.
  destruct (NoteMap.find key m) as [v|] eqn:F; [|lia].
  apply find_In in F. unfold positive in Hm. rewrite Forall_forall in Hm.
  specialize (Hm _ F). cbn in Hm. lia.
Qed.

Lemma positive_push d t c k m :
  NoteMap.ordered m -> positive m ->
  NoteMap.count_of (NoteMap.mkKey d t c k) m < INT_MAX ->
  positive (snd (NoteMap.push d t c k m)).
Proof.
  intros Ho Hm Hlt.
  pose proof (push_returns_count d t c k m Ho) as R.
  pose proof (count_of_nonneg (NoteMap.mkKey d t c k) m Hm) as H0.
  unfold NoteMap.push in *; cbn [fst snd] in *.
  apply positive_assign_insert; [|exact Hm].
  rewrite R, int_incr_below by exact Hlt. lia.
Qed.

Lemma reachable_in_range_reachable m :
  NoteMap.reachable_in_range m -> NoteMap.reachable m.
Proof. induction 1; constructor; assumption. Qed.

Lemma reachable_in_range_positive m :
  NoteMap.reachable_in_range m -> positive m.
Proof.
  induction 1.
  - constructor.
  - apply positive_push; try assumption.
    apply reachable_ordered, reachable_in_range_reachable. assumption.
  - apply positive_pop; assumption.
  - apply positive_insert; [lia|assumption].
  - constructor.
  - rewrite clear_drop_run. apply positive_drop_run; assumption.
  - rewrite clearAndCall_drop_run. cbn. apply positive_drop_run; assumption.
Qed.

(** A pile of one key: [push] on a map that holds this key alone. *)
Lemma push_single d t c k v :
  NoteMap.push d t c k [(NoteMap.mkKey d t c k, v)] =
  (v, [(NoteMap.mkKey d t c k, int_incr v)]).
Proof.
  unfold NoteMap.push. cbn [NoteMap.insert].
  rewrite lessp_irrefl. cbn [NoteMap.find NoteMap.assign].
  rewrite equiv_refl. reflexivity.
Qed.

(** Every pile up to [INT_MAX] is reached by pushing the key again and
    again. *)
Lemma reachable_pile d t c k v :
  0 < v <= INT_MAX -> NoteMap.reachable [(NoteMap.mkKey d t c k, v)].
Proof.
  intros [Hpos Hmax].
  assert (G : forall x, 0 <= x -> x < INT_MAX ->
                        NoteMap.reachable [(NoteMap.mkKey d t c k, x + 1)]).
  { apply (natlike_ind
             (fun x => x < INT_MAX ->
                       NoteMap.reachable [(NoteMap.mkKey d t c k, x + 1)])).
    - intros _.
      replace [(NoteMap.mkKey d t c k, 0 + 1)]
        with (snd (NoteMap.push d t c k [])).
      + apply NoteMap.reach_push, NoteMap.reach_empty.
      + unfold NoteMap.push. cbn [NoteMap.insert NoteMap.find NoteMap.assign].
        rewrite !equiv_refl. reflexivity.
    - intros x Hx IH Hlt.
      replace [(NoteMap.mkKey d t c k, Z.succ x + 1)]
        with (snd (NoteMap.push d t c k [(NoteMap.mkKey d t c k, x + 1)])).
      + apply NoteMap.reach_push, IH. lia.
      + rewrite push_single. cbn [snd].
        rewrite int_incr_below by lia. repeat f_equal; try lia. }
  replace v with (v - 1 + 1) by lia. apply G; lia.
Qed.

(** C6, for the states reached while no count overflows. In every state of
    a note map that [push], [pop], [set] with count 1, [clear()],
    [clear(devNum, tk, ch)] and [clearAndCall] lead to from the empty map,
    with no key pushed while its count is [INT_MAX], every count held is at
    least 0, a key is in the map exactly when its count is above 0, and
    [pop] of a key that is not in the map returns 0 and leaves the map as it
    is. *)
Theorem notemap_counts_invariant (m : NoteMap.note_map) :
  NoteMap.reachable_in_range m ->
  (forall key c, In (key, c) m -> 0 <= c) /\
  (forall key, NoteMap.present key m <-> 0 < NoteMap.count_of key m) /\
  (forall d t c k, ~ NoteMap.present (NoteMap.mkKey d t c k) m ->
                   NoteMap.pop d t c k m = (0, m)).
Proof.
  intro R. apply reachable_in_range_positive in R.
  unfold positive in R. rewrite Forall_forall in R.
  split; [|split].
  - intros key c Hin. specialize (R _ Hin). cbn in R. lia.
  - intro key. unfold NoteMap.present, NoteMap.count_of.
    destruct (NoteMap.find key m) as [c|] eqn:F.
    + split; [|discriminate]. intros _.
      apply find_In in F. exact (R _ F).
    + split; [congruence|lia].
  - intros d t c k Habs. unfold NoteMap.present in Habs.
    unfold NoteMap.pop.
    destruct (NoteMap.find _ m); [exfalso; apply Habs; discriminate|].
    reflexivity.
Qed.

Lemma notemap_counts_invariant_witness :
  let m := snd (NoteMap.pop 0 7 3 60
                  (snd (NoteMap.push 0 7 3 60
                          (snd (NoteMap.push 0 7 3 60 []))))) in
  m = [(NoteMap.mkKey 0 7 3 60, 1)] /\
  ((forall key c, In (key, c) m -> 0 <= c) /\
   (forall key, NoteMap.present key m <-> 0 < NoteMap.count_of key m) /\
   (forall d t c k, ~ NoteMap.present (NoteMap.mkKey d t c k) m ->
                    NoteMap.pop d t c k m = (0, m))).
Proof.
  split; [reflexivity|].
  apply notemap_counts_invariant.
  apply NoteMap.range_pop.
  apply NoteMap.range_push; [|reflexivity].
  apply NoteMap.range_push; [|reflexivity].
  apply NoteMap.range_empty.
Defined.

(** C6 as the specification has it, for every state the operations lead
    to, fails at the end of the range of [int]: the map that holds one key
    piled [INT_MAX] times is reached by pushing that key [INT_MAX] times,
    and one more [push] leaves the key in the map with the count
    [INT_MIN], which is below 0. *)
Lemma notemap_count_overflow :
  let key := NoteMap.mkKey 0 0 0 60 in
  let m := snd (NoteMap.push 0 0 0 60 [(key, 2147483647)]) in
  NoteMap.reachable [(key, 2147483647)] /\
  NoteMap.reachable m /\
  m = [(key, -2147483648)] /\
  In (key, -2147483648) m /\
  NoteMap.present key m /\
  NoteMap.count_of key m = -2147483648.
Proof.
  assert (R : NoteMap.reachable [(NoteMap.mkKey 0 0 0 60, 2147483647)]).
  { apply reachable_pile. unfold INT_MAX. lia. }
  split; [exact R|]. split; [apply NoteMap.reach_push; exact R|].
  split; [reflexivity|]. split; [left; reflexivity|].
  split; [discriminate|reflexivity].
Qed.

(** * Entries that match lie side by side *)

Section Contiguous.

Variables hit above : NoteMap.key_type -> bool.
Hypothesis hit_not_above : forall k, hit k = true -> above k = false.
Hypothesis above_up : forall k1 k2,
  NoteMap.lessp k1 k2 = true -> above k1 = true -> above k2 = true.
Hypothesis hit_up : forall k1 k2,
  NoteMap.lessp k1 k2 = true -> hit k1 = true ->
  hit k2 = true \/ above k2 = true.

Lemma filter_all_above (m : NoteMap.note_map) :
  Forall (fun e => above (fst e) = true) m ->
  filter (fun e => negb (hit (fst e))) m = m.
Proof.
  induction 1 as [|e r He Hr IH]; cbn; [reflexivity|].
  destruct (hit (fst e)) eqn:Hh.
  - apply hit_not_above in Hh. congruence.
  - cbn. rewrite IH. reflexivity.
Qed.

Lemma drop_while_filter (m : NoteMap.note_map) :
  NoteMap.ordered m ->
  Forall (fun e => hit (fst e) = true \/ above (fst e) = true) m ->
  drop_while hit m = filter (fun e => negb (hit (fst e))) m.
Proof.
  induction m as [|e r IH]; intros Ho Hall; cbn; [reflexivity|].
  apply ordered_cons_inv in Ho. destruct Ho as [Hr Hlt].
  inversion Hall as [|? ? He Hrest]; subst.
  destruct (hit (fst e)) eqn:Hh; cbn.
  - apply IH; assumption.
  - destruct He as [He|He]; [congruence|].
    rewrite filter_all_above; [reflexivity|].
    revert Hlt. apply Forall_impl. intros b Hb.
    exact (above_up _ _ Hb He).
Qed.

Lemma drop_run_filter (m : NoteMap.note_map) :
  NoteMap.ordered m ->
  drop_run hit m = filter (fun e => negb (hit (fst e))) m.
Proof.
  induction m as [|e r IH]; intros Ho; cbn; [reflexivity|].
  apply ordered_cons_inv in Ho. destruct Ho as [Hr Hlt].
  destruct (hit (fst e)) eqn:Hh; cbn.
  - apply drop_while_filter; [exact Hr|].
    revert Hlt. apply Forall_impl. intros b Hb.
    exact (hit_up _ _ Hb Hh).
  - rewrite IH by exact Hr. reflexivity.
Qed.

End Contiguous.

(** * Stop *)

Lemma with_notes_id s :
  with_notes (retriggerNoteMap s) (cancelNoteMap s) (sent s) s = s.
Proof. destruct s; reflexivity. Qed.

Lemma with_notes_twice rm cm tr rm' cm' tr' s :
  with_notes rm cm tr (with_notes rm' cm' tr' s) = with_notes rm cm tr s.
Proof. reflexivity. Qed.

Lemma midi_send_with_notes d m s :
  midi_send d m s =
  with_notes (retriggerNoteMap s) (cancelNoteMap s) (sent s ++ [(d, m)]) s.
Proof. destruct s; reflexivity. Qed.

(** [cancelFunc] sends the messages of the entry and touches nothing but
    the trace and the retrigger map. *)
Lemma cancelFunc_sends d t ch n c s :
  exists rm,
    cancelFunc d t ch n c s =
    with_notes rm (cancelNoteMap s)
      (sent s ++ cancel_msgs d (NoteMap.mkKey d t ch n, c)) s.
Proof.
  unfold cancelFunc, cancel_msgs.
  change (NoteMap.n (fst (NoteMap.mkKey d t ch n, c))) with n.
  change (NoteMap.ch (fst (NoteMap.mkKey d t ch n, c))) with ch.
  change (snd (NoteMap.mkKey d t ch n, c)) with c.
  destruct (n =? -1).
  - exists (retriggerNoteMap s). apply midi_send_with_notes.
  - fold (note_off ch n).
    induction (Z.to_nat c) as [|k [rm IH]].
    + exists (retriggerNoteMap s). simpl repeat. rewrite app_nil_r.
      symmetry. apply with_notes_id.
    + rewrite Nat.iter_succ, IH.
      simpl repeat. rewrite repeat_cons, app_assoc.
      destruct (retriggerNotes _);
        [exists (snd (NoteMap.pop d 0 ch n rm))|exists rm]; reflexivity.
Qed.

Lemma fold_cancelFunc_sends d t (l : NoteMap.note_map) : forall s,
  exists rm,
    fold_left
      (fun s e =>
         cancelFunc d t (NoteMap.ch (fst e)) (NoteMap.n (fst e)) (snd e) s)
      l s =
    with_notes rm (cancelNoteMap s) (sent s ++ flat_map (cancel_msgs d) l) s.
Proof.
  induction l as [|[k c] r IH]; intro s.
  - exists (retriggerNoteMap s). cbn [fold_left flat_map].
    rewrite app_nil_r. symmetry. apply with_notes_id.
  - cbn [fold_left flat_map fst snd].
    destruct (cancelFunc_sends d t (NoteMap.ch k) (NoteMap.n k) c s)
      as [rm1 E1].
    rewrite E1.
    destruct (IH (with_notes rm1 (cancelNoteMap s)
                    (sent s ++
                     cancel_msgs d
                       (NoteMap.mkKey d t (NoteMap.ch k) (NoteMap.n k), c)) s))
      as [rm2 E2].
    rewrite E2. exists rm2.
    change (cancel_msgs d (NoteMap.mkKey d t (NoteMap.ch k) (NoteMap.n k), c))
      with (cancel_msgs d (k, c)).
    unfold with_notes; cbn [sent set_sent set_cancelNoteMap
      set_retriggerNoteMap cancelNoteMap].
    rewrite <- app_assoc. reflexivity.
Qed.

Lemma cancelNotes_sends d t s :
  exists rm,
    cancelNotes d t s =
    with_notes rm (drop_run (NoteMap.track_hit d t) (cancelNoteMap s))
      (sent s ++
       flat_map (cancel_msgs d)
         (filter (fun e => NoteMap.track_hit d t (fst e)) (cancelNoteMap s)))
      s.
Proof.
  unfold cancelNotes. rewrite clearAndCall_drop_run. unfold call_each.
  destruct (fold_cancelFunc_sends d t
              (filter (fun e => NoteMap.track_hit d t (fst e))
                 (cancelNoteMap s)) s) as [rm E].
  rewrite E. exists rm. reflexivity.
Qed.

Lemma fold_all_off i (chs : list Z) : forall s,
  fold_left (fun s ch => all_off i ch s) chs s =
  with_notes (retriggerNoteMap s) (cancelNoteMap s)
    (sent s ++
     flat_map
       (fun ch =>
          [(i, SysDep.mkMsg [to_uchar (0xb0 + ch); C_ALL_NOTES_OFF; 0] false);
           (i, SysDep.mkMsg [to_uchar (0xb0 + ch); C_SUSTAIN; 0] false);
           (i, SysDep.mkMsg [to_uchar (0xb0 + ch); C_ALL_SOUND_OFF; 0] false)])
       chs) s.
Proof.
  induction chs as [|ch r IH]; intro s.
  - cbn [fold_left flat_map]. rewrite app_nil_r. symmetry.
    apply with_notes_id.
  - cbn [fold_left flat_map]. rewrite IH.
    unfold all_off, midi_send, with_notes;
      cbn [sent set_sent set_cancelNoteMap set_retriggerNoteMap
           cancelNoteMap retriggerNoteMap].
    repeat rewrite <- app_assoc. reflexivity.
Qed.

Lemma track_hit_all i k :
  NoteMap.track_hit i ALL_TRACKS k = (NoteMap.devNum k =? i).
Proof. unfold NoteMap.track_hit. cbn. apply andb_true_r. Qed.

Lemma filter_track_hit_all i m :
  filter (fun e => NoteMap.track_hit i ALL_TRACKS (fst e)) m = entries_of i m.
Proof.
  unfold entries_of. apply filter_ext. intro e. apply track_hit_all.
Qed.

Lemma stopDevice_sends s i :
  exists rm cm,
    stopDevice s i =
    with_notes rm cm
      (sent s ++
       (if handle_open i s
        then flat_map (cancel_msgs i) (entries_of i (cancelNoteMap s))
             ++ broadcast i
        else [])) s /\
    cm = (if handle_open i s
          then drop_run (NoteMap.track_hit i ALL_TRACKS) (cancelNoteMap s)
          else cancelNoteMap s).
Proof.
  unfold stopDevice. destruct (handle_open i s).
  - destruct (cancelNotes_sends i ALL_TRACKS s) as [rm E]. rewrite E.
    rewrite fold_all_off. rewrite filter_track_hit_all.
    eexists. eexists. split; [|reflexivity].
    unfold with_notes, broadcast;
      cbn [sent set_sent set_cancelNoteMap set_retriggerNoteMap
           cancelNoteMap retriggerNoteMap].
    rewrite <- app_assoc. reflexivity.
  - exists (retriggerNoteMap s), (cancelNoteMap s).
    rewrite app_nil_r. split; [symmetry; apply with_notes_id|reflexivity].
Qed.

(** The range erase only takes entries that match away. *)
Lemma filter_drop_while (hit p : NoteMap.key_type -> bool) m :
  (forall k, hit k = true -> p k = false) ->
  filter (fun e => p (fst e)) (drop_while hit m) =
  filter (fun e => p (fst e)) m.
Proof.
  intro Hd. induction m as [|e r IH]; [reflexivity|].
  cbn [drop_while]. destruct (hit (fst e)) eqn:Hh; [|reflexivity].
  cbn [filter]. rewrite (Hd _ Hh). exact IH.
Qed.

Lemma filter_drop_run (hit p : NoteMap.key_type -> bool) m :
  (forall k, hit k = true -> p k = false) ->
  filter (fun e => p (fst e)) (drop_run hit m) =
  filter (fun e => p (fst e)) m.
Proof.
  intro Hd. induction m as [|e r IH]; [reflexivity|].
  cbn [drop_run]. destruct (hit (fst e)) eqn:Hh.
  - cbn [filter]. rewrite (Hd _ Hh). apply filter_drop_while. exact Hd.
  - cbn [filter]. rewrite IH. reflexivity.
Qed.

Lemma entries_of_drop_run i j t m :
  i <> j ->
  entries_of j (drop_run (NoteMap.track_hit i t) m) = entries_of j m.
Proof.
  intro Hij. unfold entries_of.
  apply (filter_drop_run (NoteMap.track_hit i t)
           (fun k => NoteMap.devNum k =? j)).
  intros k Hk. unfold NoteMap.track_hit in Hk. bprop. intuition lia.
Qed.

Lemma with_notes_ext rm cm tr tr' rm1 cm1 tr1 s :
  tr = tr' ->
  with_notes rm cm tr (with_notes rm1 cm1 tr1 s) = with_notes rm cm tr' s.
Proof. intros ->. reflexivity. Qed.

Lemma sent_with_notes rm cm tr s : sent (with_notes rm cm tr s) = tr.
Proof. reflexivity. Qed.

Lemma cancelNoteMap_with_notes rm cm tr s :
  cancelNoteMap (with_notes rm cm tr s) = cm.
Proof. reflexivity. Qed.

Lemma retriggerNoteMap_with_notes rm cm tr s :
  retriggerNoteMap (with_notes rm cm tr s) = rm.
Proof. reflexivity. Qed.

Lemma handle_open_with_notes rm cm tr i s :
  handle_open i (with_notes rm cm tr s) = handle_open i s.
Proof. reflexivity. Qed.

Lemma flat_map_ext_in {A B : Type} (f g : A -> list B) (l : list A) :
  (forall a, In a l -> f a = g a) -> flat_map f l = flat_map g l.
Proof.
  induction l as [|a r IH]; intro E; [reflexivity|].
  cbn [flat_map]. rewrite (E a) by (left; reflexivity).
  rewrite IH; [reflexivity|]. intros b Hb. apply E. right. exact Hb.
Qed.

Lemma fold_stopDevice_sends (ds : list Z) : NoDup ds -> forall s,
  exists rm cm,
    fold_left stopDevice ds s =
    with_notes rm cm
      (sent s ++
       flat_map
         (fun i =>
            if handle_open i s
            then flat_map (cancel_msgs i) (entries_of i (cancelNoteMap s))
                 ++ broadcast i
            else []) ds) s /\
    (forall j, ~ In j ds -> entries_of j cm = entries_of j (cancelNoteMap s)).
Proof.
  induction 1 as [|i r Hi Hr IH]; intro s.
  - exists (retriggerNoteMap s), (cancelNoteMap s).
    cbn [fold_left flat_map]. rewrite app_nil_r.
    split; [symmetry; apply with_notes_id|reflexivity].
  - cbn [fold_left flat_map].
    destruct (stopDevice_sends s i) as [rm1 [cm1 [E1 Ecm1]]].
    rewrite E1.
    match goal with
    | |- context [fold_left stopDevice r ?s1] =>
        destruct (IH s1) as [rm2 [cm2 [E2 Hcm2]]]
    end.
    rewrite E2. exists rm2, cm2.
    assert (Hkeep : forall j, j <> i ->
              entries_of j cm1 = entries_of j (cancelNoteMap s)).
    { intros j Hj. rewrite Ecm1. destruct (handle_open i s); [|reflexivity].
      apply entries_of_drop_run. congruence. }
    split.
    + apply with_notes_ext. rewrite sent_with_notes, <- app_assoc.
      f_equal. f_equal.
      apply flat_map_ext_in. intros j Hj.
      rewrite handle_open_with_notes, cancelNoteMap_with_notes.
      rewrite Hkeep; [reflexivity|]. intros ->. contradiction.
    + intros j Hj. rewrite Hcm2 by (intro; apply Hj; right; assumption).
      rewrite cancelNoteMap_with_notes.
      apply Hkeep. intros ->. apply Hj. left. reflexivity.
Qed.

Lemma NoDup_devices n : NoDup (map Z.of_nat (seq 0 n)).
Proof.
  apply Finite.Injective_map_NoDup; [|apply seq_NoDup].
  intros a b. apply Nat2Z.inj.
Qed.

(** C4. After [doStopAll] the queue of events and both note maps are
    empty; and what was sent is, for every open device in turn, one
    sustain-off for each pedal entry and [count] note-offs for each other
    entry the cancel map held for that device, followed by All-Notes-Off,
    Sustain 0 and All-Sound-Off on each of the 16 channels of that
    device. *)
Theorem stop_all_silences (s : mo_state) :
  let s' := doStopAll s in
  moEventQueue s' = [] /\
  retriggerNoteMap s' = [] /\
  cancelNoteMap s' = [] /\
  sent s' = sent s ++ stop_trace (midiOutHandles s) (cancelNoteMap s).
Proof.
  unfold doStopAll.
  destruct (fold_stopDevice_sends _ (NoDup_devices (length (midiOutHandles s)))
              s) as [rm [cm [E _]]].
  rewrite E. repeat split.
Qed.

(** * Sending with retrigger *)

(** C1. With retrigger on, for a short message of three bytes: a note-on
    with a velocity above 0 is preceded by the same bytes with velocity 0
    exactly when [retriggerNoteMap.push] returns 1 or more, and
    [cancelNoteMap.push] is done in every case; a note-off, or a note-on
    with velocity 0, is not sent exactly when [retriggerNoteMap.pop]
    returns 1 or more, and [cancelNoteMap.pop] is done in every case. *)
Theorem retrigger_send (dev trk b0 nt v : Z) (s : mo_state) :
  retriggerNotes s = true ->
  let m := SysDep.mkMsg [b0; nt; v] false in
  let ch := Z.land b0 0xf in
  let s' := midiOutSendMessage dev trk m s in
  (Z.land b0 0xf0 = 0x90 -> 0 < v ->
   let pushed := NoteMap.push dev 0 ch nt (retriggerNoteMap s) in
   retriggerNoteMap s' = snd pushed /\
   cancelNoteMap s' = snd (NoteMap.push dev trk ch nt (cancelNoteMap s)) /\
   sent s' =
   sent s
   ++ (if 1 <=? fst pushed
       then [(dev, SysDep.mkMsg [b0; nt; 0] false)] else [])
   ++ [(dev, m)]) /\
  (Z.land b0 0xf0 = 0x80 \/ (Z.land b0 0xf0 = 0x90 /\ v = 0) ->
   let popped := NoteMap.pop dev 0 ch nt (retriggerNoteMap s) in
   retriggerNoteMap s' = snd popped /\
   cancelNoteMap s' = snd (NoteMap.pop dev trk ch nt (cancelNoteMap s)) /\
   sent s' = sent s ++ (if 1 <=? fst popped then [] else [(dev, m)])).
Proof.
  intros Hr m ch s'. subst s'. unfold midiOutSendMessage.
  change (byte_at (SysDep.msg m) 0) with b0.
  change (byte_at (SysDep.msg m) 1) with nt.
  change (byte_at (SysDep.msg m) 2) with v.
  fold ch. rewrite Hr.
  split.
  - intros Hon Hv.
    rewrite Hon.
    replace (v =? 0) with false by (symmetry; apply Z.eqb_neq; lia).
    cbn [Z.eqb Pos.eqb andb orb].
    destruct (NoteMap.push dev 0 ch nt (retriggerNoteMap s)) as [prior rm].
    cbn [fst snd]. rewrite Z.geb_leb.
    destruct (1 <=? prior); cbn [negb]; repeat split.
    exact (eq_sym (app_assoc (sent s) [_] [_])).
  - intros Hoff.
    assert (E : ((Z.land b0 240 =? 144) && (v =? 0) || (Z.land b0 240 =? 128))
                = true).
    { destruct Hoff as [H|[H ->]]; rewrite H; reflexivity. }
    rewrite E.
    destruct (NoteMap.pop dev 0 ch nt (retriggerNoteMap s)) as [c rm].
    cbn [fst snd]. rewrite Z.geb_leb.
    destruct (1 <=? c); cbn [negb]; repeat split.
    exact (eq_sym (app_nil_r (sent s))).
Qed.

(** * Moving the cancelled events to the end of the queue *)

Lemma nth_error_store_nat {A : Type} (q : list A) : forall (i k : nat) (e : A),
  (i < length q)%nat ->
  nth_error (firstn i q ++ e :: skipn (S i) q) k =
  if Nat.eqb k i then Some e else nth_error q k.
Proof.
  induction q as [|x r IH]; intros i k e Hi; cbn in Hi; [lia|].
  destruct i as [|i'].
  - cbn. destruct k; reflexivity.
  - cbn [firstn skipn app]. destruct k as [|k']; [reflexivity|].
    cbn [nth_error Nat.eqb]. apply IH. lia.
Qed.

Lemma length_store {A : Type} (q : list A) (i : Z) (e : A) :
  0 <= i < Z.of_nat (length q) -> length (store q i e) = length q.
Proof.
  intro Hi. unfold store. rewrite length_app. cbn [length].
  rewrite length_firstn, length_skipn. lia.
Qed.

Lemma nth_error_store {A : Type} (q : list A) (i : Z) (k : nat) (e : A) :
  0 <= i < Z.of_nat (length q) ->
  nth_error (store q i e) k =
  if Nat.eqb k (Z.to_nat i) then Some e else nth_error q k.
Proof. intro Hi. unfold store. apply nth_error_store_nat. lia. Qed.

Lemma nth_error_elm_at q (i : Z) :
  0 <= i < Z.of_nat (length q) ->
  nth_error q (Z.to_nat i) = Some (elm_at q i).
Proof. intro Hi. unfold elm_at. apply nth_error_nth'. lia. Qed.

Lemma length_swap q i j :
  0 <= i < Z.of_nat (length q) -> 0 <= j < Z.of_nat (length q) ->
  length (swap q i j) = length q.
Proof.
  intros Hi Hj. unfold swap.
  rewrite length_store; rewrite length_store; lia.
Qed.

Lemma nth_error_swap q i j (k : nat) :
  0 <= i < Z.of_nat (length q) -> 0 <= j < Z.of_nat (length q) ->
  nth_error (swap q i j) k =
  nth_error q (if Nat.eqb k (Z.to_nat i) then Z.to_nat j
               else if Nat.eqb k (Z.to_nat j) then Z.to_nat i else k).
Proof.
  intros Hi Hj. unfold swap.
  rewrite nth_error_store by (rewrite length_store; lia).
  destruct (Nat.eqb k (Z.to_nat i)) eqn:Ei.
  - symmetry. apply nth_error_elm_at. exact Hj.
  - rewrite nth_error_store by lia.
    destruct (Nat.eqb k (Z.to_nat j)); [|reflexivity].
    symmetry. apply nth_error_elm_at. exact Hi.
Qed.

Lemma elm_at_nth_error q (k : Z) e :
  0 <= k -> nth_error q (Z.to_nat k) = Some e -> elm_at q k = e.
Proof. intros Hk E. unfold elm_at. exact (nth_error_nth _ _ _ E). Qed.

Lemma elm_at_swap q i j (k : Z) :
  0 <= i < Z.of_nat (length q) -> 0 <= j < Z.of_nat (length q) ->
  0 <= k < Z.of_nat (length q) ->
  elm_at (swap q i j) k =
  elm_at q (if k =? i then j else if k =? j then i else k).
Proof.
  intros Hi Hj Hk. apply elm_at_nth_error; [lia|].
  rewrite nth_error_swap by assumption.
  destruct (Z.eqb_spec k i) as [->|Ni].
  - rewrite Nat.eqb_refl. apply nth_error_elm_at. exact Hj.
  - replace (Nat.eqb (Z.to_nat k) (Z.to_nat i)) with false
      by (symmetry; apply Nat.eqb_neq; lia).
    destruct (Z.eqb_spec k j) as [->|Nj].
    + rewrite Nat.eqb_refl. apply nth_error_elm_at. exact Hi.
    + replace (Nat.eqb (Z.to_nat k) (Z.to_nat j)) with false
        by (symmetry; apply Nat.eqb_neq; lia).
      apply nth_error_elm_at. exact Hk.
Qed.

Lemma Permutation_swap q i j :
  0 <= i < Z.of_nat (length q) -> 0 <= j < Z.of_nat (length q) ->
  Permutation q (swap q i j).
Proof.
  intros Hi Hj. apply Permutation_nth_error. split.
  - symmetry. apply length_swap; assumption.
  - exists (fun k => if Nat.eqb k (Z.to_nat i) then Z.to_nat j
                     else if Nat.eqb k (Z.to_nat j) then Z.to_nat i else k).
    split.
    + intros a b.
      destruct (Nat.eqb_spec a (Z.to_nat i)), (Nat.eqb_spec b (Z.to_nat i)),
        (Nat.eqb_spec a (Z.to_nat j)), (Nat.eqb_spec b (Z.to_nat j)); lia.
    + intro k. apply nth_error_swap; assumption.
Qed.

Section Partition.

Variable hit : mo_queue_elm -> bool.
Variable q : list mo_queue_elm.

Lemma skip_kept_spec : forall budget i j,
  i <= j + 1 -> (Z.to_nat (j - i + 1) <= budget)%nat ->
  let i1 := skip_kept hit q budget i j in
  i <= i1 <= j + 1 /\
  (forall k, i <= k < i1 -> hit (elm_at q k) = false) /\
  (i1 <= j -> hit (elm_at q i1) = true).
Proof.
  induction budget as [|b IH]; intros i j Hij Hb; cbn [skip_kept].
  - repeat split; try lia.
  - destruct (Z.leb_spec i j) as [Hle|Hgt]; cbn [andb].
    + destruct (hit (elm_at q i)) eqn:Hh; cbn [negb].
      * repeat split; try lia. intros _. exact Hh.
      * destruct (IH (i + 1) j) as [Hr [Hk Ht]]; try lia.
        repeat split; try lia; [|exact Ht].
        intros k Hk'. destruct (Z.eq_dec k i) as [->|]; [exact Hh|].
        apply Hk. lia.
    + repeat split; try lia.
Qed.

Lemma skip_dropped_spec : forall budget i j,
  i <= j + 1 -> (Z.to_nat (j - i + 1) <= budget)%nat ->
  let j1 := skip_dropped hit q budget i j in
  i - 1 <= j1 <= j /\
  (forall k, j1 < k <= j -> hit (elm_at q k) = true) /\
  (i <= j1 -> hit (elm_at q j1) = false).
Proof.
  induction budget as [|b IH]; intros i j Hij Hb; cbn [skip_dropped].
  - repeat split; try lia.
  - destruct (Z.leb_spec i j) as [Hle|Hgt]; cbn [andb].
    + destruct (hit (elm_at q j)) eqn:Hh.
      * destruct (IH i (j - 1)) as [Hr [Hk Ht]]; try lia.
        repeat split; try lia; [|exact Ht].
        intros k Hk'. destruct (Z.eq_dec k j) as [->|]; [exact Hh|].
        apply Hk. lia.
      * repeat split; try lia. intros _. exact Hh.
    + repeat split; try lia.
Qed.

End Partition.

Lemma move_hits_spec hit : forall budget q i j,
  parted hit q i j ->
  (Z.to_nat (j - i + 1) < budget)%nat \/
  (i < j /\ hit (elm_at q i) = false /\ hit (elm_at q j) = true /\
   (Z.to_nat (j - i + 1) <= budget)%nat) ->
  let (q', i') := move_hits hit budget q i j in
  Permutation q q' /\ parted hit q' i' (i' - 1).
Proof.
  induction budget as [|b IH]; intros q i j Hp Hb.
  - exfalso. destruct Hb as [Hb|[Hij [_ [_ Hb]]]]; lia.
  - cbn [move_hits].
    destruct Hp as [Hi [Hj [Hij [Hlo Hhi]]]].
    pose proof (skip_kept_spec hit q (length q) i j Hij ltac:(lia)) as K.
    cbv zeta in K. destruct K as [Ki [Kk Kt]].
    set (i1 := skip_kept hit q (length q) i j) in *.
    pose proof (skip_dropped_spec hit q (length q) i1 j ltac:(lia)
                  ltac:(lia)) as D.
    cbv zeta in D. destruct D as [Dj [Dk Dt]].
    set (j1 := skip_dropped hit q (length q) i1 j) in *.
    assert (Hlo1 : forall k, 0 <= k < i1 -> hit (elm_at q k) = false).
    { intros k Hk. destruct (Z.lt_ge_cases k i); [apply Hlo|apply Kk]; lia. }
    assert (Hhi1 : forall k, j1 < k < Z.of_nat (length q) ->
                             hit (elm_at q k) = true).
    { intros k Hk. destruct (Z.lt_ge_cases j k); [apply Hhi|apply Dk]; lia. }
    rewrite Z.gtb_ltb. destruct (Z.ltb_spec j1 i1) as [Hex|Hin].
    + split; [apply Permutation_refl|].
      assert (i1 = j1 + 1) by lia.
      unfold parted. repeat split; try lia.
      * exact Hlo1.
      * intros k Hk. apply Hhi1. lia.
    + assert (Hne : i1 < j1).
      { destruct (Z.eq_dec i1 j1) as [E|]; [|lia].
        specialize (Kt ltac:(lia)). specialize (Dt ltac:(lia)).
        rewrite E in Kt. congruence. }
      assert (Ri : 0 <= i1 < Z.of_nat (length q)) by lia.
      assert (Rj : 0 <= j1 < Z.of_nat (length q)) by lia.
      specialize (IH (swap q i1 j1) i1 j1).
      destruct (move_hits hit b (swap q i1 j1) i1 j1) as [q' i'].
      destruct IH as [IHp IHq].
      * unfold parted. rewrite length_swap by assumption.
        repeat split; try lia.
        -- intros k Hk. rewrite elm_at_swap by lia.
           replace (k =? i1) with false by (symmetry; apply Z.eqb_neq; lia).
           replace (k =? j1) with false by (symmetry; apply Z.eqb_neq; lia).
           apply Hlo1. lia.
        -- intros k Hk. rewrite elm_at_swap by lia.
           replace (k =? i1) with false by (symmetry; apply Z.eqb_neq; lia).
           replace (k =? j1) with false by (symmetry; apply Z.eqb_neq; lia).
           apply Hhi1. lia.
      * right. split; [exact Hne|].
        rewrite !elm_at_swap by lia.
        rewrite Z.eqb_refl.
        replace (j1 =? i1) with false by (symmetry; apply Z.eqb_neq; lia).
        rewrite Z.eqb_refl.
        split; [apply Dt; lia|]. split; [apply Kt; lia|].
        destruct Hb as [Hb|[Hlt [Hqi [Hqj Hb]]]]; [lia|].
        assert (i1 <> i).
        { intros E. specialize (Kt ltac:(lia)). rewrite E in Kt. congruence. }
        assert (j1 <> j).
        { intros E. specialize (Dt ltac:(lia)). rewrite E in Dt. congruence. }
        lia.
      * split; [|exact IHq].
        eapply Permutation_trans; [|exact IHp].
        apply Permutation_swap; assumption.
Qed.

Lemma filter_all_hit (hit : mo_queue_elm -> bool) q :
  (forall k, (k < length q)%nat -> hit (nth k q null_elm) = true) ->
  filter (fun e => negb (hit e)) q = [].
Proof.
  induction q as [|x r IH]; intro Hall; [reflexivity|].
  cbn [filter]. pose proof (Hall 0%nat ltac:(cbn; lia)) as H0.
  cbn [nth] in H0. rewrite H0. cbn [negb].
  apply IH. intros k Hk. apply (Hall (S k)). cbn. lia.
Qed.

Lemma firstn_filter (hit : mo_queue_elm -> bool) : forall q (n : nat),
  (forall k, (k < n)%nat -> (k < length q)%nat ->
             hit (nth k q null_elm) = false) ->
  (forall k, (n <= k)%nat -> (k < length q)%nat ->
             hit (nth k q null_elm) = true) ->
  firstn n q = filter (fun e => negb (hit e)) q.
Proof.
  induction q as [|x r IH]; intros n Hlo Hhi.
  - destruct n; reflexivity.
  - destruct n as [|n'].
    + cbn [firstn]. symmetry. apply filter_all_hit.
      intros k Hk. apply Hhi; lia.
    + cbn [firstn filter].
      pose proof (Hlo 0%nat ltac:(lia) ltac:(cbn; lia)) as H0.
      cbn [nth] in H0. rewrite H0. cbn [negb]. f_equal.
      apply IH.
      * intros k Hk Hl. apply (Hlo (S k)); cbn; lia.
      * intros k Hk Hl. apply (Hhi (S k)); cbn; lia.
Qed.

Lemma parted_filter hit q i :
  parted hit q i (i - 1) ->
  firstn (Z.to_nat i) q = filter (fun e => negb (hit e)) q.
Proof.
  intros [Hi [Hj [_ [Hlo Hhi]]]]. apply firstn_filter.
  - intros k Hk Hl.
    replace k with (Z.to_nat (Z.of_nat k)) by lia. apply Hlo. lia.
  - intros k Hk Hl.
    replace k with (Z.to_nat (Z.of_nat k)) by lia. apply Hhi. lia.
Qed.

Lemma Permutation_filter {A : Type} (f : A -> bool) (l l' : list A) :
  Permutation l l' -> Permutation (filter f l) (filter f l').
Proof.
  induction 1 as [|x l l' Hp IH|x y l|l l' l'' H1 IH1 H2 IH2]; cbn [filter].
  - constructor.
  - destruct (f x); [constructor|]; exact IH.
  - destruct (f x), (f y); try apply Permutation_refl. constructor.
  - eapply Permutation_trans; eassumption.
Qed.

(** The part of the queue [doCancelMessages] keeps, before [make_heap]. *)
Lemma move_hits_keeps hit q :
  let (q1, i) :=
    move_hits hit (S (length q)) q 0 (Z.of_nat (length q) - 1) in
  Permutation (firstn (Z.to_nat i) q1) (filter (fun e => negb (hit e)) q).
Proof.
  pose proof (move_hits_spec hit (S (length q)) q 0
                (Z.of_nat (length q) - 1)) as M.
  destruct (move_hits hit (S (length q)) q 0 (Z.of_nat (length q) - 1))
    as [q1 i].
  destruct M as [Mp Mq].
  - unfold parted. repeat split; try lia.
  - left. lia.
  - rewrite (parted_filter _ _ _ Mq).
    apply Permutation_sym. apply Permutation_filter. exact Mp.
Qed.

(** * Cancel *)

Lemma strict_weak_order_incl {A : Type} (comp : A -> A -> bool) l l' :
  (forall a, In a l' -> In a l) ->
  strict_weak_order comp l -> strict_weak_order comp l'.
Proof.
  intros Hin [Hi Ht Hn]. constructor.
  - intros a Ha. apply Hi. auto.
  - intros a b c Ha Hb Hc. apply Ht; auto.
  - intros a b c Ha Hb Hc. apply Hn; auto.
Qed.

Lemma strict_weak_order_perm {A : Type} (comp : A -> A -> bool) l l' :
  Permutation l l' ->
  strict_weak_order comp l -> strict_weak_order comp l'.
Proof.
  intro Hp. apply strict_weak_order_incl. intros a Ha.
  apply (Permutation_in a (Permutation_sym Hp)). exact Ha.
Qed.

(** In a map in order, the entries of a device, or of a device and a
    track, lie side by side: the range erase takes all of them. *)
Lemma drop_run_track_hit d t m :
  NoteMap.ordered m ->
  drop_run (NoteMap.track_hit d t) m =
  filter (fun e => negb (NoteMap.track_hit d t (fst e))) m.
Proof.
  apply (drop_run_filter (NoteMap.track_hit d t)
           (fun k => (d <? NoteMap.devNum k)
                     || ((NoteMap.devNum k =? d) && negb (t =? ALL_TRACKS)
                         && (t <? NoteMap.tk k)))).
  - intros k. unfold NoteMap.track_hit. intro Hk. bprop. intuition lia.
  - intros [d1 t1 c1 n1] [d2 t2 c2 n2]. unfold NoteMap.lessp.
    cbn [NoteMap.devNum NoteMap.tk NoteMap.ch NoteMap.n].
    intros L A. bprop. intuition lia.
  - intros [d1 t1 c1 n1] [d2 t2 c2 n2]. unfold NoteMap.lessp, NoteMap.track_hit.
    cbn [NoteMap.devNum NoteMap.tk NoteMap.ch NoteMap.n].
    intros L A. bprop.
    destruct (Z.eq_dec t ALL_TRACKS); intuition lia.
Qed.

Lemma entries_of_cancelled d m :
  entries_of d
    (filter (fun e => negb (NoteMap.track_hit d ALL_TRACKS (fst e))) m) = [].
Proof.
  unfold entries_of. induction m as [|e r IH]; [reflexivity|].
  cbn [filter]. rewrite track_hit_all.
  destruct (NoteMap.devNum (fst e) =? d) eqn:E; cbn [negb filter].
  - exact IH.
  - rewrite E. exact IH.
Qed.

Lemma moEventQueue_cancelNotes d t s :
  moEventQueue (cancelNotes d t s) = moEventQueue s.
Proof. destruct (cancelNotes_sends d t s) as [rm E]. rewrite E. reflexivity. Qed.

Lemma cancelNoteMap_cancelNotes d t s :
  cancelNoteMap (cancelNotes d t s) =
  drop_run (NoteMap.track_hit d t) (cancelNoteMap s).
Proof. destruct (cancelNotes_sends d t s) as [rm E]. rewrite E. reflexivity. Qed.

Lemma moEventQueue_doCancelMessages H d t s :
  exists q2,
    Permutation q2
      (filter (fun e => negb (cancel_hit d t e)) (moEventQueue s)) /\
    moEventQueue (doCancelMessages H d t s) = make_heap H _ greater q2.
Proof.
  unfold doCancelMessages.
  pose proof (move_hits_keeps (cancel_hit d t) (moEventQueue s)) as K.
  destruct (move_hits (cancel_hit d t) (S (length (moEventQueue s)))
              (moEventQueue s) 0 (Z.of_nat (length (moEventQueue s)) - 1))
    as [q1 i].
  exists (firstn (Z.to_nat i) q1). split; [exact K|].
  match goal with
  | |- context [if ?b then _ else _] => destruct b
  end; [rewrite moEventQueue_cancelNotes|]; reflexivity.
Qed.

Lemma cancelNoteMap_doCancelMessages H d t s :
  cancelNoteMap (doCancelMessages H d t s) =
  if (d >=? 0) && (d <? Z.of_nat (length (midiOutHandles s)))
     && handle_open d s
  then drop_run (NoteMap.track_hit d t) (cancelNoteMap s)
  else cancelNoteMap s.
Proof.
  unfold doCancelMessages.
  destruct (move_hits (cancel_hit d t) (S (length (moEventQueue s)))
              (moEventQueue s) 0 (Z.of_nat (length (moEventQueue s)) - 1))
    as [q1 i].
  change (midiOutHandles (set_moEventQueue _ s)) with (midiOutHandles s).
  change (handle_open d (set_moEventQueue _ s)) with (handle_open d s).
  destruct ((d >=? 0) && (d <? Z.of_nat (length (midiOutHandles s)))
            && handle_open d s).
  - rewrite cancelNoteMap_cancelNotes. reflexivity.
  - reflexivity.
Qed.

(** C5, as the code has it. After [doCancelMessages(d, tk)] the queue holds
    the events that do not match, all of them and no other, and it is a
    heap again (for a comparison that orders them); after
    [doCancelMessages(d, ALL_TRACKS)] no event of device [d] is left in the
    queue and, when device [d] is open, the cancel map holds no entry for
    device [d]. *)
Theorem cancel_messages_removes (H : heap_algorithms) (d t : Z)
    (s : mo_state) :
  heap_contract H ->
  NoteMap.ordered (cancelNoteMap s) ->
  let s' := doCancelMessages H d t s in
  let kept := filter (fun e => negb (cancel_hit d t e)) (moEventQueue s) in
  Permutation kept (moEventQueue s') /\
  (strict_weak_order greater kept -> is_heap greater (moEventQueue s')) /\
  (t = ALL_TRACKS ->
   (forall e, In e (moEventQueue s') -> devNum e <> d) /\
   (0 <= d -> isOpenedDevice d s = true ->
    entries_of d (cancelNoteMap s') = [])).
Proof.
  intros HC Ho s' kept. subst s'.
  destruct (moEventQueue_doCancelMessages H d t s) as [q2 [Hq2 Eq]].
  fold kept in Hq2.
  assert (Hperm : Permutation kept (moEventQueue (doCancelMessages H d t s))).
  { rewrite Eq. eapply Permutation_trans.
    - apply Permutation_sym. exact Hq2.
    - apply (make_heap_perm H HC). }
  split; [exact Hperm|]. split.
  - intro Hswo. rewrite Eq. apply (make_heap_is_heap H HC).
    exact (strict_weak_order_perm _ _ _ (Permutation_sym Hq2) Hswo).
  - intros ->. split.
    + intros e He.
      apply (Permutation_in e (Permutation_sym Hperm)) in He.
      apply filter_In in He. destruct He as [_ He].
      unfold cancel_hit in He. intro Hd. rewrite Hd in He.
      rewrite Z.eqb_refl in He. discriminate.
    + intros Hd Hopen. rewrite cancelNoteMap_doCancelMessages.
      unfold isOpenedDevice in Hopen.
      replace (d <? 0) with false in Hopen by (symmetry; apply Z.ltb_ge; lia).
      replace (d >=? 0) with true by (symmetry; apply Z.geb_le; lia).
      cbn [andb]. rewrite Hopen.
      rewrite drop_run_track_hit by exact Ho.
      apply entries_of_cancelled.
Qed.

(** C5 as the spec states it fails on a device that is not open: with a
    note sounding on device 0 and the device closed since,
    [doCancelMessages(0, ALL_TRACKS)] leaves the entry of device 0 in the
    cancel map. *)
Lemma cancel_messages_closed_device :
  NoteMap.ordered (cancelNoteMap closed_device_state) /\
  isOpenedDevice 0 closed_device_state = false /\
  entries_of 0
    (cancelNoteMap
       (doCancelMessages sorting_heap 0 ALL_TRACKS closed_device_state))
  <> [].
Proof.
  split; [repeat constructor|]. split; [reflexivity|].
  vm_compute. discriminate.
Qed.

(** * The order of [double] away from NaN *)

Ltac dord :=
  intros;
  repeat match goal with x : double |- _ => destruct x end;
  unfold dleb, dgtb, dltb, deqb, is_nan in *;
  try discriminate; try reflexivity; try tauto;
  qprop; try lra.

Lemma dltb_irrefl x : dltb x x = false.
Proof. dord. Qed.

Lemma dltb_trans x y z :
  dltb x y = true -> dltb y z = true -> dltb x z = true.
Proof. dord. Qed.

Lemma deqb_refl x : is_nan x = false -> deqb x x = true.
Proof. dord. Qed.

Lemma deqb_sym x y : deqb x y = deqb y x.
Proof.
  destruct x, y; unfold deqb; try reflexivity. apply Qeq_bool_comm.
Qed.

Lemma deqb_trans x y z :
  deqb x y = true -> deqb y z = true -> deqb x z = true.
Proof. dord. Qed.

Lemma dltb_deqb x y z :
  dltb x y = true -> deqb y z = true -> dltb x z = true.
Proof. dord. Qed.

Lemma deqb_dltb x y z :
  deqb x y = true -> dltb y z = true -> dltb x z = true.
Proof. dord. Qed.

Lemma dltb_not_deqb x y : dltb x y = true -> deqb x y = false.
Proof. dord. Qed.

Lemma dltb_asym x y : dltb x y = true -> dltb y x = false.
Proof. dord. Qed.

Lemma double_trichotomy x y :
  is_nan x = false -> is_nan y = false ->
  dltb x y = true \/ deqb x y = true \/ dltb y x = true.
Proof.
  intros; destruct x, y; unfold dltb, deqb, is_nan in *;
    try discriminate; try tauto.
  destruct (Qlt_le_dec q q0) as [L|L].
  - left. qprop. exact L.
  - destruct (Qlt_le_dec q0 q) as [L'|L'].
    + right. right. qprop. exact L'.
    + right. left. qprop. lra.
Qed.

(** * The comparison of the queue *)

Lemma age_range base e : 0 <= age base e < 2 ^ 32.
Proof. unfold age. apply Z.mod_pos_bound. lia. Qed.

(** Inside the window the signed difference of two counters is the
    difference of the ages, wherever the counters wrap. *)
Lemma wrap32_age_diff base a b :
  age base a < 2 ^ 31 -> age base b < 2 ^ 31 ->
  wrap32 (count a - count b) = age base a - age base b.
Proof.
  unfold age, wrap32.
  change (2 ^ 32) with 4294967296. change (2 ^ 31) with 2147483648.
  intros Ha Hb. Z.to_euclidean_division_equations. lia.
Qed.

Lemma greater_before base a b :
  age base a < 2 ^ 31 -> age base b < 2 ^ 31 ->
  (greater a b = true <-> before base b a).
Proof.
  intros Ha Hb. unfold greater, before.
  rewrite (wrap32_age_diff base a b Ha Hb).
  rewrite (deqb_sym (time b) (time a)).
  destruct (deqb (time a) (time b)) eqn:E.
  - rewrite Z.ltb_lt. split.
    + intro. right. split; [reflexivity|lia].
    + intros [L|[_ L]]; [|lia].
      rewrite deqb_sym in E. apply dltb_not_deqb in L. congruence.
  - unfold dgtb. split.
    + intro L. left. exact L.
    + intros [L|[L _]]; [exact L|discriminate].
Qed.

Lemma before_irrefl base a : ~ before base a a.
Proof.
  intros [L|[_ L]]; [|lia]. rewrite dltb_irrefl in L. discriminate.
Qed.

Lemma before_trans base a b c :
  before base a b -> before base b c -> before base a c.
Proof.
  intros [L1|[E1 A1]] [L2|[E2 A2]].
  - left. exact (dltb_trans _ _ _ L1 L2).
  - left. exact (dltb_deqb _ _ _ L1 E2).
  - left. exact (deqb_dltb _ _ _ E1 L2).
  - right. split; [exact (deqb_trans _ _ _ E1 E2)|lia].
Qed.

(** Away from NaN, two events are ordered one way or the other, or they
    have the same tick and the same age. *)
Lemma before_total base a b :
  is_nan (time a) = false -> is_nan (time b) = false ->
  before base a b \/ before base b a \/
  (deqb (time a) (time b) = true /\ age base a = age base b).
Proof.
  intros Na Nb.
  destruct (double_trichotomy _ _ Na Nb) as [L|[E|L]].
  - left. left. exact L.
  - destruct (Z.lt_total (age base a) (age base b)) as [A|[A|A]].
    + left. right. split; assumption.
    + right. right. split; assumption.
    + right. left. right. split; [rewrite deqb_sym; exact E|exact A].
  - right. left. left. exact L.
Qed.

Lemma before_asym base a b : before base a b -> ~ before base b a.
Proof.
  intros H1 H2. exact (before_irrefl base a (before_trans _ _ _ _ H1 H2)).
Qed.

Lemma not_before_trans base a b c :
  is_nan (time a) = false -> is_nan (time b) = false ->
  is_nan (time c) = false ->
  ~ before base b a -> ~ before base c b -> ~ before base c a.
Proof.
  intros Na Nb Nc H1 H2 H3.
  destruct (before_total base a b Na Nb) as [Hab|[Hba|[Eab Aab]]];
    [|contradiction|].
  - apply H2. exact (before_trans _ _ _ _ H3 Hab).
  - apply H2. destruct H3 as [L|[E A]].
    + left. exact (dltb_deqb _ _ _ L Eab).
    + right. split; [exact (deqb_trans _ _ _ E Eab)|lia].
Qed.

(** Inside the window and away from NaN, [greater] is a strict weak
    ordering of the events of the queue. *)
Lemma greater_strict_weak_order base q :
  in_window base q -> timed q -> strict_weak_order greater q.
Proof.
  intros [Hw _] Ht. unfold timed in Ht. rewrite Forall_forall in Hw, Ht.
  constructor.
  - intros a Ha. destruct (greater a a) eqn:G; [|reflexivity].
    apply (greater_before base) in G; auto.
    exfalso. exact (before_irrefl _ _ G).
  - intros a b c Ha Hb Hc G1 G2.
    apply (greater_before base) in G1, G2; auto.
    apply (greater_before base); auto.
    exact (before_trans _ _ _ _ G2 G1).
  - intros a b c Ha Hb Hc G1 G2.
    destruct (greater a c) eqn:G3; [|reflexivity]. exfalso.
    apply (greater_before base) in G3; auto.
    refine (not_before_trans base a b c _ _ _ _ _ G3); auto.
    + intro B. apply (greater_before base) in B; auto. congruence.
    + intro B. apply (greater_before base) in B; auto. congruence.
Qed.

(** * The top of a heap *)

Lemma heap_top_min {A : Type} (comp : A -> A -> bool) (x : A) (r : list A) :
  strict_weak_order comp (x :: r) -> is_heap comp (x :: r) ->
  forall e, In e (x :: r) -> comp x e = false.
Proof.
  intros So Hh e He.
  apply In_nth_error in He. destruct He as [i Hi]. revert e Hi.
  induction i as [i IH] using lt_wf_ind. intros e Hi.
  destruct i as [|i'].
  - cbn in Hi. injection Hi as <-. apply (swo_irrefl _ _ So). left. reflexivity.
  - set (p := ((S i' - 1) / 2)%nat).
    assert (Hp : (p < S i')%nat).
    { unfold p. apply Nat.Div0.div_lt_upper_bound. lia. }
    assert (Hlen : (S i' < length (x :: r))%nat).
    { apply nth_error_Some. congruence. }
    destruct (nth_error (x :: r) p) as [pe|] eqn:Ep.
    2:{ apply nth_error_None in Ep. lia. }
    apply (swo_negtrans _ _ So x pe e).
    + left. reflexivity.
    + exact (nth_error_In _ _ Ep).
    + exact (nth_error_In _ _ Hi).
    + exact (IH p Hp pe Ep).
    + apply (Hh (S i') pe e); [lia|exact Hi|exact Ep].
Qed.

(** * Dispatch leaves the queue to the loop *)

Lemma midiOutSendMessage_with_notes d t m s :
  midiOutSendMessage d t m s =
  with_notes (retriggerNoteMap (midiOutSendMessage d t m s))
    (cancelNoteMap (midiOutSendMessage d t m s))
    (sent (midiOutSendMessage d t m s)) s.
Proof.
  unfold midiOutSendMessage.
  repeat match goal with
         | |- context [NoteMap.pop ?a ?b ?c ?e ?f] =>
             destruct (NoteMap.pop a b c e f)
         | |- context [NoteMap.push ?a ?b ?c ?e ?f] =>
             destruct (NoteMap.push a b c e f)
         | |- context [if ?b then _ else _] => destruct b
         end;
    first [reflexivity | exact (eq_sym (with_notes_id _))].
Qed.

Lemma moEventQueue_dispatch ticks msecs e s :
  moEventQueue (dispatch ticks msecs e s) = moEventQueue s.
Proof.
  unfold dispatch.
  repeat match goal with
         | |- context [if ?b then _ else _] => destruct b
         end;
    try reflexivity;
    rewrite midiOutSendMessage_with_notes; reflexivity.
Qed.

(** * The order of dispatch *)

Lemma in_window_perm base q q' :
  Permutation q q' -> in_window base q -> in_window base q'.
Proof.
  intros Hp [Hw Hn]. split.
  - exact (Permutation_Forall Hp Hw).
  - apply (Permutation_NoDup (l := map (age base) q)); [|exact Hn].
    apply Permutation_map. exact Hp.
Qed.

Lemma in_window_tail base x q : in_window base (x :: q) -> in_window base q.
Proof.
  intros [Hw Hn]. split.
  - inversion Hw; assumption.
  - inversion Hn; assumption.
Qed.

Lemma timed_perm q q' : Permutation q q' -> timed q -> timed q'.
Proof. intros Hp. apply Permutation_Forall. exact Hp. Qed.

(** The top of the heap is due before every other event of the queue. *)
Lemma top_before base x r :
  in_window base (x :: r) -> timed (x :: r) -> is_heap greater (x :: r) ->
  Forall (before base x) r.
Proof.
  intros Hw Ht Hh.
  pose proof (heap_top_min greater x r
                (greater_strict_weak_order base _ Hw Ht) Hh) as Hmin.
  destruct Hw as [Hw Hn]. unfold timed in Ht.
  rewrite Forall_forall in *. intros e He.
  assert (Hex : In e (x :: r)) by (right; exact He).
  specialize (Hmin e Hex).
  destruct (before_total base x e) as [B|[B|[E A]]].
  - apply Ht. left. reflexivity.
  - apply Ht. exact Hex.
  - exact B.
  - exfalso. apply (greater_before base) in B.
    + congruence.
    + apply Hw. left. reflexivity.
    + apply Hw. exact Hex.
  - exfalso. cbn [map] in Hn. inversion Hn as [|? ? Hnotin _]; subst.
    apply Hnotin. rewrite A. apply in_map. exact He.
Qed.

Lemma dleb_below x y t :
  is_nan x = false -> is_nan y = false ->
  dltb y x = false -> dleb y t = true -> dleb x t = true.
Proof.
  intros Nx Ny L H.
  destruct x, y, t; unfold dleb, dltb, deqb, is_nan in *;
    try discriminate; try reflexivity;
    rewrite ?orb_true_iff, ?orb_false_iff in *; qprop.
  destruct (Qlt_le_dec q q1) as [L1|L1].
  - left. qprop. exact L1.
  - right. qprop. destruct H as [H|H]; qprop; lra.
Qed.

Lemma dispatch_loop_order (H : heap_algorithms) (HC : heap_contract H)
    (base : Z) (ticks msecs : double) : forall budget s,
  (length (moEventQueue s) <= budget)%nat ->
  is_heap greater (moEventQueue s) ->
  in_window base (moEventQueue s) ->
  timed (moEventQueue s) ->
  StronglySorted (before base) (fst (dispatch_loop H budget ticks msecs s)) /\
  Permutation (moEventQueue s)
    (fst (dispatch_loop H budget ticks msecs s)
     ++ moEventQueue (snd (dispatch_loop H budget ticks msecs s))) /\
  Forall (fun e => dleb (time e) ticks = true)
    (fst (dispatch_loop H budget ticks msecs s)) /\
  Forall (fun e => dleb (time e) ticks = false)
    (moEventQueue (snd (dispatch_loop H budget ticks msecs s))).
Proof.
  induction budget as [|b IH]; intros s Hlen Hh Hw Ht.
  - cbn [dispatch_loop fst snd app].
    destruct (moEventQueue s); [|cbn in Hlen; lia].
    repeat split; constructor.
  - cbn [dispatch_loop].
    destruct (moEventQueue s) as [|qtop rest] eqn:Eq.
    { cbn [fst snd app]. rewrite Eq. repeat split; constructor. }
    pose proof (top_before base qtop rest Hw Ht Hh) as Htop.
    destruct (dleb (time qtop) ticks) eqn:Edue.
    + rewrite moEventQueue_dispatch, Eq.
      destruct (pop_heap_spec H HC _ greater qtop rest
                  (greater_strict_weak_order base _ Hw Ht) Hh)
        as [l' [Epop [Hperm Hheap]]].
      rewrite Epop, removelast_last.
      set (s2 := set_moEventQueue l' (dispatch ticks msecs qtop s)).
      specialize (IH s2).
      change (moEventQueue s2) with l' in IH.
      destruct IH as [IHs [IHp [IHd IHr]]].
      * rewrite <- (Permutation_length Hperm). cbn in Hlen. lia.
      * exact Hheap.
      * exact (in_window_perm _ _ _ Hperm (in_window_tail _ _ _ Hw)).
      * apply (timed_perm _ _ Hperm). inversion Ht; assumption.
      * destruct (dispatch_loop H b ticks msecs s2) as [out s3].
        cbn [fst snd] in *.
        assert (Hsub : forall e, In e out -> In e rest).
        { intros e He. apply (Permutation_in e (Permutation_sym Hperm)).
          apply (Permutation_in e (Permutation_sym IHp)).
          apply in_or_app. left. exact He. }
        repeat split.
        -- constructor; [exact IHs|].
           rewrite Forall_forall in *. intros e He. apply Htop, Hsub, He.
        -- cbn [app]. constructor.
           exact (Permutation_trans Hperm IHp).
        -- constructor; assumption.
        -- exact IHr.
    + cbn [fst snd app]. rewrite Eq.
      split; [constructor|]. split; [apply Permutation_refl|].
      split; [constructor|]. constructor.
      * exact Edue.
      * unfold timed in Ht. inversion Ht as [|? ? Nq Nr]; subst.
        rewrite Forall_forall in *. intros e He.
        destruct (dleb (time e) ticks) eqn:Ee; [|reflexivity].
        exfalso.
        assert (L : dltb (time e) (time qtop) = false).
        { destruct (dltb (time e) (time qtop)) eqn:L; [|reflexivity].
          exfalso. apply (before_asym base qtop e (Htop e He)).
          left. exact L. }
        rewrite (dleb_below (time qtop) (time e) ticks Nq (Nr e He) L Ee)
          in Edue.
        discriminate.
Qed.

(** * The sorting instance meets the contract of the heap algorithms *)

Section SortingHeap.

Context {A : Type} (comp : A -> A -> bool).

Lemma swo_asym (L : list A) a b :
  strict_weak_order comp L -> In a L -> In b L ->
  comp a b = true -> comp b a = false.
Proof.
  intros So Ha Hb Hab. destruct (comp b a) eqn:Hba; [|reflexivity].
  rewrite <- (swo_irrefl _ _ So a Ha).
  symmetry. exact (swo_trans _ _ So a b a Ha Hb Ha Hab Hba).
Qed.

Lemma Permutation_sorted_insert x l :
  Permutation (x :: l) (sorted_insert comp x l).
Proof.
  induction l as [|y r IH]; cbn [sorted_insert]; [apply Permutation_refl|].
  destruct (comp y x); [apply Permutation_refl|].
  eapply Permutation_trans; [apply perm_swap|].
  constructor. exact IH.
Qed.

Lemma Permutation_insertion_sort l : Permutation l (insertion_sort comp l).
Proof.
  induction l as [|x r IH]; cbn; [constructor|].
  eapply Permutation_trans; [|apply Permutation_sorted_insert].
  constructor. exact IH.
Qed.

Lemma sorted_insert_sorted (L : list A) x : forall l,
  strict_weak_order comp L -> In x L -> incl l L ->
  StronglySorted (fun a b => comp a b = false) l ->
  StronglySorted (fun a b => comp a b = false) (sorted_insert comp x l).
Proof.
  intros l So Hx. induction l as [|y r IH]; intros Hin Hs.
  - cbn. repeat constructor.
  - cbn [sorted_insert].
    assert (Hy : In y L) by (apply Hin; left; reflexivity).
    assert (Hr : incl r L) by (intros z Hz; apply Hin; right; exact Hz).
    apply StronglySorted_inv in Hs. destruct Hs as [Hsr Hall].
    destruct (comp y x) eqn:Eyx.
    + constructor; [constructor; assumption|].
      assert (Exy : comp x y = false) by (apply (swo_asym L y x); assumption).
      constructor; [exact Exy|].
      rewrite Forall_forall in *. intros z Hz.
      apply (swo_negtrans _ _ So x y z); auto.
    + constructor; [apply IH; assumption|].
      rewrite Forall_forall in *. intros z Hz.
      apply (Permutation_in z (Permutation_sym
                                 (Permutation_sorted_insert x r))) in Hz.
      destruct Hz as [<-|Hz]; [exact Eyx|apply Hall; exact Hz].
Qed.

Lemma insertion_sort_sorted l :
  strict_weak_order comp l ->
  StronglySorted (fun a b => comp a b = false) (insertion_sort comp l).
Proof.
  intro So.
  assert (G : forall l', incl l' l ->
            StronglySorted (fun a b => comp a b = false)
              (insertion_sort comp l')).
  { induction l' as [|x r IH]; intro Hin; cbn; [constructor|].
    apply (sorted_insert_sorted l).
    - exact So.
    - apply Hin. left. reflexivity.
    - intros z Hz.
      apply (Permutation_in z (Permutation_sym
                                 (Permutation_insertion_sort r))) in Hz.
      apply Hin. right. exact Hz.
    - apply IH. intros z Hz. apply Hin. right. exact Hz. }
  apply G. apply incl_refl.
Qed.

Lemma sorted_nth_error (R : A -> A -> Prop) : forall l (i j : nat) a b,
  StronglySorted R l -> (i < j)%nat ->
  nth_error l i = Some a -> nth_error l j = Some b -> R a b.
Proof.
  induction l as [|x r IH]; intros i j a b Hs Hij Ha Hb.
  - destruct i; discriminate.
  - apply StronglySorted_inv in Hs. destruct Hs as [Hsr Hall].
    destruct j as [|j']; [lia|]. cbn in Hb.
    destruct i as [|i'].
    + cbn in Ha. injection Ha as <-.
      rewrite Forall_forall in Hall. apply Hall.
      exact (nth_error_In _ _ Hb).
    + cbn in Ha. apply (IH i' j'); auto. lia.
Qed.

Lemma sorted_is_heap l :
  StronglySorted (fun a b => comp a b = false) l -> is_heap comp l.
Proof.
  intros Hs i p c Hi Hc Hp.
  apply (sorted_nth_error _ l ((i - 1) / 2) i p c Hs); auto.
  apply Nat.Div0.div_lt_upper_bound. lia.
Qed.

Lemma insertion_sort_is_heap l :
  strict_weak_order comp l -> is_heap comp (insertion_sort comp l).
Proof. intro So. apply sorted_is_heap, insertion_sort_sorted, So. Qed.

End SortingHeap.

Lemma sorting_heap_contract : heap_contract sorting_heap.
Proof.
  constructor; cbn [make_heap push_heap pop_heap sorting_heap].
  - intros A comp l. apply Permutation_insertion_sort.
  - intros A comp l. apply insertion_sort_is_heap.
  - intros A comp l. apply Permutation_insertion_sort.
  - intros A comp l x So _. apply insertion_sort_is_heap. exact So.
  - intros A comp x l So _. exists (insertion_sort comp l).
    split; [reflexivity|]. split; [apply Permutation_insertion_sort|].
    apply insertion_sort_is_heap.
    apply (strict_weak_order_incl comp (x :: l)); [|exact So].
    intros a Ha. right. exact Ha.
Qed.

(** * Requests applied by the scheduler *)

Lemma doStopAll_tempo s :
  tempo_map (doStopAll s) = tempo_map s.
Proof.
  unfold doStopAll.
  destruct (fold_stopDevice_sends _ (NoDup_devices (length (midiOutHandles s)))
              s) as [rm [cm [E _]]].
  rewrite E. reflexivity.
Qed.

Lemma doCancelMessages_tempo H d t s :
  tempo_map (doCancelMessages H d t s) = tempo_map s.
Proof.
  unfold doCancelMessages.
  destruct (move_hits _ _ _ _ _) as [q1 i].
  match goal with
  | |- context [if ?b then _ else _] => destruct b
  end; [|reflexivity].
  match goal with
  | |- context [cancelNotes ?d ?t ?s1] =>
      destruct (cancelNotes_sends d t s1) as [rm E]; rewrite E
  end.
  reflexivity.
Qed.

Lemma fold_doCancelMessages_tempo H (rs : list (Z * Z)) : forall s,
  tempo_map
    (fold_left (fun s r => doCancelMessages H (fst r) (snd r) s) rs s) =
  tempo_map s.
Proof.
  induction rs as [|r rs IH]; intro s; cbn [fold_left]; [reflexivity|].
  rewrite IH. apply doCancelMessages_tempo.
Qed.

Lemma thread_wake_signalled_tempo H ticks msecs now s :
  shutdownRequest s = false ->
  tempo_map (snd (thread_wake H false ticks msecs now s)) =
  tempo_map (snd (applyScaleRequest now msecs s)).
Proof.
  intro Hs. unfold thread_wake. rewrite Hs.
  destruct (applyScaleRequest now msecs s) as [m1 s1]. cbn [snd negb].
  change (tempo_map (set_cancelRequests [] ?x)) with (tempo_map x).
  rewrite fold_doCancelMessages_tempo.
  destruct (stopRequest s1); [|reflexivity].
  match goal with
  | |- context [if ?b then _ else _] => destruct b
  end;
    change (tempo_map (set_retriggerNotesChangeReq 0 (set_retriggerNotes ?b ?x)))
      with (tempo_map x);
    change (tempo_map (set_stopRequest false ?x)) with (tempo_map x);
    apply doStopAll_tempo.
Qed.

(** C9, for a finite tempo state and a finite scale [r]. When the
    scheduler applies a request [setTempoScale(r)] at the instant [now]:
    the tempo scale becomes [max(r, 0)], the anchor becomes [now] and the
    tick value the mapping had for [now] before the change, so that
    [msecsToTicks] gives the same ticks for [now] before and after; a wake
    of the thread by the signal leaves the tempo map as the request made
    it. *)
Theorem tempo_scale_applied (H : heap_algorithms) (c sc S T r now : Q)
    (ticks msecs : double) (s : mo_state) :
  tempo_map s = mkTempo (Fin c) (Fin sc) (Fin S) (Fin T) ->
  shutdownRequest s = false ->
  let requested := setTempoScale (Fin r) s in
  let applied := snd (applyScaleRequest (Fin now) msecs requested) in
  let woken := snd (thread_wake H false ticks msecs (Fin now) requested) in
  tempoScaleChangeRequest applied = false /\
  (tempoScale (tempo_map applied) == Fin (Qmax r 0))%D /\
  currentTempo (tempo_map applied) = currentTempo (tempo_map s) /\
  lastTempoChangeS (tempo_map applied) = Fin now /\
  lastTempoChangeT (tempo_map applied) = msecsToTicks (tempo_map s) (Fin now) /\
  (msecsToTicks (tempo_map applied) (Fin now)
   == msecsToTicks (tempo_map s) (Fin now))%D /\
  tempo_map woken = tempo_map applied.
Proof.
  intros Ht Hs requested applied woken.
  assert (Ea : tempo_map applied =
               applyTempoScaleChange (Fin now) (clamp_scale (Fin r))
                 (tempo_map s)) by reflexivity.
  pose proof (applyTempoScaleChange_continuous c sc S T now r) as C.
  cbv zeta in C. rewrite <- Ht in C. rewrite <- Ea in C.
  destruct C as [C1 [C2 [C3 [C4 C5]]]].
  repeat split; try assumption.
  subst woken applied. apply thread_wake_signalled_tempo. exact Hs.
Qed.

Lemma tempo_scale_applied_witness :
  let requested := setTempoScale (Fin (-2)) startup_state in
  let applied := snd (applyScaleRequest (Fin 1000) (Fin 0) requested) in
  let woken :=
    snd (thread_wake sorting_heap false (Fin 0) (Fin 0) (Fin 1000) requested) in
  tempoScaleChangeRequest applied = false /\
  (tempoScale (tempo_map applied) == Fin (Qmax (-2) 0))%D /\
  currentTempo (tempo_map applied) = currentTempo (tempo_map startup_state) /\
  lastTempoChangeS (tempo_map applied) = Fin 1000 /\
  lastTempoChangeT (tempo_map applied) =
  msecsToTicks (tempo_map startup_state) (Fin 1000) /\
  (msecsToTicks (tempo_map applied) (Fin 1000)
   == msecsToTicks (tempo_map startup_state) (Fin 1000))%D /\
  tempo_map woken = tempo_map applied.
Proof.
  apply (tempo_scale_applied sorting_heap 125 1 0 0 (-2) 1000 (Fin 0) (Fin 0)
           startup_state); reflexivity.
Defined.

(** C9 as the specification has it, for every tempo state and every scale,
    fails where a value is infinite. First, the scale +infinity, which is
    not below 0 and so passes [setTempoScale] as it is, applied 1000 ms
    after the start: [msecsToTicks] gives tick 1000 for that instant
    before the change and [0 * infinity], which is NaN, after it. Second,
    the tempo +infinity, left by the tempo event [FF 51 00 00 00] of tick
    480 at 480 ms, and the scale 2 applied at 1000 ms: [msecsToTicks]
    gives +infinity for that instant before the change and NaN after
    it. *)
Lemma tempo_scale_infinite :
  (let s := startup_state in
   let requested := setTempoScale PInf s in
   let woken :=
     snd (thread_wake sorting_heap false (Fin 0) (Fin 0) (Fin 1000)
            requested) in
   tempoScale (tempo_map woken) = PInf /\
   (msecsToTicks (tempo_map s) (Fin 1000) == Fin 1000)%D /\
   msecsToTicks (tempo_map woken) (Fin 1000) = NaN /\
   ~ (msecsToTicks (tempo_map woken) (Fin 1000)
      == msecsToTicks (tempo_map s) (Fin 1000))%D) /\
  (let e := mkElm DEV_DUMMY (Fin 480) 0 [0xff; 0x51; 0; 0; 0] 0 in
   let s := dispatch (Fin 480) (Fin 480) e startup_state in
   let requested := setTempoScale (Fin 2) s in
   let woken :=
     snd (thread_wake sorting_heap false (Fin 0) (Fin 0) (Fin 1000)
            requested) in
   currentTempo (tempo_map s) = PInf /\
   (tempoScale (tempo_map woken) == Fin 2)%D /\
   msecsToTicks (tempo_map s) (Fin 1000) = PInf /\
   msecsToTicks (tempo_map woken) (Fin 1000) = NaN /\
   ~ (msecsToTicks (tempo_map woken) (Fin 1000)
      == msecsToTicks (tempo_map s) (Fin 1000))%D).
Proof.
  vm_compute. split.
  - split; [reflexivity|]. split; [reflexivity|]. split; [reflexivity|].
    discriminate.
  - split; [reflexivity|]. split; [reflexivity|]. split; [reflexivity|].
    split; [reflexivity|]. discriminate.
Qed.

(** * The dispatch of meta events and of events for closed devices *)

(** C10. For an event of any device but [DEV_LOOPBACK], open or not, a
    message [0xff 0x51 ...] of 5 bytes or more sets the tempo from its
    bytes 2 to 4 and the anchor to the target of the wait; a message that is
    not a meta event and goes to [DEV_DUMMY] or to a device that is not open
    leaves the state as it is, so nothing is sent. *)
Theorem dispatch_meta_and_closed (ticks msecs : double) (e : mo_queue_elm)
    (s : mo_state) :
  devNum e <> DEV_LOOPBACK ->
  (byte_at (msg e) 0 = 0xff -> byte_at (msg e) 1 = M_TEMPO ->
   (5 <= length (msg e))%nat ->
   dispatch ticks msecs e s =
   set_tempo
     (mkTempo
        (Fin 60000000
         / double_of_Z (Z.shiftl (byte_at (msg e) 2) 16
                        + Z.shiftl (byte_at (msg e) 3) 8
                        + byte_at (msg e) 4))%D
        (tempoScale (tempo_map s)) msecs ticks) s) /\
  (byte_at (msg e) 0 <> 0xff ->
   devNum e = DEV_DUMMY \/
   (0 <= devNum e /\ handle_open (devNum e) s = false) ->
   dispatch ticks msecs e s = s).
Proof.
  intro Hl. unfold dispatch.
  apply Z.eqb_neq in Hl. rewrite Hl.
  split.
  - intros H0 H1 Hlen. rewrite H0, H1.
    cbn [Z.eqb Pos.eqb negb].
    replace (Z.of_nat (length (msg e)) >=? 5) with true
      by (symmetry; apply Z.geb_le; lia).
    reflexivity.
  - intros H0 Hd. apply Z.eqb_neq in H0. rewrite H0. cbn [negb].
    destruct Hd as [Hd|[Hd Hc]].
    + rewrite Hd. reflexivity.
    + rewrite Hc. rewrite andb_false_r. reflexivity.
Qed.

Lemma dispatch_meta_and_closed_witness :
  let tempo120 := mkElm DEV_DUMMY (Fin 0) 0 [0xff; 0x51; 0x07; 0xa1; 0x20] 0 in
  let note := mkElm 0 (Fin 0) 1 [0x90; 60; 100] 0 in
  let s := closed_device_state in
  dispatch (Fin 0) (Fin 0) tempo120 s =
  set_tempo
    (mkTempo (Fin 60000000 / double_of_Z 500000)%D (tempoScale (tempo_map s))
       (Fin 0) (Fin 0)) s /\
  dispatch (Fin 0) (Fin 0) note s = s.
Proof.
  split.
  - apply (proj1 (dispatch_meta_and_closed (Fin 0) (Fin 0)
                    (mkElm DEV_DUMMY (Fin 0) 0 [0xff; 0x51; 0x07; 0xa1; 0x20] 0)
                    closed_device_state ltac:(discriminate)));
      [reflexivity|reflexivity|cbn; lia].
  - apply (proj2 (dispatch_meta_and_closed (Fin 0) (Fin 0)
                    (mkElm 0 (Fin 0) 1 [0x90; 60; 100] 0)
                    closed_device_state ltac:(discriminate)));
      [discriminate|right; split; [cbn; lia|reflexivity]].
Defined.

(** * Queueing *)

(** An accepted message enters the queue with the counter of the state,
    and the counter moves one step on, wrapping at the end of the range. *)
Lemma queueMessage_enqueues (H : heap_algorithms) d t trk m s s' :
  heap_contract H ->
  queueMessage H d t trk m s = (false, s') ->
  let e := mkElm d t (currentCount s) m trk in
  Permutation (moEventQueue s ++ [e]) (moEventQueue s') /\
  currentCount s' = wrap32 (currentCount s + 1) /\
  (strict_weak_order greater (moEventQueue s ++ [e]) ->
   is_heap greater (moEventQueue s) -> is_heap greater (moEventQueue s')).
Proof.
  intros HC. unfold queueMessage.
  destruct (Z.of_nat (length m) <? 1); [discriminate|].
  destruct ((d >=? 0) && _); [discriminate|].
  cbn [new_mo_queue_elm devNum time count tk]. intros [= <-].
  unfold enqueue. cbn -[wrap32].
  split; [apply (push_heap_perm H HC)|]. split; [reflexivity|].
  intros So Hh. apply (push_heap_is_heap H HC); assumption.
Qed.

(** The event enqueued next is one step older than the one before, modulo
    the range of the counter. *)
Lemma age_next base a b :
  count b = wrap32 (count a + 1) ->
  age base b = (age base a + 1) mod 2 ^ 32.
Proof.
  intro E. unfold age. rewrite E. unfold wrap32.
  change (2 ^ 32) with 4294967296. change (2 ^ 31) with 2147483648.
  Z.to_euclidean_division_equations. lia.
Qed.

(** The event enqueued next is younger than every event of the queue, as
    long as the window is not used up: at the same tick, [before] is the
    order of enqueueing. *)
Lemma queueMessage_youngest (H : heap_algorithms) base d t trk m s s' :
  heap_contract H ->
  queueMessage H d t trk m s = (false, s') ->
  next_age base s < 2 ^ 31 ->
  in_window base (moEventQueue s) ->
  Forall (fun e => age base e < next_age base s) (moEventQueue s) ->
  let e := mkElm d t (currentCount s) m trk in
  age base e = next_age base s /\
  Permutation (moEventQueue s ++ [e]) (moEventQueue s') /\
  in_window base (moEventQueue s') /\
  Forall (fun e => age base e < next_age base s + 1) (moEventQueue s') /\
  next_age base s' = (next_age base s + 1) mod 2 ^ 32.
Proof.
  intros HC Eq Ha [Hw Hn] Hold e.
  destruct (queueMessage_enqueues H d t trk m s s' HC Eq) as [Hp [Hc _]].
  fold e in Hp.
  assert (Hage : age base e = next_age base s) by reflexivity.
  split; [exact Hage|]. split; [exact Hp|].
  assert (Hw' : in_window base (moEventQueue s ++ [e])).
  { split.
    - apply Forall_app. split; [exact Hw|]. constructor; [|constructor].
      rewrite Hage. exact Ha.
    - rewrite map_app. cbn [map]. apply NoDup_app.
      + exact Hn.
      + constructor; [intros []|constructor].
      + intros x Hx [<-|[]].
        apply in_map_iff in Hx. destruct Hx as [e0 [E0 Hin]].
        rewrite Forall_forall in Hold. specialize (Hold e0 Hin).
        rewrite Hage in E0. lia. }
  split; [exact (in_window_perm _ _ _ Hp Hw')|]. split.
  - apply (Permutation_Forall Hp). apply Forall_app. split.
    + revert Hold. apply Forall_impl. intros; lia.
    + constructor; [|constructor]. rewrite Hage. lia.
  - unfold next_age. rewrite Hc. unfold wrap32.
    change (2 ^ 32) with 4294967296. change (2 ^ 31) with 2147483648.
    Z.to_euclidean_division_equations. lia.
Qed.

(** With a tempo of zero the scheduler waits for a signal; it does not ask
    the tempo map for the time of the event at the top. *)
Lemma wait_target_frozen (s : mo_state) :
  dleb (currentTempo (tempo_map s) * tempoScale (tempo_map s)) (Fin 0) = true ->
  wait_target s = None.
Proof.
  intro Hz. unfold wait_target.
  destruct (moEventQueue s); [reflexivity|]. rewrite Hz. reflexivity.
Qed.





(** * The facade *)

(** C8, at the input where the code leaves the claim: an empty message for
    [DEV_LOOPBACK] passes the check of the facade, is refused by
    [queueMessage] and is reported as a [RuntimeError] that says the device
    is not opened, not as a [ValueError]; it is not enqueued. *)
Theorem queue_empty_loopback (H : heap_algorithms) (ticks : double)
    (trk : Z) (s : mo_state) :
  takt_queue_message H DEV_LOOPBACK ticks trk [] s =
  (PyExc_RuntimeError "device is not opened"%string, s).
Proof. reflexivity. Qed.

(** For every other device the facade reports an empty message, and a
    message with a first byte from 0x80 to 0xef whose length is not the one
    of the table, as [ValueError], and does not enqueue it. *)
Lemma queue_bad_message (H : heap_algorithms) (dev : Z) (ticks : double)
    (trk : Z) (m : message_t) (s : mo_state) :
  dev <> DEV_LOOPBACK ->
  m = [] \/
  (0x80 <= byte_at m 0 < 0xf0 /\
   Z.of_nat (length m) <> midimsg_size (byte_at m 0)) ->
  takt_queue_message H dev ticks trk m s =
  (PyExc_ValueError "invalid MIDI (or meta) message"%string, s).
Proof.
  intros Hd Hbad. unfold takt_queue_message.
  apply Z.eqb_neq in Hd. rewrite Hd. cbn [negb andb].
  destruct Hbad as [->|[Hr Hl]]; [reflexivity|].
  apply Z.eqb_neq in Hl. rewrite Hl. rewrite andb_false_r.
  replace (byte_at m 0 =? 240) with false by (symmetry; apply Z.eqb_neq; lia).
  replace (byte_at m 0 =? 255) with false by (symmetry; apply Z.eqb_neq; lia).
  cbn [orb]. rewrite andb_false_r. reflexivity.
Qed.

(** A message that passes the check and goes to a device number from 0 up
    that is not open is reported as [RuntimeError], and is not enqueued. *)
Lemma queue_closed_device (H : heap_algorithms) (dev : Z) (ticks : double)
    (trk : Z) (m : message_t) (s : mo_state) :
  0 <= dev -> isOpenedDevice dev s = false ->
  m <> [] ->
  (0x80 <= byte_at m 0 < 0xf0 /\
   Z.of_nat (length m) = midimsg_size (byte_at m 0)) \/
  byte_at m 0 = 0xf0 \/ byte_at m 0 = 0xff ->
  takt_queue_message H dev ticks trk m s =
  (PyExc_RuntimeError "device is not opened"%string, s).
Proof.
  intros Hd Hc Hm Hok. unfold takt_queue_message.
  assert (Hsize : (Z.of_nat (length m) >? 0) = true).
  { destruct m; [congruence|]. cbn [length]. apply Z.gtb_lt. lia. }
  rewrite Hsize.
  assert (E : ((byte_at m 0 >=? 128) && (byte_at m 0 <? 240)
               && (Z.of_nat (length m) =? midimsg_size (byte_at m 0))
               || (byte_at m 0 =? 240) || (byte_at m 0 =? 255)) = true).
  { destruct Hok as [[Hr Hl]|[Hx|Hx]].
    - rewrite Hl, Z.eqb_refl.
      replace (byte_at m 0 >=? 128) with true
        by (symmetry; apply Z.geb_le; lia).
      replace (byte_at m 0 <? 240) with true
        by (symmetry; apply Z.ltb_lt; lia).
      reflexivity.
    - rewrite Hx. rewrite orb_true_iff. left. apply orb_true_r.
    - rewrite Hx. apply orb_true_r. }
  rewrite E. cbn [negb andb]. rewrite andb_false_r.
  unfold queueMessage.
  replace (Z.of_nat (length m) <? 1) with false
    by (symmetry; apply Z.ltb_ge; apply Z.gtb_lt in Hsize; lia).
  unfold isOpenedDevice in Hc.
  replace (dev <? 0) with false in Hc by (symmetry; apply Z.ltb_ge; lia).
  replace (dev >=? 0) with true by (symmetry; apply Z.geb_le; lia).
  cbn [andb].
  assert (G : (dev >=? Z.of_nat (length (midiOutHandles s)))
              || negb (handle_open dev s) = true).
  { rewrite Z.geb_leb.
    destruct (Z.leb_spec (Z.of_nat (length (midiOutHandles s))) dev);
      [reflexivity|].
    replace (dev <? Z.of_nat (length (midiOutHandles s))) with true in Hc
      by (symmetry; apply Z.ltb_lt; lia).
    cbn [andb] in Hc. rewrite Hc. reflexivity. }
  rewrite G. reflexivity.
Qed.

(** * Instances of the theorems that have hypotheses *)

Lemma ticks_roundtrip_witness :
  let st := mkTempo (Fin 120) (Fin 2) (Fin 500) (Fin 1000) in
  (msecsToTicks st (ticksToMsecs st (Fin 1500)) == Fin 1500)%D /\
  msecsToTicks st (ticksToMsecs st PInf) = PInf.
Proof. apply (ticks_roundtrip 120 2 500 1000 1500). reflexivity. Defined.

(** C2 as the specification has it, for every tempo state with
    [currentTempo * tempoScale > 0], fails at an infinite tempo. The tempo
    event [FF 51 00 00 00], 0 microseconds per beat, taken off the queue at
    tick 480 and 480 ms after the start, sets the tempo to
    [6e7 / 0 = +infinity]. The product of tempo and scale is +infinity,
    which is above 0; [ticksToMsecs] takes tick 1000 to 480 ms, and
    [msecsToTicks] takes 480 ms to [0 * infinity], which is NaN and not
    tick 1000. *)
Lemma ticks_roundtrip_infinite_tempo :
  let e := mkElm DEV_DUMMY (Fin 480) 0 [0xff; 0x51; 0; 0; 0] 0 in
  let st := tempo_map (dispatch (Fin 480) (Fin 480) e startup_state) in
  currentTempo st = PInf /\
  dgtb (currentTempo st * tempoScale st) (Fin 0) = true /\
  ticksToMsecs st (Fin 1000) = Fin 480 /\
  msecsToTicks st (ticksToMsecs st (Fin 1000)) = NaN /\
  ~ (msecsToTicks st (ticksToMsecs st (Fin 1000)) == Fin 1000)%D.
Proof.
  vm_compute. split; [reflexivity|]. split; [reflexivity|].
  split; [reflexivity|]. split; [reflexivity|]. discriminate.
Qed.

Lemma retrigger_send_witness :
  let s := midiOutSendMessage 0 7 (SysDep.mkMsg [0x90; 60; 100] false)
             (snd (openDevice 1 true 0 startup_state)) in
  sent (midiOutSendMessage 0 7 (SysDep.mkMsg [0x90; 60; 100] false) s) =
  [(0, SysDep.mkMsg [0x90; 60; 100] false);
   (0, SysDep.mkMsg [0x90; 60; 0] false);
   (0, SysDep.mkMsg [0x90; 60; 100] false)] /\
  sent (midiOutSendMessage 0 7 (SysDep.mkMsg [0x80; 60; 0] false)
          (midiOutSendMessage 0 7 (SysDep.mkMsg [0x90; 60; 100] false) s)) =
  [(0, SysDep.mkMsg [0x90; 60; 100] false);
   (0, SysDep.mkMsg [0x90; 60; 0] false);
   (0, SysDep.mkMsg [0x90; 60; 100] false)].
Proof.
  split.
  - pose proof (proj1 (retrigger_send 0 7 0x90 60 100
                         (midiOutSendMessage 0 7
                            (SysDep.mkMsg [0x90; 60; 100] false)
                            (snd (openDevice 1 true 0 startup_state)))
                         eq_refl) eq_refl ltac:(lia)) as W.
    cbv zeta in W. destruct W as [_ [_ W]]. rewrite W. reflexivity.
  - pose proof (proj2 (retrigger_send 0 7 0x80 60 0
                         (midiOutSendMessage 0 7
                            (SysDep.mkMsg [0x90; 60; 100] false)
                            (midiOutSendMessage 0 7
                               (SysDep.mkMsg [0x90; 60; 100] false)
                               (snd (openDevice 1 true 0 startup_state))))
                         eq_refl) (or_introl eq_refl)) as W.
    cbv zeta in W. destruct W as [_ [_ W]]. rewrite W. reflexivity.
Defined.

Lemma cancel_messages_removes_witness :
  let s' := doCancelMessages sorting_heap 0 ALL_TRACKS playing_state in
  let kept :=
    filter (fun e => negb (cancel_hit 0 ALL_TRACKS e))
      (moEventQueue playing_state) in
  Permutation kept (moEventQueue s') /\
  (strict_weak_order greater kept -> is_heap greater (moEventQueue s')) /\
  (ALL_TRACKS = ALL_TRACKS ->
   (forall e, In e (moEventQueue s') -> devNum e <> 0) /\
   (0 <= 0 -> isOpenedDevice 0 playing_state = true ->
    entries_of 0 (cancelNoteMap s') = [])).
Proof.
  apply (cancel_messages_removes sorting_heap 0 ALL_TRACKS playing_state).
  - exact sorting_heap_contract.
  - repeat constructor.
Defined.

(** * The tempo map, further *)

Lemma Qinv_pos (x : Q) : (0 < x)%Q -> (0 < / x)%Q.
Proof. apply Qinv_lt_0_compat. Qed.

(** X1. For a finite tempo state with [currentTempo * tempoScale > 0],
    converting a time in milliseconds to ticks and back gives the time
    again: [ticksToMsecs (msecsToTicks m)] is [m]. *)
Theorem msecs_roundtrip (c s S T m : Q) :
  let st := mkTempo (Fin c) (Fin s) (Fin S) (Fin T) in
  dgtb (currentTempo st * tempoScale st) (Fin 0) = true ->
  (ticksToMsecs st (msecsToTicks st (Fin m)) == Fin m)%D.
Proof.
  intros st H. apply tempo_positive_nonzero in H.
  assert (Hne : ~ (c * s == 0)%Q) by lra.
  unfold msecsToTicks, ticksToMsecs, st; cbn.
  apply Qeq_bool_false_iff in Hne. rewrite Hne. cbn.
  apply Qeq_bool_false_iff in Hne.
  unfold deq; cbn. qprop. field.
  split; intro Hc; apply Hne; rewrite Hc; ring.
Qed.

Lemma msecs_roundtrip_witness :
  let st := mkTempo (Fin 120) (Fin 2) (Fin 500) (Fin 1000) in
  (ticksToMsecs st (msecsToTicks st (Fin 750)) == Fin 750)%D.
Proof. apply (msecs_roundtrip 120 2 500 1000 750). reflexivity. Defined.

(** X2. For a finite tempo state with [currentTempo * tempoScale > 0] both
    conversions are strictly increasing: a later tick is a later time, and
    a later time is a later tick. *)
Theorem conversions_increasing (c s S T a b : Q) :
  let st := mkTempo (Fin c) (Fin s) (Fin S) (Fin T) in
  dgtb (currentTempo st * tempoScale st) (Fin 0) = true ->
  (a < b)%Q ->
  dltb (ticksToMsecs st (Fin a)) (ticksToMsecs st (Fin b)) = true /\
  dltb (msecsToTicks st (Fin a)) (msecsToTicks st (Fin b)) = true.
Proof.
  intros st H Hab. apply tempo_positive_nonzero in H.
  assert (Hne : ~ (c * s == 0)%Q) by lra.
  unfold msecsToTicks, ticksToMsecs, st; cbn.
  apply Qeq_bool_false_iff in Hne. rewrite Hne. cbn.
  pose proof (Qinv_pos _ H) as Hk.
  split; qprop; unfold Qdiv.
  - set (k := (/ (c * s))%Q) in *.
    assert ((a + - T) * 125 * k < (b + - T) * 125 * k)%Q by nra. lra.
  - assert ((a + - S) * c * s == (a + - S) * (c * s))%Q as -> by ring.
    assert ((b + - S) * c * s == (b + - S) * (c * s))%Q as -> by ring.
    assert ((a + - S) * (c * s) < (b + - S) * (c * s))%Q by nra.
    assert (0 < / 125)%Q by reflexivity.
    set (k := (/ 125)%Q) in *. nra.
Qed.

Lemma conversions_increasing_witness :
  let st := mkTempo (Fin 120) (Fin 2) (Fin 500) (Fin 1000) in
  dltb (ticksToMsecs st (Fin 10)) (ticksToMsecs st (Fin 20)) = true /\
  dltb (msecsToTicks st (Fin 10)) (msecsToTicks st (Fin 20)) = true.
Proof.
  apply (conversions_increasing 120 2 500 1000 10 20); reflexivity.
Defined.

(** The tempo map a tempo event leaves. *)
Lemma dispatch_tempo_event ticks msecs e s :
  devNum e <> DEV_LOOPBACK ->
  byte_at (msg e) 0 = 0xff -> byte_at (msg e) 1 = M_TEMPO ->
  (5 <= length (msg e))%nat ->
  tempo_map (dispatch ticks msecs e s) =
  mkTempo
    (Fin 60000000
     / double_of_Z (Z.shiftl (byte_at (msg e) 2) 16
                    + Z.shiftl (byte_at (msg e) 3) 8
                    + byte_at (msg e) 4))%D
    (tempoScale (tempo_map s)) msecs ticks.
Proof.
  intros Hd H0 H1 Hl. unfold dispatch.
  apply Z.eqb_neq in Hd. rewrite Hd, H0, H1.
  change (0xff =? 0xff) with true. change (M_TEMPO =? M_TEMPO) with true.
  cbn [negb andb].
  replace (Z.of_nat (length (msg e)) >=? 5) with true
    by (symmetry; rewrite Z.geb_leb; apply Z.leb_le; lia).
  reflexivity.
Qed.

(** X3. A tempo event [FF 51 tt tt tt], of five bytes or more with
    [usec > 0] microseconds per beat in its bytes 2 to 4, taken off the
    queue for any device but the loopback at the wait target
    [(ticks, msecs)], sets the tempo to [6e7 / usec] beats per minute and
    anchors the map at the wait target: with a finite positive tempo scale,
    [msecs] and [ticks] correspond to each other in the new map, and every
    later tick lies later than [msecs]. *)
Theorem tempo_event_anchor (ticks msecs sc : Q) (e : mo_queue_elm)
    (s : mo_state) :
  devNum e <> DEV_LOOPBACK ->
  byte_at (msg e) 0 = 0xff -> byte_at (msg e) 1 = M_TEMPO ->
  (5 <= length (msg e))%nat ->
  let usec := Z.shiftl (byte_at (msg e) 2) 16
              + Z.shiftl (byte_at (msg e) 3) 8 + byte_at (msg e) 4 in
  0 < usec ->
  tempoScale (tempo_map s) = Fin sc -> (0 < sc)%Q ->
  let st' := tempo_map (dispatch (Fin ticks) (Fin msecs) e s) in
  (currentTempo st' == Fin (60000000 / inject_Z usec))%D /\
  (msecsToTicks st' (Fin msecs) == Fin ticks)%D /\
  (ticksToMsecs st' (Fin ticks) == Fin msecs)%D /\
  (forall t, (ticks < t)%Q ->
             dltb (Fin msecs) (ticksToMsecs st' (Fin t)) = true).
Proof.
  intros Hd H0 H1 Hl usec Hu Hsc Hpos st'.
  unfold st'. rewrite dispatch_tempo_event by assumption.
  fold usec. rewrite Hsc.
  assert (Hq : (0 < inject_Z usec)%Q).
  { change 0%Q with (inject_Z 0). rewrite <- Zlt_Qlt. exact Hu. }
  assert (Hne : ~ (inject_Z usec == 0)%Q) by lra.
  pose proof (Qinv_pos _ Hq) as Hk.
  assert (Hc : (0 < 60000000 / inject_Z usec)%Q).
  { unfold Qdiv. nra. }
  assert (Hcs : (0 < 60000000 / inject_Z usec * sc)%Q) by nra.
  assert (Hcs0 : ~ (60000000 / inject_Z usec * sc == 0)%Q) by lra.
  unfold msecsToTicks, ticksToMsecs, double_of_Z.
  cbn [currentTempo tempoScale lastTempoChangeS lastTempoChangeT].
  cbn [ddiv]. apply Qeq_bool_false_iff in Hne. rewrite Hne.
  apply Qeq_bool_false_iff in Hne.
  cbn [dmul dsub dadd dopp ddiv].
  change (Qeq_bool 125 0) with false. cbv iota.
  apply Qeq_bool_false_iff in Hcs0. rewrite Hcs0.
  apply Qeq_bool_false_iff in Hcs0.
  unfold deq. cbn [deqb dltb dadd].
  repeat split; qprop.
  - reflexivity.
  - field. exact Hne.
  - field. split; [exact Hne|].
    intro Hz. apply Hcs0. rewrite Hz. field. exact Hne.
  - intros t Ht. qprop.
    pose proof (Qinv_pos _ Hcs) as Hk2.
    unfold Qdiv at 1.
    set (k := (/ (60000000 / inject_Z usec * sc))%Q) in *.
    assert (0 < (t + - ticks) * 125 * k)%Q by nra. lra.
Qed.

Lemma tempo_event_anchor_witness :
  let e := mkElm DEV_DUMMY (Fin 480) 0 [0xff; 0x51; 0x07; 0xa1; 0x20] 0 in
  let st' := tempo_map (dispatch (Fin 480) (Fin 480) e startup_state) in
  (currentTempo st' == Fin (60000000 / inject_Z 500000))%D /\
  (msecsToTicks st' (Fin 480) == Fin 480)%D /\
  (ticksToMsecs st' (Fin 480) == Fin 480)%D /\
  (forall t, (480 < t)%Q ->
             dltb (Fin 480) (ticksToMsecs st' (Fin t)) = true).
Proof.
  apply (tempo_event_anchor 480 480 1
           (mkElm DEV_DUMMY (Fin 480) 0 [0xff; 0x51; 0x07; 0xa1; 0x20] 0)
           startup_state);
    try reflexivity; discriminate.
Defined.

(** X4. A tempo event of zero microseconds per beat makes the tempo
    infinite: with a finite positive tempo scale the product of tempo and
    scale is +infinity, so the scheduler goes on with timed waits, and
    every finite tick is mapped to the time of the event; all that is
    queued becomes due at once. *)
Theorem tempo_event_zero (ticks msecs sc t : Q) (e : mo_queue_elm)
    (s : mo_state) :
  devNum e <> DEV_LOOPBACK ->
  byte_at (msg e) 0 = 0xff -> byte_at (msg e) 1 = M_TEMPO ->
  (5 <= length (msg e))%nat ->
  Z.shiftl (byte_at (msg e) 2) 16 + Z.shiftl (byte_at (msg e) 3) 8
  + byte_at (msg e) 4 = 0 ->
  tempoScale (tempo_map s) = Fin sc -> (0 < sc)%Q ->
  let st' := tempo_map (dispatch (Fin ticks) (Fin msecs) e s) in
  currentTempo st' = PInf /\
  (currentTempo st' * tempoScale st')%D = PInf /\
  (ticksToMsecs st' (Fin t) == Fin msecs)%D.
Proof.
  intros Hd H0 H1 Hl Hu Hsc Hpos st'.
  unfold st'. rewrite dispatch_tempo_event by assumption.
  rewrite Hu, Hsc. unfold ticksToMsecs.
  cbn [currentTempo tempoScale lastTempoChangeS lastTempoChangeT].
  change (Fin 60000000 / double_of_Z 0)%D with PInf.
  assert (E : (PInf * Fin sc)%D = PInf).
  { cbn. unfold signed_inf.
    destruct (Qeq_bool sc 0) eqn:E0; qprop; [lra|].
    destruct (Qlt_bool 0 sc) eqn:E1; qprop; [reflexivity|lra]. }
  rewrite E. repeat split.
  unfold deq. cbn. qprop. ring.
Qed.

Lemma tempo_event_zero_witness :
  let e := mkElm DEV_DUMMY (Fin 480) 0 [0xff; 0x51; 0; 0; 0] 0 in
  let st' := tempo_map (dispatch (Fin 480) (Fin 480) e startup_state) in
  currentTempo st' = PInf /\
  (currentTempo st' * tempoScale st')%D = PInf /\
  (ticksToMsecs st' (Fin 100000) == Fin 480)%D.
Proof.
  apply (tempo_event_zero 480 480 1 100000
           (mkElm DEV_DUMMY (Fin 480) 0 [0xff; 0x51; 0; 0; 0] 0)
           startup_state);
    try reflexivity; discriminate.
Defined.

(** * The note map, further *)

(** The comparison [lessp] of the keys is a strict total order on the
    four fields: irreflexive, transitive, and two keys neither of which is
    below the other are the same key. *)
Lemma lessp_strict_total_order (k1 k2 k3 : NoteMap.key_type) :
  NoteMap.lessp k1 k1 = false /\
  (NoteMap.lessp k1 k2 = true -> NoteMap.lessp k2 k3 = true ->
   NoteMap.lessp k1 k3 = true) /\
  (NoteMap.lessp k1 k2 = false -> NoteMap.lessp k2 k1 = false -> k1 = k2).
Proof.
  split; [apply lessp_irrefl|]. split.
  - apply lessp_trans.
  - apply lessp_total.
Qed.

Lemma lessp_strict_total_order_witness :
  let a := NoteMap.mkKey 0 1 2 60 in
  let b := NoteMap.mkKey 0 1 3 (-1) in
  let c := NoteMap.mkKey 1 0 0 0 in
  NoteMap.lessp a b = true /\ NoteMap.lessp b c = true /\
  NoteMap.lessp a c = true /\ NoteMap.lessp a a = false.
Proof.
  intros a b c.
  destruct (lessp_strict_total_order a b c) as (Hi & Ht & _).
  split; [reflexivity|]. split; [reflexivity|].
  split; [apply Ht; reflexivity | exact Hi].
Defined.

Lemma equiv_sym k1 k2 : NoteMap.equiv k1 k2 = NoteMap.equiv k2 k1.
Proof. unfold NoteMap.equiv. apply andb_comm. Qed.

Lemma equiv_false_iff k1 k2 : NoteMap.equiv k1 k2 = false <-> k1 <> k2.
Proof.
  split.
  - intros E H. apply equiv_eq in H. congruence.
  - intro H. destruct (NoteMap.equiv k1 k2) eqn:E; [|reflexivity].
    apply equiv_eq in E. contradiction.
Qed.

Lemma find_assign key key' v m :
  NoteMap.find key' (NoteMap.assign key v m) =
  if NoteMap.equiv key key'
  then match NoteMap.find key m with Some _ => Some v | None => None end
  else NoteMap.find key' m.
Proof.
  induction m as [|[k c] r IH]; cbn [NoteMap.assign NoteMap.find].
  - destruct (NoteMap.equiv key key'); reflexivity.
  - destruct (NoteMap.equiv k key) eqn:Ek.
    + apply equiv_eq in Ek. subst k. cbn [NoteMap.find].
      destruct (NoteMap.equiv key key'); reflexivity.
    + cbn [NoteMap.find].
      destruct (NoteMap.equiv k key') eqn:Ek'.
      * apply equiv_eq in Ek'. subst key'.
        rewrite equiv_sym, Ek. reflexivity.
      * exact IH.
Qed.

Lemma find_insert key key' v m :
  NoteMap.ordered m ->
  NoteMap.find key' (NoteMap.insert key v m) =
  if NoteMap.equiv key key'
  then match NoteMap.find key m with Some c => Some c | None => Some v end
  else NoteMap.find key' m.
Proof.
  induction m as [|[k c] r IH]; intro Ho; cbn [NoteMap.insert NoteMap.find].
  - destruct (NoteMap.equiv key key'); reflexivity.
  - apply ordered_cons_inv in Ho. destruct Ho as [Hr Hlt]. cbn [fst] in Hlt.
    destruct (NoteMap.lessp key k) eqn:L1.
    + cbn [NoteMap.find].
      assert (Ek : NoteMap.equiv k key = false).
      { rewrite equiv_sym. apply lessp_not_equiv. exact L1. }
      rewrite Ek.
      rewrite (find_above key r)
        by (apply (Forall_lessp_trans key k); assumption).
      destruct (NoteMap.equiv key key'); reflexivity.
    + destruct (NoteMap.lessp k key) eqn:L2.
      * cbn [NoteMap.find].
        rewrite (lessp_not_equiv _ _ L2).
        destruct (NoteMap.equiv k key') eqn:Ek'.
        -- apply equiv_eq in Ek'. subst key'.
           rewrite equiv_sym, (lessp_not_equiv _ _ L2). reflexivity.
        -- apply IH. exact Hr.
      * pose proof (lessp_total _ _ L1 L2) as E. subst k.
        cbn [NoteMap.find]. rewrite equiv_refl.
        destruct (NoteMap.equiv key key'); reflexivity.
Qed.

Lemma find_erase key key' m :
  NoteMap.ordered m ->
  NoteMap.find key' (NoteMap.erase key m) =
  if NoteMap.equiv key key' then None else NoteMap.find key' m.
Proof.
  induction m as [|[k c] r IH]; intro Ho; cbn [NoteMap.erase NoteMap.find].
  - destruct (NoteMap.equiv key key'); reflexivity.
  - apply ordered_cons_inv in Ho. destruct Ho as [Hr Hlt]. cbn [fst] in Hlt.
    destruct (NoteMap.equiv k key) eqn:Ek.
    + apply equiv_eq in Ek. subst k.
      destruct (NoteMap.equiv key key') eqn:Ek'.
      * apply equiv_eq in Ek'. subst key'. apply find_above. exact Hlt.
      * reflexivity.
    + cbn [NoteMap.find].
      destruct (NoteMap.equiv k key') eqn:Ek'.
      * apply equiv_eq in Ek'. subst key'.
        rewrite equiv_sym, Ek. reflexivity.
      * apply IH. exact Hr.
Qed.

Lemma find_push d t c k key' m :
  NoteMap.ordered m ->
  NoteMap.find key' (snd (NoteMap.push d t c k m)) =
  if NoteMap.equiv (NoteMap.mkKey d t c k) key'
  then Some (int_incr (NoteMap.count_of (NoteMap.mkKey d t c k) m))
  else NoteMap.find key' m.
Proof.
  intro Ho. unfold NoteMap.push. cbn [snd].
  rewrite find_assign, !find_insert by exact Ho.
  rewrite equiv_refl. unfold NoteMap.count_of.
  destruct (NoteMap.equiv (NoteMap.mkKey d t c k) key'); [|reflexivity].
  destruct (NoteMap.find (NoteMap.mkKey d t c k) m); reflexivity.
Qed.

Lemma find_pop d t c k key' m :
  NoteMap.ordered m ->
  NoteMap.find key' (snd (NoteMap.pop d t c k m)) =
  if NoteMap.equiv (NoteMap.mkKey d t c k) key'
  then match NoteMap.find (NoteMap.mkKey d t c k) m with
       | Some v => if int_decr v =? 0 then None else Some (int_decr v)
       | None => None
       end
  else NoteMap.find key' m.
Proof.
  intro Ho. unfold NoteMap.pop.
  destruct (NoteMap.find (NoteMap.mkKey d t c k) m) as [v|] eqn:F; cbn [snd].
  - destruct (int_decr v =? 0).
    + apply find_erase. exact Ho.
    + rewrite find_assign, F. reflexivity.
  - destruct (NoteMap.equiv (NoteMap.mkKey d t c k) key') eqn:E;
      [|reflexivity].
    apply equiv_eq in E. subst key'. exact F.
Qed.

Lemma ordered_push d t c k m :
  NoteMap.ordered m -> NoteMap.ordered (snd (NoteMap.push d t c k m)).
Proof.
  intro Ho. unfold NoteMap.push. cbn [snd].
  apply ordered_assign, ordered_insert, Ho.
Qed.

Lemma ordered_pop d t c k m :
  NoteMap.ordered m -> NoteMap.ordered (snd (NoteMap.pop d t c k m)).
Proof.
  intro Ho. unfold NoteMap.pop.
  destruct (NoteMap.find _ m); cbn [snd]; [|exact Ho].
  destruct (_ =? 0); [apply ordered_erase | apply ordered_assign]; exact Ho.
Qed.

Lemma find_positive key v m :
  positive m -> NoteMap.find key m = Some v -> 0 < v.
Proof.
  intros Hp F. apply find_In in F.
  unfold positive in Hp. rewrite Forall_forall in Hp.
  exact (Hp _ F).
Qed.

(** Two maps in order that hold the same count for every key are the same
    map. *)
Lemma ordered_ext m1 : forall m2,
  NoteMap.ordered m1 -> NoteMap.ordered m2 ->
  (forall key, NoteMap.find key m1 = NoteMap.find key m2) -> m1 = m2.
Proof.
  induction m1 as [|[k1 c1] r1 IH]; intros [|[k2 c2] r2] Ho1 Ho2 E.
  - reflexivity.
  - specialize (E k2). cbn in E. rewrite equiv_refl in E. discriminate.
  - specialize (E k1). cbn in E. rewrite equiv_refl in E. discriminate.
  - apply ordered_cons_inv in Ho1. destruct Ho1 as [Hr1 Hlt1].
    apply ordered_cons_inv in Ho2. destruct Ho2 as [Hr2 Hlt2].
    cbn [fst] in Hlt1, Hlt2.
    assert (Hk : k1 = k2).
    { apply lessp_total.
      - destruct (NoteMap.lessp k1 k2) eqn:L; [|reflexivity].
        pose proof (E k1) as E1. cbn [NoteMap.find] in E1.
        rewrite equiv_refl in E1.
        assert (Ek : NoteMap.equiv k2 k1 = false).
        { rewrite equiv_sym. apply lessp_not_equiv. exact L. }
        rewrite Ek in E1.
        rewrite (find_above k1 r2) in E1
          by (apply (Forall_lessp_trans k1 k2); assumption).
        discriminate.
      - destruct (NoteMap.lessp k2 k1) eqn:L; [|reflexivity].
        pose proof (E k2) as E2. cbn [NoteMap.find] in E2.
        rewrite equiv_refl in E2.
        assert (Ek : NoteMap.equiv k1 k2 = false).
        { rewrite equiv_sym. apply lessp_not_equiv. exact L. }
        rewrite Ek in E2.
        rewrite (find_above k2 r1) in E2
          by (apply (Forall_lessp_trans k2 k1); assumption).
        discriminate. }
    subst k2.
    pose proof (E k1) as E1. cbn [NoteMap.find] in E1.
    rewrite equiv_refl in E1. injection E1 as ->.
    f_equal. apply IH; try assumption.
    intro key. specialize (E key). cbn [NoteMap.find] in E.
    destruct (NoteMap.equiv k1 key) eqn:Ek; [|exact E].
    apply equiv_eq in Ek. subst key.
    rewrite !find_above by assumption. reflexivity.
Qed.

(** The count of the key after [push] and after [pop], and the other keys. *)
Lemma count_of_push d t c k m :
  NoteMap.ordered m ->
  NoteMap.count_of (NoteMap.mkKey d t c k) (snd (NoteMap.push d t c k m))
  = int_incr (NoteMap.count_of (NoteMap.mkKey d t c k) m).
Proof.
  intro Ho. unfold NoteMap.count_of at 1. rewrite find_push by exact Ho.
  rewrite equiv_refl. reflexivity.
Qed.

Lemma find_push_other d t c k key' m :
  NoteMap.ordered m -> key' <> NoteMap.mkKey d t c k ->
  NoteMap.find key' (snd (NoteMap.push d t c k m)) = NoteMap.find key' m.
Proof.
  intros Ho Hk. rewrite find_push by exact Ho.
  assert (E : NoteMap.equiv (NoteMap.mkKey d t c k) key' = false)
    by (apply equiv_false_iff; congruence).
  rewrite E. reflexivity.
Qed.

Lemma find_pop_key d t c k m :
  NoteMap.ordered m ->
  NoteMap.find (NoteMap.mkKey d t c k) (snd (NoteMap.pop d t c k m))
  = if fst (NoteMap.pop d t c k m) =? 0 then None
    else Some (fst (NoteMap.pop d t c k m)).
Proof.
  intro Ho. rewrite find_pop by exact Ho. rewrite equiv_refl.
  rewrite pop_returns_count.
  destruct (NoteMap.find (NoteMap.mkKey d t c k) m) as [v|]; reflexivity.
Qed.

Lemma count_of_pop d t c k m :
  NoteMap.ordered m ->
  NoteMap.count_of (NoteMap.mkKey d t c k) (snd (NoteMap.pop d t c k m))
  = fst (NoteMap.pop d t c k m).
Proof.
  intro Ho. unfold NoteMap.count_of at 1. rewrite find_pop_key by exact Ho.
  destruct (fst (NoteMap.pop d t c k m) =? 0) eqn:E; [|reflexivity].
  apply Z.eqb_eq in E. congruence.
Qed.

Lemma find_pop_other d t c k key' m :
  NoteMap.ordered m -> key' <> NoteMap.mkKey d t c k ->
  NoteMap.find key' (snd (NoteMap.pop d t c k m)) = NoteMap.find key' m.
Proof.
  intros Ho Hk. rewrite find_pop by exact Ho.
  assert (E : NoteMap.equiv (NoteMap.mkKey d t c k) key' = false)
    by (apply equiv_false_iff; congruence).
  rewrite E. reflexivity.
Qed.

Lemma pop_returns_positive d t c k m :
  positive m ->
  fst (NoteMap.pop d t c k m)
  = Z.max 0 (NoteMap.count_of (NoteMap.mkKey d t c k) m - 1).
Proof.
  intro Hp. rewrite pop_returns_count. unfold NoteMap.count_of.
  destruct (NoteMap.find (NoteMap.mkKey d t c k) m) as [v|] eqn:F;
    [|reflexivity].
  pose proof (find_positive _ _ _ Hp F).
  rewrite int_decr_positive by assumption. lia.
Qed.

(** The decrement undoes the increment, also across the end of the range. *)
Lemma int_decr_incr v : INT_MIN <= v -> int_decr (int_incr v) = v.
Proof.
  unfold int_decr, int_incr, INT_MIN, INT_MAX. intro H.
  destruct (Z.eqb_spec v 2147483647) as [->|N]; [reflexivity|].
  destruct (Z.eqb_spec (v + 1) (-2147483648)); lia.
Qed.

(** X5. [push] on a map in order: the value returned is the count the key
    had (0 for a key that was not there); the count of the key goes up by
    one, and from [INT_MAX], where the [int] overflows, it goes to
    [INT_MIN]; no other key changes, and the map stays in order. *)
Theorem push_piles (d t c k : Z) (m : NoteMap.note_map) :
  NoteMap.ordered m ->
  let key := NoteMap.mkKey d t c k in
  let r := NoteMap.push d t c k m in
  fst r = NoteMap.count_of key m /\
  NoteMap.count_of key (snd r) =
    (if NoteMap.count_of key m =? INT_MAX then INT_MIN
     else NoteMap.count_of key m + 1) /\
  (forall key', key' <> key ->
                NoteMap.find key' (snd r) = NoteMap.find key' m) /\
  NoteMap.ordered (snd r).
Proof.
  intros Ho key r. unfold r.
  split; [apply push_returns_count; exact Ho|].
  split; [|split].
  - apply count_of_push. exact Ho.
  - intros key' Hk. apply find_push_other; assumption.
  - apply ordered_push. exact Ho.
Qed.

Lemma push_piles_witness :
  let m := [(NoteMap.mkKey 0 7 3 60, 2);
            (NoteMap.mkKey 0 7 3 64, 2147483647)] in
  (let r := NoteMap.push 0 7 3 60 m in
   fst r = 2 /\
   NoteMap.count_of (NoteMap.mkKey 0 7 3 60) (snd r) = 3 /\
   (forall key', key' <> NoteMap.mkKey 0 7 3 60 ->
                 NoteMap.find key' (snd r) = NoteMap.find key' m) /\
   NoteMap.ordered (snd r)) /\
  (let r := NoteMap.push 0 7 3 64 m in
   fst r = 2147483647 /\
   NoteMap.count_of (NoteMap.mkKey 0 7 3 64) (snd r) = -2147483648 /\
   (forall key', key' <> NoteMap.mkKey 0 7 3 64 ->
                 NoteMap.find key' (snd r) = NoteMap.find key' m) /\
   NoteMap.ordered (snd r)).
Proof.
  split.
  - apply (push_piles 0 7 3 60
             [(NoteMap.mkKey 0 7 3 60, 2);
              (NoteMap.mkKey 0 7 3 64, 2147483647)]).
    repeat constructor.
  - apply (push_piles 0 7 3 64
             [(NoteMap.mkKey 0 7 3 60, 2);
              (NoteMap.mkKey 0 7 3 64, 2147483647)]).
    repeat constructor.
Defined.

(** X6. [pop] on a map in order with positive counts: the count of the key
    goes down by one, not below 0, the value returned is the count that is
    left, a key whose count is 0 is not in the map any more, no other key
    changes, and the map stays in order with positive counts. *)
Theorem pop_unpiles (d t c k : Z) (m : NoteMap.note_map) :
  NoteMap.ordered m -> positive m ->
  let key := NoteMap.mkKey d t c k in
  let r := NoteMap.pop d t c k m in
  fst r = Z.max 0 (NoteMap.count_of key m - 1) /\
  NoteMap.count_of key (snd r) = fst r /\
  (fst r = 0 -> NoteMap.find key (snd r) = None) /\
  (forall key', key' <> key ->
                NoteMap.find key' (snd r) = NoteMap.find key' m) /\
  NoteMap.ordered (snd r) /\ positive (snd r).
Proof.
  intros Ho Hp key r. unfold r.
  split; [apply pop_returns_positive; exact Hp|].
  split; [apply count_of_pop; exact Ho|].
  split; [|split; [|split]].
  - intro E. unfold key. rewrite find_pop_key, E by exact Ho. reflexivity.
  - intros key' Hk. apply find_pop_other; assumption.
  - apply ordered_pop. exact Ho.
  - apply positive_pop. exact Hp.
Qed.

Lemma pop_unpiles_witness :
  let m := [(NoteMap.mkKey 0 7 3 60, 2); (NoteMap.mkKey 0 7 3 64, 1)] in
  let r := NoteMap.pop 0 7 3 64 m in
  fst r = Z.max 0 (1 - 1) /\
  NoteMap.count_of (NoteMap.mkKey 0 7 3 64) (snd r) = fst r /\
  (fst r = 0 -> NoteMap.find (NoteMap.mkKey 0 7 3 64) (snd r) = None) /\
  (forall key', key' <> NoteMap.mkKey 0 7 3 64 ->
                NoteMap.find key' (snd r) = NoteMap.find key' m) /\
  NoteMap.ordered (snd r) /\ positive (snd r).
Proof.
  apply (pop_unpiles 0 7 3 64
           [(NoteMap.mkKey 0 7 3 60, 2); (NoteMap.mkKey 0 7 3 64, 1)]).
  - repeat constructor.
  - repeat constructor.
Defined.

(** X7. On every map in order with positive counts, a [pop] undoes the
    [push] of the same key, also when the [push] takes the count from
    [INT_MAX] to [INT_MIN]: the map is the one before the [push], and the
    [pop] returns the count the key had then. *)
Theorem push_pop_roundtrip (d t c k : Z) (m : NoteMap.note_map) :
  NoteMap.ordered m -> positive m ->
  let pushed := snd (NoteMap.push d t c k m) in
  NoteMap.pop d t c k pushed
  = (NoteMap.count_of (NoteMap.mkKey d t c k) m, m).
Proof.
  intros Ho Hp pushed.
  assert (Hop : NoteMap.ordered pushed) by (apply ordered_push; exact Ho).
  assert (Hc : 0 <= NoteMap.count_of (NoteMap.mkKey d t c k) m)
    by (apply count_of_nonneg; exact Hp).
  assert (Hdi : int_decr (int_incr (NoteMap.count_of (NoteMap.mkKey d t c k) m))
                = NoteMap.count_of (NoteMap.mkKey d t c k) m)
    by (apply int_decr_incr; unfold INT_MIN; lia).
  rewrite (surjective_pairing (NoteMap.pop d t c k pushed)). f_equal.
  - rewrite pop_returns_count. unfold pushed.
    rewrite find_push by exact Ho. rewrite equiv_refl. exact Hdi.
  - apply ordered_ext; [apply ordered_pop; exact Hop | exact Ho |].
    intro key'. rewrite find_pop by exact Hop. unfold pushed.
    rewrite !find_push by exact Ho. rewrite equiv_refl.
    destruct (NoteMap.equiv (NoteMap.mkKey d t c k) key') eqn:E;
      [|reflexivity].
    apply equiv_eq in E. subst key'. rewrite Hdi.
    unfold NoteMap.count_of.
    destruct (NoteMap.find (NoteMap.mkKey d t c k) m) as [v|] eqn:F.
    + pose proof (find_positive _ _ _ Hp F).
      destruct (v =? 0) eqn:E0; [apply Z.eqb_eq in E0; lia|reflexivity].
    + reflexivity.
Qed.

Lemma push_pop_roundtrip_witness :
  (let m := snd (NoteMap.push 0 7 3 60 (snd (NoteMap.push 0 7 3 64 []))) in
   NoteMap.pop 0 7 3 60 (snd (NoteMap.push 0 7 3 60 m))
   = (NoteMap.count_of (NoteMap.mkKey 0 7 3 60) m, m)) /\
  (let m := [(NoteMap.mkKey 0 7 3 60, 2147483647)] in
   NoteMap.pop 0 7 3 60 (snd (NoteMap.push 0 7 3 60 m)) = (2147483647, m)).
Proof.
  split.
  - apply (push_pop_roundtrip 0 7 3 60
             (snd (NoteMap.push 0 7 3 60 (snd (NoteMap.push 0 7 3 64 []))))).
    + repeat constructor.
    + repeat constructor.
  - apply (push_pop_roundtrip 0 7 3 60
             [(NoteMap.mkKey 0 7 3 60, 2147483647)]).
    + repeat constructor.
    + repeat constructor.
Defined.

(** [set] only makes an entry: on a map in order it gives the key the
    count asked for when the key is not there, and leaves the map as it is
    when the key is there, whatever count it holds. *)
Lemma set_keeps_existing (d t c k v : Z) (m : NoteMap.note_map) :
  NoteMap.ordered m ->
  let key := NoteMap.mkKey d t c k in
  (NoteMap.find key m = None ->
   NoteMap.find key (NoteMap.set d t c k v m) = Some v) /\
  (NoteMap.find key m <> None -> NoteMap.set d t c k v m = m) /\
  (forall key', key' <> key ->
     NoteMap.find key' (NoteMap.set d t c k v m) = NoteMap.find key' m).
Proof.
  intros Ho key. unfold NoteMap.set. fold key. split; [|split].
  - intro F. rewrite find_insert by exact Ho. rewrite equiv_refl, F.
    reflexivity.
  - intro F. apply ordered_ext; [apply ordered_insert; exact Ho|exact Ho|].
    intro key'. rewrite find_insert by exact Ho.
    destruct (NoteMap.equiv key key') eqn:E; [|reflexivity].
    apply equiv_eq in E. subst key'.
    destruct (NoteMap.find key m); [reflexivity|congruence].
  - intros key' Hk. rewrite find_insert by exact Ho.
    assert (E : NoteMap.equiv key key' = false)
      by (apply equiv_false_iff; congruence).
    rewrite E. reflexivity.
Qed.

Lemma set_keeps_existing_witness :
  let m := [(NoteMap.mkKey 0 7 3 (-1), 1)] in
  NoteMap.set 0 7 3 (-1) 1 m = m /\
  NoteMap.find (NoteMap.mkKey 0 7 4 (-1)) (NoteMap.set 0 7 4 (-1) 1 m)
  = Some 1.
Proof.
  intro m. split.
  - apply (set_keeps_existing 0 7 3 (-1) 1 m); [repeat constructor|].
    discriminate.
  - apply (set_keeps_existing 0 7 4 (-1) 1 m); [repeat constructor|].
    reflexivity.
Defined.

(** In a map in order the entries of a device, a track and a channel lie
    side by side. *)
Lemma drop_run_prefix_hit d t c m :
  NoteMap.ordered m ->
  drop_run (NoteMap.prefix_hit d t c) m =
  filter (fun e => negb (NoteMap.prefix_hit d t c (fst e))) m.
Proof.
  apply (drop_run_filter (NoteMap.prefix_hit d t c)
           (fun k => (d <? NoteMap.devNum k)
                     || ((NoteMap.devNum k =? d)
                         && ((t <? NoteMap.tk k)
                             || ((NoteMap.tk k =? t)
                                 && (c <? NoteMap.ch k)))))).
  - intros k. unfold NoteMap.prefix_hit. intro Hk. bprop. intuition lia.
  - intros [d1 t1 c1 n1] [d2 t2 c2 n2]. unfold NoteMap.lessp.
    cbn [NoteMap.devNum NoteMap.tk NoteMap.ch NoteMap.n].
    intros L A. bprop. intuition lia.
  - intros [d1 t1 c1 n1] [d2 t2 c2 n2].
    unfold NoteMap.lessp, NoteMap.prefix_hit.
    cbn [NoteMap.devNum NoteMap.tk NoteMap.ch NoteMap.n].
    intros L A. bprop. intuition lia.
Qed.

Lemma clear_filter d t c m :
  NoteMap.ordered m ->
  NoteMap.clear d t c m =
  filter (fun e => negb (NoteMap.prefix_hit d t c (fst e))) m.
Proof. intro Ho. rewrite clear_drop_run. apply drop_run_prefix_hit, Ho. Qed.

Lemma find_filter (p : NoteMap.key_type -> bool) key m :
  NoteMap.find key (filter (fun e => p (fst e)) m) =
  if p key then NoteMap.find key m else None.
Proof.
  induction m as [|[k v] r IH]; cbn [filter NoteMap.find fst].
  - destruct (p key); reflexivity.
  - destruct (p k) eqn:Pk; cbn [NoteMap.find].
    + destruct (NoteMap.equiv k key) eqn:E; [|exact IH].
      apply equiv_eq in E. subst k. rewrite Pk. reflexivity.
    + destruct (NoteMap.equiv k key) eqn:E; [|exact IH].
      apply equiv_eq in E. subst k. rewrite IH, Pk. reflexivity.
Qed.

(** X8. [clear(devNum, tk, ch)] on a map in order takes out all the
    entries of that device, track and channel, wherever they are, and
    nothing else: the keys left keep their counts and their order. *)
Theorem clear_channel (d t c : Z) (m : NoteMap.note_map) :
  NoteMap.ordered m ->
  let m' := NoteMap.clear d t c m in
  m' = filter (fun e => negb (NoteMap.prefix_hit d t c (fst e))) m /\
  (forall k, NoteMap.find (NoteMap.mkKey d t c k) m' = None) /\
  (forall key, NoteMap.prefix_hit d t c key = false ->
               NoteMap.find key m' = NoteMap.find key m) /\
  NoteMap.ordered m'.
Proof.
  intros Ho m'. unfold m'. rewrite clear_filter by exact Ho.
  split; [reflexivity|]. split; [|split].
  - intro k.
    rewrite (find_filter (fun k => negb (NoteMap.prefix_hit d t c k))).
    unfold NoteMap.prefix_hit. cbn. rewrite !Z.eqb_refl. reflexivity.
  - intros key Hk.
    rewrite (find_filter (fun k => negb (NoteMap.prefix_hit d t c k))).
    rewrite Hk. reflexivity.
  - rewrite <- clear_filter by exact Ho. rewrite clear_drop_run.
    apply ordered_drop_run. exact Ho.
Qed.

Lemma clear_channel_witness :
  let m := [(NoteMap.mkKey 0 0 2 72, 1); (NoteMap.mkKey 0 0 3 60, 2);
            (NoteMap.mkKey 0 0 3 64, 1); (NoteMap.mkKey 0 0 4 60, 1)] in
  NoteMap.clear 0 0 3 m
  = [(NoteMap.mkKey 0 0 2 72, 1); (NoteMap.mkKey 0 0 4 60, 1)] /\
  (forall k, NoteMap.find (NoteMap.mkKey 0 0 3 k) (NoteMap.clear 0 0 3 m)
             = None).
Proof.
  intro m.
  destruct (clear_channel 0 0 3 m) as (E & F & _); [repeat constructor|].
  split; [exact E | exact F].
Defined.

(** [clearAndCall(devNum, tk, func)] on a map in order: the function
    is called once for every entry of the device and track (of the device
    alone for [ALL_TRACKS]), in the order of the keys, with the channel,
    the note and the count of the entry, and just these entries are
    taken out of the map. *)
Lemma clearAndCall_entries {St : Type} (d t : Z)
    (func : Z -> Z -> Z -> Z -> Z -> St -> St) (m : NoteMap.note_map)
    (s : St) :
  NoteMap.ordered m ->
  NoteMap.clearAndCall d t func m s =
  (filter (fun e => negb (NoteMap.track_hit d t (fst e))) m,
   fold_left
     (fun s e =>
        func d t (NoteMap.ch (fst e)) (NoteMap.n (fst e)) (snd e) s)
     (filter (fun e => NoteMap.track_hit d t (fst e)) m) s).
Proof.
  intro Ho. rewrite clearAndCall_drop_run.
  rewrite drop_run_track_hit by exact Ho. reflexivity.
Qed.

Lemma clearAndCall_entries_witness :
  let m := [(NoteMap.mkKey 0 5 0 60, 1); (NoteMap.mkKey 1 3 0 60, 2);
            (NoteMap.mkKey 1 4 9 36, 1); (NoteMap.mkKey 2 3 0 60, 1)] in
  NoteMap.clearAndCall 1 ALL_TRACKS
    (fun _ _ ch n count (log : list (Z * Z * Z)) => log ++ [(ch, n, count)])
    m []
  = ([(NoteMap.mkKey 0 5 0 60, 1); (NoteMap.mkKey 2 3 0 60, 1)],
     [(0, 60, 2); (9, 36, 1)]).
Proof.
  intro m.
  rewrite (clearAndCall_entries 1 ALL_TRACKS
             (fun _ _ ch n count (log : list (Z * Z * Z)) =>
                log ++ [(ch, n, count)]) m []).
  - reflexivity.
  - repeat constructor.
Defined.

(** * The device table *)

Lemma nth_store_nat {A : Type} (q : list A) (d : A) : forall (i k : nat) (e : A),
  (i < length q)%nat ->
  nth k (firstn i q ++ e :: skipn (S i) q) d =
  if Nat.eqb k i then e else nth k q d.
Proof.
  induction q as [|x q IH]; intros i k e Hi; cbn [length] in Hi; [lia|].
  destruct i as [|i]; destruct k as [|k]; cbn; try reflexivity.
  apply IH. lia.
Qed.

Lemma length_store_nat {A : Type} (q : list A) (i : nat) (e : A) :
  (i < length q)%nat -> length (firstn i q ++ e :: skipn (S i) q) = length q.
Proof.
  intro Hi. rewrite length_app. cbn [length].
  rewrite length_firstn, length_skipn. lia.
Qed.

Lemma nth_app_repeat (hs : list bool) (n k : nat) :
  nth k (hs ++ repeat false n) false = nth k hs false.
Proof.
  destruct (Nat.lt_ge_cases k (length hs)) as [L|L].
  - apply app_nth1. exact L.
  - rewrite app_nth2 by exact L. rewrite (nth_overflow hs) by exact L.
    apply nth_repeat.
Qed.

Lemma isOpenedDevice_handle d s :
  0 <= d -> isOpenedDevice d s = handle_open d s.
Proof.
  intro Hd. unfold isOpenedDevice, handle_open.
  replace (d <? 0) with false by (symmetry; apply Z.ltb_ge; lia).
  destruct (d <? Z.of_nat (length (midiOutHandles s))) eqn:E;
    [reflexivity|].
  apply Z.ltb_ge in E. cbn [andb]. symmetry.
  apply nth_overflow. lia.
Qed.

Lemma isOpenedDevice_negative d s : d < 0 -> isOpenedDevice d s = true.
Proof.
  intro Hd. unfold isOpenedDevice.
  replace (d <? 0) with true by (symmetry; apply Z.ltb_lt; lia).
  reflexivity.
Qed.

(** The handles [openDevice] leaves for a device number in range. *)
Lemma openDevice_handles n p d s :
  0 <= d < n ->
  forall k,
    nth k (midiOutHandles (snd (openDevice n p d s))) false =
    if Nat.eqb k (Z.to_nat d) && p then true
    else nth k (midiOutHandles s) false.
Proof.
  intros Hd k. unfold openDevice.
  replace (d <? 0) with false by (symmetry; apply Z.ltb_ge; lia).
  replace (d >=? n) with false
    by (symmetry; rewrite Z.geb_leb; apply Z.leb_gt; lia).
  set (hs := if Z.of_nat (length (midiOutHandles s)) <=? d
             then midiOutHandles s
                  ++ repeat false
                       (Z.to_nat d + 1 - length (midiOutHandles s))
             else midiOutHandles s).
  assert (Hnth : forall j, nth j hs false = nth j (midiOutHandles s) false).
  { intro j. unfold hs. destruct (_ <=? d); [apply nth_app_repeat|reflexivity]. }
  assert (Hlen : (Z.to_nat d < length hs)%nat).
  { unfold hs. destruct (Z.of_nat (length (midiOutHandles s)) <=? d) eqn:E.
    - apply Z.leb_le in E. rewrite length_app, repeat_length. lia.
    - apply Z.leb_gt in E. lia. }
  destruct (nth (Z.to_nat d) hs false) eqn:Eo.
  - cbn [snd midiOutHandles set_midiOutHandles]. rewrite Hnth.
    destruct (Nat.eqb k (Z.to_nat d)) eqn:Ek; [|reflexivity].
    apply Nat.eqb_eq in Ek. subst k. rewrite <- Hnth, Eo.
    destruct p; reflexivity.
  - destruct p; cbn [snd midiOutHandles set_midiOutHandles].
    + rewrite nth_store_nat by exact Hlen.
      destruct (Nat.eqb k (Z.to_nat d)); [reflexivity|apply Hnth].
    + rewrite andb_false_r. apply Hnth.
Qed.

Lemma openDevice_error n p d s :
  0 <= d < n ->
  fst (openDevice n p d s) = negb (handle_open d s) && negb p.
Proof.
  intros Hd. unfold openDevice, handle_open.
  replace (d <? 0) with false by (symmetry; apply Z.ltb_ge; lia).
  replace (d >=? n) with false
    by (symmetry; rewrite Z.geb_leb; apply Z.leb_gt; lia).
  set (hs := if Z.of_nat (length (midiOutHandles s)) <=? d
             then midiOutHandles s
                  ++ repeat false
                       (Z.to_nat d + 1 - length (midiOutHandles s))
             else midiOutHandles s).
  assert (Hnth : forall j, nth j hs false = nth j (midiOutHandles s) false).
  { intro j. unfold hs. destruct (_ <=? d); [apply nth_app_repeat|reflexivity]. }
  rewrite <- Hnth.
  destruct (nth (Z.to_nat d) hs false); [reflexivity|].
  destruct p; reflexivity.
Qed.

(** X10. [openDevice] seen through [isOpenedDevice]. The call reports an
    error just for a device number at or past the number of devices, and
    for a closed device in range that the platform does not open. After
    the call the device is open if it was open or the platform opened it;
    no other device changes, whether the call succeeds or not, and a
    negative device number changes nothing. *)
Theorem openDevice_opens (num_devs d : Z) (p : bool) (s : mo_state) :
  let r := openDevice num_devs p d s in
  fst r = (0 <=? d)
          && ((num_devs <=? d) || (negb (isOpenedDevice d s) && negb p)) /\
  forall d',
    isOpenedDevice d' (snd r) =
    if (d' =? d) && (0 <=? d) && (d <? num_devs) && p then true
    else isOpenedDevice d' s.
Proof.
  intro r. unfold r.
  destruct (Z.ltb_spec d 0) as [Hneg|Hpos].
  - (* negative device number *)
    replace (0 <=? d) with false by (symmetry; apply Z.leb_gt; lia).
    unfold openDevice.
    replace (d <? 0) with true by (symmetry; apply Z.ltb_lt; lia).
    split; [reflexivity|]. intro d'. cbn [snd].
    rewrite andb_false_r. reflexivity.
  - replace (0 <=? d) with true by (symmetry; apply Z.leb_le; lia).
    destruct (Z.ltb_spec d num_devs) as [Hin|Hout].
    + replace (num_devs <=? d) with false by (symmetry; apply Z.leb_gt; lia).
      split.
      * rewrite openDevice_error by lia.
        rewrite isOpenedDevice_handle by lia. reflexivity.
      * intro d'.
        replace (d <? num_devs) with true by (symmetry; apply Z.ltb_lt; lia).
        rewrite !andb_true_r.
        destruct (Z.ltb_spec d' 0) as [Hn'|Hp'].
        -- rewrite !isOpenedDevice_negative by lia.
           destruct (_ && _); reflexivity.
        -- rewrite !isOpenedDevice_handle by lia. unfold handle_open.
           rewrite openDevice_handles by lia.
           replace (Nat.eqb (Z.to_nat d') (Z.to_nat d)) with (d' =? d).
           ++ reflexivity.
           ++ destruct (Z.eqb_spec d' d) as [->|Hne].
              ** symmetry. apply Nat.eqb_refl.
              ** symmetry. apply Nat.eqb_neq. lia.
    + replace (num_devs <=? d) with true by (symmetry; apply Z.leb_le; lia).
      unfold openDevice.
      replace (d <? 0) with false by (symmetry; apply Z.ltb_ge; lia).
      replace (d >=? num_devs) with true
        by (symmetry; rewrite Z.geb_leb; apply Z.leb_le; lia).
      split; [reflexivity|]. intro d'. cbn [snd].
      rewrite andb_false_r. reflexivity.
Qed.

Lemma closeDevice_handles d s :
  0 <= d ->
  forall k,
    nth k (midiOutHandles (closeDevice d s)) false =
    if Nat.eqb k (Z.to_nat d) then false else nth k (midiOutHandles s) false.
Proof.
  intros Hd k. unfold closeDevice.
  replace (d <? 0) with false by (symmetry; apply Z.ltb_ge; lia).
  destruct (d <? Z.of_nat (length (midiOutHandles s))) eqn:L; cbn [andb].
  - apply Z.ltb_lt in L. unfold handle_open.
    destruct (nth (Z.to_nat d) (midiOutHandles s) false) eqn:E.
    + cbn [midiOutHandles set_midiOutHandles]. apply nth_store_nat. lia.
    + destruct (Nat.eqb k (Z.to_nat d)) eqn:Ek; [|reflexivity].
      apply Nat.eqb_eq in Ek. subst k. exact E.
  - apply Z.ltb_ge in L.
    destruct (Nat.eqb k (Z.to_nat d)) eqn:Ek; [|reflexivity].
    apply Nat.eqb_eq in Ek. subst k. apply nth_overflow. lia.
Qed.

Lemma closeDevice_frame d s :
  moEventQueue (closeDevice d s) = moEventQueue s /\
  cancelNoteMap (closeDevice d s) = cancelNoteMap s /\
  retriggerNoteMap (closeDevice d s) = retriggerNoteMap s /\
  sent (closeDevice d s) = sent s /\
  length (midiOutHandles (closeDevice d s)) = length (midiOutHandles s).
Proof.
  unfold closeDevice. destruct (d <? 0) eqn:N; [repeat split|].
  destruct (d <? Z.of_nat (length (midiOutHandles s))) eqn:L; cbn [andb];
    [|repeat split].
  destruct (handle_open d s); [|repeat split].
  apply Z.ltb_lt in L. apply Z.ltb_ge in N.
  repeat split. cbn [midiOutHandles set_midiOutHandles].
  apply length_store_nat. lia.
Qed.

(** X11. [closeDevice] seen through [isOpenedDevice]: the device is closed
    afterwards, no other device changes, and a message queued for the
    device afterwards is refused. The call only gives up the handle: the
    events waiting for the device stay in the queue, the notes sounding on
    it stay in the note maps, and nothing is sent. *)
Theorem closeDevice_closes (H : heap_algorithms) (d : Z) (s : mo_state) :
  0 <= d ->
  let s' := closeDevice d s in
  isOpenedDevice d s' = false /\
  (forall d', d' <> d -> isOpenedDevice d' s' = isOpenedDevice d' s) /\
  (forall ticks trk m, queueMessage H d ticks trk m s' = (true, s')) /\
  moEventQueue s' = moEventQueue s /\
  cancelNoteMap s' = cancelNoteMap s /\
  retriggerNoteMap s' = retriggerNoteMap s /\
  sent s' = sent s.
Proof.
  intros Hd s'.
  assert (Hc : isOpenedDevice d s' = false).
  { unfold s'. rewrite isOpenedDevice_handle by lia. unfold handle_open.
    rewrite closeDevice_handles by lia. rewrite Nat.eqb_refl. reflexivity. }
  split; [exact Hc|]. split; [|split].
  - intros d' Hne. unfold s'.
    destruct (Z.ltb_spec d' 0) as [Hn'|Hp'].
    + rewrite !isOpenedDevice_negative by lia. reflexivity.
    + rewrite !isOpenedDevice_handle by lia. unfold handle_open.
      rewrite closeDevice_handles by lia.
      replace (Nat.eqb (Z.to_nat d') (Z.to_nat d)) with false
        by (symmetry; apply Nat.eqb_neq; lia).
      reflexivity.
  - intros ticks trk m. unfold queueMessage.
    destruct (Z.of_nat (length m) <? 1); [reflexivity|].
    replace (d >=? 0) with true
      by (symmetry; rewrite Z.geb_leb; apply Z.leb_le; lia).
    unfold isOpenedDevice in Hc.
    replace (d <? 0) with false in Hc by (symmetry; apply Z.ltb_ge; lia).
    rewrite Z.geb_leb.
    destruct (Z.leb_spec (Z.of_nat (length (midiOutHandles s'))) d) as [L|L].
    + reflexivity.
    + replace (d <? Z.of_nat (length (midiOutHandles s'))) with true in Hc
        by (symmetry; apply Z.ltb_lt; lia).
      cbn [andb] in Hc. rewrite Hc. reflexivity.
  - unfold s'. destruct (closeDevice_frame d s) as (A & B & C & D & _).
    repeat split; assumption.
Qed.

Lemma closeDevice_closes_witness :
  let s' := closeDevice 0 playing_state in
  isOpenedDevice 0 playing_state = true /\
  length (moEventQueue s') = 2%nat /\
  (isOpenedDevice 0 s' = false /\
   (forall d', d' <> 0 -> isOpenedDevice d' s' = isOpenedDevice d' playing_state) /\
   (forall ticks trk m,
      queueMessage sorting_heap 0 ticks trk m s' = (true, s')) /\
   moEventQueue s' = moEventQueue playing_state /\
   cancelNoteMap s' = cancelNoteMap playing_state /\
   retriggerNoteMap s' = retriggerNoteMap playing_state /\
   sent s' = sent playing_state).
Proof.
  split; [reflexivity|]. split; [reflexivity|].
  apply (closeDevice_closes sorting_heap 0 playing_state). lia.
Defined.

(** * The facade and the queue *)

Lemma Z_range_forallb (P : Z -> bool) (lo : Z) (n : nat) :
  forallb P (map (fun i => lo + Z.of_nat i) (seq 0 n)) = true ->
  forall z, lo <= z < lo + Z.of_nat n -> P z = true.
Proof.
  intros Hall z Hz. rewrite forallb_forall in Hall. apply Hall.
  apply in_map_iff. exists (Z.to_nat (z - lo)). split; [lia|].
  apply in_seq. lia.
Qed.

(** The length table on the channel messages: two bytes for program change
    and channel pressure, three for the others. *)
Lemma midimsg_size_channel status :
  0x80 <= status < 0xf0 ->
  midimsg_size status =
  if (0xc0 <=? status) && (status <? 0xe0) then 2 else 3.
Proof.
  intro Hr.
  apply Z.eqb_eq.
  apply (Z_range_forallb
           (fun status =>
              midimsg_size status
              =? (if (0xc0 <=? status) && (status <? 0xe0) then 2 else 3))
           0x80 112); [vm_compute; reflexivity|lia].
Qed.

Lemma queueMessage_accepts H dev ticks trk m s :
  fst (queueMessage H dev ticks trk m s)
  = negb (negb (Z.of_nat (length m) <? 1) && isOpenedDevice dev s).
Proof.
  unfold queueMessage.
  destruct (Z.of_nat (length m) <? 1); [reflexivity|]. cbn [negb andb].
  destruct (Z.ltb_spec dev 0) as [Hn|Hp].
  - rewrite isOpenedDevice_negative by lia.
    replace (dev >=? 0) with false
      by (symmetry; rewrite Z.geb_leb; apply Z.leb_gt; lia).
    cbn [andb]. unfold new_mo_queue_elm. reflexivity.
  - replace (dev >=? 0) with true
      by (symmetry; rewrite Z.geb_leb; apply Z.leb_le; lia).
    unfold isOpenedDevice.
    replace (dev <? 0) with false by (symmetry; apply Z.ltb_ge; lia).
    rewrite Z.geb_leb, Z.leb_antisym.
    destruct (dev <? Z.of_nat (length (midiOutHandles s))); cbn [negb andb orb].
    + destruct (handle_open dev s); reflexivity.
    + reflexivity.
Qed.

Lemma queueMessage_refused H dev ticks trk m s :
  fst (queueMessage H dev ticks trk m s) = true ->
  snd (queueMessage H dev ticks trk m s) = s.
Proof.
  unfold queueMessage.
  destruct (Z.of_nat (length m) <? 1); [reflexivity|].
  destruct (_ && _); [reflexivity|].
  unfold new_mo_queue_elm. cbn [fst]. discriminate.
Qed.

(** X12. The outcome of [queue_message]. The call succeeds just when the
    message is not empty, the device is one [isOpenedDevice] reports open
    (a negative device number or an open output device), and the message
    is, unless it is for the loopback device, a channel message of the
    right size (two bytes for the status bytes C0-DF, three for the other
    status bytes from 80 to EF) or begins with F0 or FF. A call that
    raises an exception leaves the state as it was: nothing is queued and
    no counter is drawn. *)
Theorem queue_message_outcome (H : heap_algorithms) (dev : Z)
    (ticks : double) (trk : Z) (m : message_t) (s : mo_state) :
  let r := takt_queue_message H dev ticks trk m s in
  (fst r = Py_None <->
   m <> [] /\ isOpenedDevice dev s = true /\
   (dev = DEV_LOOPBACK \/
    (0x80 <= byte_at m 0 < 0xf0 /\
     length m = if (0xc0 <=? byte_at m 0) && (byte_at m 0 <? 0xe0)
                then 2%nat else 3%nat) \/
    byte_at m 0 = 0xf0 \/ byte_at m 0 = 0xff)) /\
  (fst r <> Py_None -> snd r = s).
Proof.
  intro r. unfold r, takt_queue_message.
  set (valid := (Z.of_nat (length m) >? 0)
                && ((byte_at m 0 >=? 128) && (byte_at m 0 <? 240)
                    && (Z.of_nat (length m) =? midimsg_size (byte_at m 0))
                    || (byte_at m 0 =? 240) || (byte_at m 0 =? 255))).
  assert (Hvalid : valid = true <->
            m <> [] /\
            ((0x80 <= byte_at m 0 < 0xf0 /\
              length m = if (0xc0 <=? byte_at m 0) && (byte_at m 0 <? 0xe0)
                         then 2%nat else 3%nat) \/
             byte_at m 0 = 0xf0 \/ byte_at m 0 = 0xff)).
  { unfold valid. rewrite andb_true_iff, !orb_true_iff, !andb_true_iff.
    rewrite Z.gtb_ltb, Z.ltb_lt, Z.geb_leb, Z.leb_le, Z.ltb_lt, !Z.eqb_eq.
    assert (Hm : 0 < Z.of_nat (length m) <-> m <> []).
    { destruct m; cbn [length]; split; intro; try lia; congruence. }
    rewrite Hm.
    assert (Hs : 0x80 <= byte_at m 0 < 0xf0 ->
              (Z.of_nat (length m) = midimsg_size (byte_at m 0) <->
               length m = if (0xc0 <=? byte_at m 0) && (byte_at m 0 <? 0xe0)
                          then 2%nat else 3%nat)).
    { intro Hr. rewrite midimsg_size_channel by exact Hr.
      destruct ((0xc0 <=? byte_at m 0) && (byte_at m 0 <? 0xe0)); lia. }
    intuition. }
  destruct (queueMessage H dev ticks trk m s) as [err s1] eqn:Q.
  pose proof (queueMessage_accepts H dev ticks trk m s) as Ha.
  pose proof (queueMessage_refused H dev ticks trk m s) as Hr.
  rewrite Q in Ha, Hr. cbn [fst snd] in Ha, Hr.
  assert (Hm : (Z.of_nat (length m) <? 1) = false <-> m <> []).
  { rewrite Z.ltb_ge. destruct m; cbn [length]; split; intro; try lia;
      congruence. }
  destruct (Z.eqb_spec dev DEV_LOOPBACK) as [Hl|Hl]; cbn [negb andb].
  - (* the loopback device *)
    destruct err; cbn [fst snd]; split.
    + split; [discriminate|]. intros (Hne & Ho & _).
      apply Hm in Hne. rewrite Hne, Ho in Ha. discriminate.
    + intros _. apply Hr. reflexivity.
    + split; [|reflexivity]. intros _.
      symmetry in Ha. apply negb_false_iff, andb_true_iff in Ha.
      destruct Ha as [A B]. apply negb_true_iff, Hm in A. auto.
    + congruence.
  - destruct valid eqn:V; cbn [negb fst snd].
    + destruct Hvalid as [Hv _]. destruct (Hv eq_refl) as [Hne Hok].
      destruct err; cbn [fst snd]; split.
      * split; [discriminate|]. intros (_ & Ho & _).
        apply Hm in Hne. rewrite Hne, Ho in Ha. discriminate.
      * intros _. apply Hr. reflexivity.
      * split; [|reflexivity]. intros _.
        symmetry in Ha. apply negb_false_iff, andb_true_iff in Ha.
        destruct Ha as [A B]. auto.
      * congruence.
    + split; [|reflexivity].
      split; [discriminate|]. intros (Hne & _ & [Hd|Hok]); [congruence|].
      assert (false = true) by (apply Hvalid; auto). discriminate.
Qed.

Lemma queue_message_outcome_witness :
  let s := snd (openDevice 1 true 0 startup_state) in
  fst (takt_queue_message sorting_heap 0 (Fin 0) 0 [0xc5; 10] s) = Py_None /\
  snd (takt_queue_message sorting_heap 0 (Fin 0) 0 [0xc5; 10; 0] s) = s.
Proof.
  intro s. split.
  - apply (queue_message_outcome sorting_heap 0 (Fin 0) 0 [0xc5; 10] s).
    split; [discriminate|]. split; [reflexivity|].
    right. left. split; [cbn; lia|reflexivity].
  - apply (queue_message_outcome sorting_heap 0 (Fin 0) 0 [0xc5; 10; 0] s).
    discriminate.
Defined.



Lemma playing_queue :
  moEventQueue playing_state
  = [mkElm 0 (Fin 500) 1 [0x90; 64; 90] 3;
     mkElm 0 (Fin 1000) 0 [0x80; 60; 0] 7].
Proof. vm_compute. reflexivity. Qed.

Lemma playing_queue_is_heap : is_heap greater (moEventQueue playing_state).
Proof.
  rewrite playing_queue. intros i p c Hi Hc Hp.
  destruct i as [|[|i]]; [lia| |].
  - cbn in Hc, Hp. injection Hc as <-. injection Hp as <-.
    vm_compute. reflexivity.
  - exfalso. cbn in Hc. destruct i; discriminate.
Qed.



(** * What the scheduler leaves alone *)

Lemma control_with_notes rm cm tr s :
  control (with_notes rm cm tr s) = control s.
Proof. reflexivity. Qed.

Lemma control_set_moEventQueue q s :
  control (set_moEventQueue q s) = control s.
Proof. reflexivity. Qed.

Lemma control_midiOutSendMessage d t m s :
  control (midiOutSendMessage d t m s) = control s.
Proof. rewrite midiOutSendMessage_with_notes. reflexivity. Qed.

Lemma control_dispatch ticks msecs e s :
  control (dispatch ticks msecs e s) = control s.
Proof.
  unfold dispatch.
  repeat match goal with
         | |- context [if ?b then _ else _] => destruct b
         end;
    try reflexivity; apply control_midiOutSendMessage.
Qed.

Lemma control_dispatch_loop H ticks msecs : forall budget s,
  control (snd (dispatch_loop H budget ticks msecs s)) = control s.
Proof.
  induction budget as [|b IH]; intro s; cbn [dispatch_loop]; [reflexivity|].
  destruct (moEventQueue s) as [|qtop rest]; [reflexivity|].
  destruct (dleb (time qtop) ticks); [|reflexivity].
  match goal with
  | |- context [dispatch_loop H b ticks msecs ?s2] =>
      specialize (IH s2); destruct (dispatch_loop H b ticks msecs s2)
  end.
  cbn [snd] in *. rewrite IH, control_set_moEventQueue.
  apply control_dispatch.
Qed.

(** [doStopAll] in one step. *)
Lemma doStopAll_closed s :
  doStopAll s =
  with_notes [] []
    (sent s ++ stop_trace (midiOutHandles s) (cancelNoteMap s))
    (set_moEventQueue [] s).
Proof.
  unfold doStopAll.
  destruct (fold_stopDevice_sends _ (NoDup_devices (length (midiOutHandles s)))
              s) as [rm [cm [E _]]].
  rewrite E. reflexivity.
Qed.

Lemma control_doStopAll s : control (doStopAll s) = control s.
Proof. rewrite doStopAll_closed. reflexivity. Qed.

(** [doCancelMessages] in one step. *)
Lemma doCancelMessages_closed H d t s :
  exists rm q2,
    Permutation q2
      (filter (fun e => negb (cancel_hit d t e)) (moEventQueue s)) /\
    doCancelMessages H d t s =
    with_notes rm
      (if (0 <=? d) && isOpenedDevice d s
       then drop_run (NoteMap.track_hit d t) (cancelNoteMap s)
       else cancelNoteMap s)
      (sent s
       ++ (if (0 <=? d) && isOpenedDevice d s
           then flat_map (cancel_msgs d)
                  (filter (fun e => NoteMap.track_hit d t (fst e))
                     (cancelNoteMap s))
           else []))
      (set_moEventQueue (make_heap H _ greater q2) s).
Proof.
  unfold doCancelMessages.
  pose proof (move_hits_keeps (cancel_hit d t) (moEventQueue s)) as K.
  destruct (move_hits (cancel_hit d t) (S (length (moEventQueue s)))
              (moEventQueue s) 0 (Z.of_nat (length (moEventQueue s)) - 1))
    as [q1 i].
  set (s1 := set_moEventQueue (make_heap H _ greater (firstn (Z.to_nat i) q1)) s).
  assert (G : (d >=? 0) && (d <? Z.of_nat (length (midiOutHandles s1)))
              && handle_open d s1
              = (0 <=? d) && isOpenedDevice d s).
  { unfold isOpenedDevice, handle_open, s1.
    cbn [midiOutHandles set_moEventQueue]. rewrite Z.geb_leb.
    destruct (Z.leb_spec 0 d) as [L|L]; [|reflexivity].
    replace (d <? 0) with false by (symmetry; apply Z.ltb_ge; lia).
    reflexivity. }
  rewrite G.
  destruct ((0 <=? d) && isOpenedDevice d s).
  - destruct (cancelNotes_sends d t s1) as [rm E].
    exists rm, (firstn (Z.to_nat i) q1). split; [exact K|].
    rewrite E. reflexivity.
  - exists (retriggerNoteMap s), (firstn (Z.to_nat i) q1).
    split; [exact K|].
    rewrite app_nil_r. symmetry. apply (with_notes_id s1).
Qed.

Lemma control_doCancelMessages H d t s :
  control (doCancelMessages H d t s) = control s.
Proof.
  destruct (doCancelMessages_closed H d t s) as (rm & q2 & _ & E).
  rewrite E. reflexivity.
Qed.

Lemma control_fold_doCancelMessages H (rs : list (Z * Z)) : forall s,
  control (fold_left (fun s r => doCancelMessages H (fst r) (snd r) s) rs s)
  = control s.
Proof.
  induction rs as [|r rs IH]; intro s; cbn [fold_left]; [reflexivity|].
  rewrite IH. apply control_doCancelMessages.
Qed.

(** * Messages go to open devices *)

Lemma sends_to_open_refl s : sends_to_open s s.
Proof. exists []. split; [symmetry; apply app_nil_r|constructor]. Qed.

Lemma sends_to_open_same s s' : sent s' = sent s -> sends_to_open s s'.
Proof.
  intro E. exists []. split; [rewrite app_nil_r; exact E|constructor].
Qed.

Lemma handles_control s s' :
  control s' = control s -> midiOutHandles s' = midiOutHandles s.
Proof. unfold control. congruence. Qed.

Lemma isOpenedDevice_handles d s s' :
  midiOutHandles s' = midiOutHandles s ->
  isOpenedDevice d s' = isOpenedDevice d s.
Proof.
  intro E. unfold isOpenedDevice, handle_open. rewrite E. reflexivity.
Qed.

Lemma sends_to_open_trans s1 s2 s3 :
  midiOutHandles s2 = midiOutHandles s1 ->
  sends_to_open s1 s2 -> sends_to_open s2 s3 -> sends_to_open s1 s3.
Proof.
  intros Ec (tr1 & E1 & F1) (tr2 & E2 & F2).
  exists (tr1 ++ tr2). split.
  - rewrite E2, E1, app_assoc. reflexivity.
  - apply Forall_app. split; [exact F1|].
    revert F2. apply Forall_impl. intros dm [A B].
    rewrite (isOpenedDevice_handles _ _ _ Ec) in B. auto.
Qed.

Lemma sends_to_open_queue q s s' :
  sends_to_open s s' -> sends_to_open s (set_moEventQueue q s').
Proof. intro H. exact H. Qed.

Lemma midiOutSendMessage_sent d t m s :
  exists tr,
    sent (midiOutSendMessage d t m s) = sent s ++ tr /\
    Forall (fun dm => fst dm = d) tr.
Proof.
  unfold midiOutSendMessage.
  repeat match goal with
         | |- context [NoteMap.pop ?a ?b ?c ?e ?f] =>
             destruct (NoteMap.pop a b c e f)
         | |- context [NoteMap.push ?a ?b ?c ?e ?f] =>
             destruct (NoteMap.push a b c e f)
         | |- context [if ?b then _ else _] => destruct b
         end;
    cbn;
    first [ exists []; split; [symmetry; apply app_nil_r|constructor]
          | eexists [_]; split; [reflexivity|repeat constructor]
          | eexists [_; _]; split;
            [rewrite <- app_assoc; reflexivity|repeat constructor] ].
Qed.

Lemma sends_to_open_dispatch ticks msecs e s :
  sends_to_open s (dispatch ticks msecs e s).
Proof.
  unfold dispatch.
  destruct (devNum e =? DEV_LOOPBACK);
    [apply sends_to_open_same; reflexivity|].
  destruct (negb (byte_at (msg e) 0 =? 255)).
  - destruct ((devNum e >=? 0) && handle_open (devNum e) s) eqn:G;
      [|apply sends_to_open_refl].
    apply andb_true_iff in G. destruct G as [G1 G2].
    rewrite Z.geb_leb in G1. apply Z.leb_le in G1.
    match goal with
    | |- sends_to_open _ (midiOutSendMessage ?d ?t ?m _) =>
        destruct (midiOutSendMessage_sent d t m s) as (tr & E & F)
    end.
    exists tr. split; [exact E|].
    revert F. apply Forall_impl. intros dm ->.
    rewrite isOpenedDevice_handle by exact G1. auto.
  - destruct (_ && _); apply sends_to_open_same; reflexivity.
Qed.

Lemma sends_to_open_dispatch_loop H ticks msecs : forall budget s,
  sends_to_open s (snd (dispatch_loop H budget ticks msecs s)).
Proof.
  induction budget as [|b IH]; intro s; cbn [dispatch_loop];
    [apply sends_to_open_refl|].
  destruct (moEventQueue s) as [|qtop rest]; [apply sends_to_open_refl|].
  destruct (dleb (time qtop) ticks); [|apply sends_to_open_refl].
  match goal with
  | |- context [dispatch_loop H b ticks msecs ?s2] =>
      specialize (IH s2); destruct (dispatch_loop H b ticks msecs s2)
  end.
  cbn [snd] in *.
  eapply sends_to_open_trans; [| |exact IH].
  - apply handles_control. rewrite control_set_moEventQueue.
    apply control_dispatch.
  - apply sends_to_open_queue, sends_to_open_dispatch.
Qed.

Lemma cancel_msgs_device d e :
  Forall (fun dm => fst dm = d) (cancel_msgs d e).
Proof.
  unfold cancel_msgs. destruct (_ =? -1).
  - repeat constructor.
  - apply Forall_forall. intros x Hx. apply repeat_spec in Hx. subst x.
    reflexivity.
Qed.

Lemma flat_map_cancel_msgs_device d l :
  Forall (fun dm => fst dm = d) (flat_map (cancel_msgs d) l).
Proof.
  induction l as [|e l IH]; cbn [flat_map]; [constructor|].
  apply Forall_app. split; [apply cancel_msgs_device|exact IH].
Qed.

Lemma broadcast_device d : Forall (fun dm => fst dm = d) (broadcast d).
Proof.
  unfold broadcast. generalize channels. intro l.
  induction l as [|c l IH]; cbn [flat_map]; [constructor|].
  apply Forall_app. split; [repeat constructor|exact IH].
Qed.

Lemma sends_to_open_doStopAll s : sends_to_open s (doStopAll s).
Proof.
  rewrite doStopAll_closed.
  exists (stop_trace (midiOutHandles s) (cancelNoteMap s)).
  split; [reflexivity|].
  unfold stop_trace. apply Forall_flat_map. apply Forall_forall.
  intros i Hi. apply in_map_iff in Hi. destruct Hi as (k & <- & Hk).
  destruct (nth (Z.to_nat (Z.of_nat k)) (midiOutHandles s) false) eqn:E;
    [|constructor].
  assert (Ho : 0 <= Z.of_nat k /\ isOpenedDevice (Z.of_nat k) s = true).
  { split; [lia|]. rewrite isOpenedDevice_handle by lia. exact E. }
  apply Forall_app. split.
  - generalize (flat_map_cancel_msgs_device (Z.of_nat k)
                  (entries_of (Z.of_nat k) (cancelNoteMap s))).
    apply Forall_impl. intros dm ->. exact Ho.
  - generalize (broadcast_device (Z.of_nat k)).
    apply Forall_impl. intros dm ->. exact Ho.
Qed.

Lemma sends_to_open_doCancelMessages H d t s :
  sends_to_open s (doCancelMessages H d t s).
Proof.
  destruct (doCancelMessages_closed H d t s) as (rm & q2 & _ & E).
  rewrite E.
  destruct ((0 <=? d) && isOpenedDevice d s) eqn:G.
  - apply andb_true_iff in G. destruct G as [G1 G2]. apply Z.leb_le in G1.
    eexists. split; [reflexivity|].
    generalize (flat_map_cancel_msgs_device d
                  (filter (fun e => NoteMap.track_hit d t (fst e))
                     (cancelNoteMap s))).
    apply Forall_impl. intros dm ->. auto.
  - exists []. split; [reflexivity|constructor].
Qed.

Lemma sends_to_open_fold_doCancelMessages H (rs : list (Z * Z)) : forall s,
  sends_to_open s
    (fold_left (fun s r => doCancelMessages H (fst r) (snd r) s) rs s).
Proof.
  induction rs as [|r rs IH]; intro s; cbn [fold_left];
    [apply sends_to_open_refl|].
  eapply sends_to_open_trans; [| |apply IH].
  - apply handles_control, control_doCancelMessages.
  - apply sends_to_open_doCancelMessages.
Qed.

(** * A turn of the scheduler thread *)

(** The stages of a turn that does not end the thread. *)
Lemma thread_wake_stages H tmout ticks msecs now s :
  shutdownRequest s = false ->
  exists msecs' s1 s2 s3,
    applyScaleRequest now msecs s = (msecs', s1) /\
    s2 = (if stopRequest s1
          then
            let s' := set_stopRequest false (doStopAll s1) in
            if negb (retriggerNotesChangeReq s' =? 0)
            then set_retriggerNotesChangeReq 0
                   (set_retriggerNotes
                      (negb (retriggerNotesChangeReq s' - 1 =? 0)) s')
            else s'
          else s1) /\
    s3 = set_cancelRequests []
           (fold_left (fun s r => doCancelMessages H (fst r) (snd r) s)
              (cancelRequests s2) s2) /\
    thread_wake H tmout ticks msecs now s =
    (true,
     if negb tmout then s3
     else snd (dispatch_loop H (length (moEventQueue s3)) ticks msecs' s3)).
Proof.
  intro Hs. unfold thread_wake. rewrite Hs.
  destruct (applyScaleRequest now msecs s) as [msecs' s1].
  eexists msecs', s1, _, _. split; [reflexivity|].
  split; [reflexivity|]. split; [reflexivity|].
  destruct (negb tmout); reflexivity.
Qed.

Lemma applyScaleRequest_frame now msecs s :
  let s1 := snd (applyScaleRequest now msecs s) in
  midiOutHandles s1 = midiOutHandles s /\
  shutdownRequest s1 = shutdownRequest s /\
  stopRequest s1 = stopRequest s /\
  tempoScaleChangeRequest s1 = false /\
  cancelRequests s1 = cancelRequests s /\
  retriggerNotes s1 = retriggerNotes s /\
  retriggerNotesChangeReq s1 = retriggerNotesChangeReq s /\
  currentCount s1 = currentCount s /\
  moEventQueue s1 = moEventQueue s /\
  retriggerNoteMap s1 = retriggerNoteMap s /\
  cancelNoteMap s1 = cancelNoteMap s /\
  sent s1 = sent s /\
  miEventQueue s1 = miEventQueue s.
Proof.
  unfold applyScaleRequest.
  destruct (tempoScaleChangeRequest s) eqn:E; cbn [snd];
    repeat split; try reflexivity. exact E.
Qed.

(** X14. Every call of [SysDep::midi_send] the scheduler thread makes in a
    turn, for stop, cancel or dispatch, goes to a device number that is
    not negative and whose handle is open at that moment: the thread
    never hands a null handle to the platform. *)
Theorem wake_sends_to_open_devices (H : heap_algorithms) (tmout : bool)
    (ticks msecs now : double) (s : mo_state) :
  exists tr,
    sent (snd (thread_wake H tmout ticks msecs now s)) = sent s ++ tr /\
    Forall (fun dm => 0 <= fst dm /\ isOpenedDevice (fst dm) s = true) tr.
Proof.
  change (sends_to_open s (snd (thread_wake H tmout ticks msecs now s))).
  destruct (shutdownRequest s) eqn:Hs.
  { unfold thread_wake. rewrite Hs. apply sends_to_open_same. reflexivity. }
  destruct (thread_wake_stages H tmout ticks msecs now s Hs)
    as (msecs' & s1 & s2 & s3 & E1 & E2 & E3 & E).
  rewrite E. cbn [snd].
  pose proof (applyScaleRequest_frame now msecs s) as F1.
  rewrite E1 in F1. cbn [snd] in F1.
  destruct F1 as (Fh & _ & _ & _ & _ & _ & _ & _ & _ & _ & _ & Fs & _).
  assert (A1 : sends_to_open s s1) by (apply sends_to_open_same; exact Fs).
  assert (A2 : sends_to_open s1 s2 /\ midiOutHandles s2 = midiOutHandles s1).
  { subst s2. destruct (stopRequest s1).
    - cbv zeta.
      destruct (negb (retriggerNotesChangeReq
                        (set_stopRequest false (doStopAll s1)) =? 0)).
      + split; [exact (sends_to_open_doStopAll s1)|].
        exact (handles_control _ _ (control_doStopAll s1)).
      + split; [exact (sends_to_open_doStopAll s1)|].
        exact (handles_control _ _ (control_doStopAll s1)).
    - split; [apply sends_to_open_refl|reflexivity]. }
  destruct A2 as [A2 H2].
  assert (A3 : sends_to_open s2 s3 /\ midiOutHandles s3 = midiOutHandles s2).
  { subst s3. split.
    - exact (sends_to_open_fold_doCancelMessages H (cancelRequests s2) s2).
    - exact (handles_control _ _
               (control_fold_doCancelMessages H (cancelRequests s2) s2)). }
  destruct A3 as [A3 H3].
  assert (A : sends_to_open s s3).
  { apply (sends_to_open_trans s s1 s3 Fh A1).
    apply (sends_to_open_trans s1 s2 s3 H2 A2 A3). }
  destruct (negb tmout); [exact A|].
  apply (sends_to_open_trans s s3); [congruence|exact A|].
  apply sends_to_open_dispatch_loop.
Qed.

(** X15. A turn of the scheduler thread that does not end it serves every
    request: afterwards no stop request, no tempo-scale request and no
    cancel request is pending. The turn changes neither the device table
    nor the counter of the queue elements, and the retrigger mode only on
    a stop request that comes with a mode change. *)
Theorem wake_serves_requests (H : heap_algorithms) (tmout : bool)
    (ticks msecs now : double) (s : mo_state) :
  shutdownRequest s = false ->
  let r := thread_wake H tmout ticks msecs now s in
  fst r = true /\
  control (snd r) =
  (midiOutHandles s, false, false, false, [], requestedTempoScale s,
   (if stopRequest s && negb (retriggerNotesChangeReq s =? 0)
    then negb (retriggerNotesChangeReq s - 1 =? 0)
    else retriggerNotes s),
   (if stopRequest s then 0 else retriggerNotesChangeReq s),
   currentCount s).
Proof.
  intros Hs r. unfold r.
  destruct (thread_wake_stages H tmout ticks msecs now s Hs)
    as (msecs' & s1 & s2 & s3 & E1 & E2 & E3 & E).
  rewrite E. cbn [fst snd]. split; [reflexivity|].
  assert (C1 : control s1 =
               (midiOutHandles s, false, stopRequest s, false,
                cancelRequests s, requestedTempoScale s, retriggerNotes s,
                retriggerNotesChangeReq s, currentCount s)).
  { unfold applyScaleRequest in E1.
    destruct (tempoScaleChangeRequest s) eqn:Et;
      injection E1 as <- <-; unfold control; cbn; rewrite ?Hs, ?Et;
      reflexivity. }
  assert (C2 : control s2 =
               (midiOutHandles s, false, false, false, cancelRequests s,
                requestedTempoScale s,
                (if stopRequest s && negb (retriggerNotesChangeReq s =? 0)
                 then negb (retriggerNotesChangeReq s - 1 =? 0)
                 else retriggerNotes s),
                (if stopRequest s then 0 else retriggerNotesChangeReq s),
                currentCount s)).
  { assert (Hst : stopRequest s1 = stopRequest s)
      by (unfold control in C1; congruence).
    subst s2. rewrite Hst. destruct (stopRequest s) eqn:Est.
    - cbv zeta. rewrite doStopAll_closed.
      unfold control in C1. injection C1 as D1 D2 D3 D4 D5 D6 D7 D8 D9.
      change (retriggerNotesChangeReq
                (set_stopRequest false
                   (with_notes [] []
                      (sent s1
                       ++ stop_trace (midiOutHandles s1) (cancelNoteMap s1))
                      (set_moEventQueue [] s1))))
        with (retriggerNotesChangeReq s1).
      rewrite D8. cbn [andb].
      destruct (negb (retriggerNotesChangeReq s =? 0)) eqn:En.
      + unfold control. cbn. rewrite D1, D2, D4, D5, D6, D9. reflexivity.
      + unfold control. cbn. rewrite D1, D2, D4, D5, D6, D7, D8, D9.
        apply negb_false_iff, Z.eqb_eq in En. rewrite En. reflexivity.
    - exact C1. }
  assert (C3 : control s3 =
               (midiOutHandles s, false, false, false, [],
                requestedTempoScale s,
                (if stopRequest s && negb (retriggerNotesChangeReq s =? 0)
                 then negb (retriggerNotesChangeReq s - 1 =? 0)
                 else retriggerNotes s),
                (if stopRequest s then 0 else retriggerNotesChangeReq s),
                currentCount s)).
  { pose proof (control_fold_doCancelMessages H (cancelRequests s2) s2) as Cf.
    rewrite C2 in Cf. unfold control in Cf.
    injection Cf as D1 D2 D3 D4 D5 D6 D7 D8 D9.
    subst s3. unfold control. cbn.
    rewrite D1, D2, D3, D4, D6, D7, D8, D9. reflexivity. }
  destruct (negb tmout); [exact C3|].
  rewrite control_dispatch_loop. exact C3.
Qed.

Lemma wake_serves_requests_witness :
  let s := cancelMessages 0 ALL_TRACKS
             (setTempoScale (Fin 2) (stopAll playing_state)) in
  let r := thread_wake sorting_heap true (Fin 500) (Fin 500) (Fin 400) s in
  cancelRequests s = [(0, ALL_TRACKS)] /\
  fst r = true /\
  control (snd r) =
  (midiOutHandles s, false, false, false, [], requestedTempoScale s,
   retriggerNotes s, 0, currentCount s).
Proof.
  split; [reflexivity|].
  apply (wake_serves_requests sorting_heap true (Fin 500) (Fin 500) (Fin 400)
           (cancelMessages 0 ALL_TRACKS
              (setTempoScale (Fin 2) (stopAll playing_state)))).
  reflexivity.
Defined.

(** X16. Shutdown. On a shutdown request the turn of the thread ends it
    and closes every device, whatever else is pending: no stop or cancel
    request is served, nothing is sent, and the events waiting in the
    queue are left there. *)
Theorem shutdown_closes_all (H : heap_algorithms) (tmout : bool)
    (ticks msecs now : double) (s : mo_state) :
  let r := thread_wake H tmout ticks msecs now (shutdown s) in
  fst r = false /\
  (forall d, 0 <= d -> isOpenedDevice d (snd r) = false) /\
  sent (snd r) = sent s /\
  moEventQueue (snd r) = moEventQueue s /\
  cancelNoteMap (snd r) = cancelNoteMap s.
Proof.
  unfold thread_wake, shutdown. cbn. split; [reflexivity|].
  split; [|repeat split].
  intros d Hd. rewrite isOpenedDevice_handle by exact Hd.
  unfold handle_open. cbn.
  generalize (Z.to_nat d). induction (midiOutHandles s) as [|h hs IH];
    intros [|k]; cbn; try reflexivity. apply IH.
Qed.

Lemma make_heap_nil H : heap_contract H ->
  forall A (comp : A -> A -> bool), make_heap H A comp [] = [].
Proof.
  intros HC A comp.
  apply Permutation_nil. apply (make_heap_perm H HC).
Qed.

Lemma set_cancelNoteMap_id s : set_cancelNoteMap (cancelNoteMap s) s = s.
Proof. destruct s; reflexivity. Qed.

Lemma set_moEventQueue_id s : set_moEventQueue (moEventQueue s) s = s.
Proof. destruct s; reflexivity. Qed.

Lemma cancelNotes_idle d t s : cancelNoteMap s = [] -> cancelNotes d t s = s.
Proof.
  intro E. unfold cancelNotes. rewrite clearAndCall_drop_run, E.
  unfold call_each. cbn. rewrite <- E. apply set_cancelNoteMap_id.
Qed.

(** With nothing queued and no note sounding a cancel request does
    nothing. *)
Lemma doCancelMessages_idle H d t s :
  heap_contract H -> moEventQueue s = [] -> cancelNoteMap s = [] ->
  doCancelMessages H d t s = s.
Proof.
  intros HC Eq Ec. unfold doCancelMessages. rewrite Eq. cbn.
  rewrite (make_heap_nil H HC). rewrite <- Eq, set_moEventQueue_id.
  destruct (_ && _); [|reflexivity].
  apply cancelNotes_idle, Ec.
Qed.

Lemma fold_doCancelMessages_idle H (rs : list (Z * Z)) s :
  heap_contract H -> moEventQueue s = [] -> cancelNoteMap s = [] ->
  fold_left (fun s r => doCancelMessages H (fst r) (snd r) s) rs s = s.
Proof.
  intros HC Eq Ec. induction rs as [|r rs IH]; cbn [fold_left];
    [reflexivity|].
  rewrite doCancelMessages_idle by assumption. exact IH.
Qed.

(** X17. [setRetrigger] implies a stop-all: once the scheduler thread has
    taken its turn after the call (the heap algorithms meeting their
    contract), the retrigger mode is the one asked for, the queue and both
    note maps are empty, and what was sent in between is the trace of the
    stop (note-offs for the notes sounding, then the All-Notes-Off,
    sustain-off and All-Sound-Off messages on every channel of each open
    device). *)
Theorem setRetrigger_applied (H : heap_algorithms) (enable tmout : bool)
    (ticks msecs now : double) (s : mo_state) :
  heap_contract H ->
  shutdownRequest s = false ->
  let s' := snd (thread_wake H tmout ticks msecs now (setRetrigger enable s)) in
  retriggerNotes s' = enable /\
  retriggerNotesChangeReq s' = 0 /\
  stopRequest s' = false /\
  moEventQueue s' = [] /\
  retriggerNoteMap s' = [] /\
  cancelNoteMap s' = [] /\
  sent s' = sent s ++ stop_trace (midiOutHandles s) (cancelNoteMap s).
Proof.
  intros HC Hs s'.
  assert (Hs0 : shutdownRequest (setRetrigger enable s) = false) by exact Hs.
  destruct (thread_wake_stages H tmout ticks msecs now _ Hs0)
    as (msecs' & s1 & s2 & s3 & E1 & E2 & E3 & E).
  unfold s'. rewrite E. cbn [snd]. clear s' E.
  pose proof (applyScaleRequest_frame now msecs (setRetrigger enable s)) as F1.
  rewrite E1 in F1. cbn [snd] in F1.
  destruct F1 as (Fh & _ & Fst & _ & _ & _ & Frq & _ & _ & _ & Fcm & Fs & _).
  assert (Hst : stopRequest s1 = true) by (rewrite Fst; reflexivity).
  assert (Hrq : retriggerNotesChangeReq s1 = (if enable then 1 else 0) + 1)
    by (rewrite Frq; reflexivity).
  rewrite Hst in E2. cbv zeta in E2.
  rewrite doStopAll_closed in E2.
  change (retriggerNotesChangeReq
            (set_stopRequest false
               (with_notes [] []
                  (sent s1 ++ stop_trace (midiOutHandles s1) (cancelNoteMap s1))
                  (set_moEventQueue [] s1))))
    with (retriggerNotesChangeReq s1) in E2.
  rewrite Hrq in E2.
  replace (negb ((if enable then 1 else 0) + 1 =? 0)) with true in E2
    by (destruct enable; reflexivity).
  replace (negb ((if enable then 1 else 0) + 1 - 1 =? 0)) with enable in E2
    by (destruct enable; reflexivity).
  assert (Q2 : moEventQueue s2 = [] /\ cancelNoteMap s2 = []).
  { subst s2. split; reflexivity. }
  destruct Q2 as [Q2 M2].
  rewrite (fold_doCancelMessages_idle H _ s2 HC Q2 M2) in E3.
  assert (R : retriggerNotes s3 = enable /\
              retriggerNotesChangeReq s3 = 0 /\
              stopRequest s3 = false /\
              moEventQueue s3 = [] /\
              retriggerNoteMap s3 = [] /\
              cancelNoteMap s3 = [] /\
              sent s3 =
              sent s ++ stop_trace (midiOutHandles s) (cancelNoteMap s)).
  { subst s3 s2. cbn. rewrite Fh, Fcm, Fs. repeat split. }
  destruct (negb tmout); [exact R|].
  destruct R as (R1 & R2 & R3 & R4 & R5 & R6 & R7).
  rewrite R4. cbn [length dispatch_loop snd]. repeat split; assumption.
Qed.

Lemma setRetrigger_applied_witness :
  let s' :=
    snd (thread_wake sorting_heap true (Fin 500) (Fin 500) (Fin 500)
           (setRetrigger false playing_state)) in
  retriggerNotes playing_state = true /\
  length (moEventQueue playing_state) = 2%nat /\
  (retriggerNotes s' = false /\
   retriggerNotesChangeReq s' = 0 /\
   stopRequest s' = false /\
   moEventQueue s' = [] /\
   retriggerNoteMap s' = [] /\
   cancelNoteMap s' = [] /\
   sent s' =
   sent playing_state
   ++ stop_trace (midiOutHandles playing_state) (cancelNoteMap playing_state)).
Proof.
  split; [reflexivity|]. split; [reflexivity|].
  apply (setRetrigger_applied sorting_heap false true (Fin 500) (Fin 500)
           (Fin 500) playing_state).
  - exact sorting_heap_contract.
  - reflexivity.
Defined.

Lemma miEventQueue_midiOutSendMessage d t m s :
  miEventQueue (midiOutSendMessage d t m s) = miEventQueue s.
Proof. rewrite midiOutSendMessage_with_notes. reflexivity. Qed.

Lemma miEventQueue_dispatch ticks msecs e s :
  miEventQueue (dispatch ticks msecs e s) =
  miEventQueue s
  ++ (if devNum e =? DEV_LOOPBACK then [relay_elm e] else []).
Proof.
  unfold dispatch.
  destruct (devNum e =? DEV_LOOPBACK); [reflexivity|].
  rewrite app_nil_r.
  repeat match goal with
         | |- context [if ?b then _ else _] => destruct b
         end;
    try reflexivity; apply miEventQueue_midiOutSendMessage.
Qed.

(** X18. The loopback device. The dispatch loop hands the events queued
    for the loopback device to the input relay in the order in which it
    takes them off the queue, each with the tick, the track and the bytes
    it was queued with, whatever the bytes are; the relay gets nothing
    else from the loop. *)
Theorem loopback_relay_order (H : heap_algorithms) (ticks msecs : double)
    (budget : nat) (s : mo_state) :
  let run := dispatch_loop H budget ticks msecs s in
  miEventQueue (snd run) =
  miEventQueue s
  ++ map relay_elm (filter (fun e => devNum e =? DEV_LOOPBACK) (fst run)).
Proof.
  revert s. induction budget as [|b IH]; intro s; cbn [dispatch_loop].
  - cbn. symmetry. apply app_nil_r.
  - destruct (moEventQueue s) as [|qtop rest];
      [cbn; symmetry; apply app_nil_r|].
    destruct (dleb (time qtop) ticks); [|cbn; symmetry; apply app_nil_r].
    match goal with
    | |- context [dispatch_loop H b ticks msecs ?s2] =>
        specialize (IH s2); destruct (dispatch_loop H b ticks msecs s2)
    end.
    cbn [fst snd] in *. rewrite IH.
    change (miEventQueue
              (set_moEventQueue
                 (removelast
                    (pop_heap H mo_queue_elm greater
                       (moEventQueue (dispatch ticks msecs qtop s))))
                 (dispatch ticks msecs qtop s)))
      with (miEventQueue (dispatch ticks msecs qtop s)).
    rewrite miEventQueue_dispatch. cbn [filter].
    destruct (devNum qtop =? DEV_LOOPBACK); cbn [map].
    + rewrite <- app_assoc. reflexivity.
    + rewrite app_nil_r. reflexivity.
Qed.

(** X19. A timed wait and the dispatch after it. When the thread waits
    with a timeout on a queue that is a heap (counters within a window,
    ticks that are numbers), the time it waits for is [ticksToMsecs] of
    the tick of the top event (of tick 0 when that tick is -infinity);
    when the wait times out the loop takes at least the top event, and
    with a finite tick at the top every event it takes has exactly that
    tick: the anchor a tempo event sets is the tick of the event. *)
Theorem timed_wait_exact (H : heap_algorithms) (base : Z)
    (ticks msecs : double) (top : mo_queue_elm) (rest : list mo_queue_elm)
    (s : mo_state) :
  heap_contract H ->
  moEventQueue s = top :: rest ->
  is_heap greater (moEventQueue s) ->
  in_window base (moEventQueue s) ->
  timed (moEventQueue s) ->
  wait_target s = Some (ticks, msecs) ->
  let run := dispatch_loop H (length (moEventQueue s)) ticks msecs s in
  msecs = ticksToMsecs (tempo_map s) ticks /\
  ticks = (if isinf (time top) then Fin 0 else time top) /\
  (exists out, fst run = top :: out) /\
  (isinf (time top) = false ->
   Forall (fun e => deqb (time e) ticks = true) (fst run)).
Proof.
  intros HC Eq Hh Hw Ht Hwait run.
  assert (Htop_nan : is_nan (time top) = false).
  { rewrite Eq in Ht. inversion Ht; assumption. }
  assert (Hticks : ticks = (if isinf (time top) then Fin 0 else time top) /\
                   msecs = ticksToMsecs (tempo_map s) ticks /\
                   dleb (time top) ticks = true).
  { unfold wait_target in Hwait. rewrite Eq in Hwait.
    destruct (dleb _ (Fin 0)); [discriminate|].
    destruct (isinf (time top) && dgtb (time top) (Fin 0)) eqn:Ei;
      [discriminate|].
    injection Hwait as <- <-. split; [reflexivity|]. split; [reflexivity|].
    destruct (time top) as [q| | |]; cbn in *; try discriminate;
      try reflexivity.
    unfold dleb. cbn. rewrite Qeq_bool_refl. apply orb_true_r. }
  destruct Hticks as (Et & Em & Edue).
  split; [exact Em|]. split; [exact Et|].
  pose proof (dispatch_loop_order H HC base ticks msecs
                (length (moEventQueue s)) s (le_n _) Hh Hw Ht)
    as (Hs & Hp & Hd & Hr).
  fold run in Hs, Hp, Hd, Hr.
  assert (Hfirst : exists out, fst run = top :: out).
  { unfold run. rewrite Eq. cbn [length dispatch_loop]. rewrite Eq, Edue.
    match goal with
    | |- context [dispatch_loop H ?b ticks msecs ?s2] =>
        destruct (dispatch_loop H b ticks msecs s2) as [out s3]
    end.
    exists out. reflexivity. }
  split; [exact Hfirst|].
  intro Hfin. rewrite Hfin in Et. subst ticks.
  rewrite Eq in Hw, Ht, Hh.
  pose proof (top_before base top rest Hw Ht Hh) as Hb.
  rewrite Forall_forall in *. intros e He.
  specialize (Hd e He). unfold dleb in Hd.
  assert (Hin : In e (top :: rest)).
  { rewrite <- Eq. apply (Permutation_in e (Permutation_sym Hp)).
    apply in_or_app. left. exact He. }
  destruct Hin as [<-|Hin]; [apply deqb_refl; exact Htop_nan|].
  destruct (dltb (time e) (time top)) eqn:L; [|exact Hd].
  exfalso. apply (before_asym base top e (Hb e Hin)). left. exact L.
Qed.

Lemma in_window_playing : in_window 0 (moEventQueue playing_state).
Proof.
  rewrite playing_queue. split.
  - repeat constructor.
  - change (NoDup [1; 0]). repeat constructor; cbn; intuition discriminate.
Qed.

Lemma timed_playing : timed (moEventQueue playing_state).
Proof. rewrite playing_queue. repeat constructor. Qed.

Lemma timed_wait_exact_witness :
  let s := playing_state in
  let msecs := ticksToMsecs (tempo_map s) (Fin 500) in
  let run := dispatch_loop sorting_heap (length (moEventQueue s))
               (Fin 500) msecs s in
  wait_target s = Some (Fin 500, msecs) /\
  (exists out, fst run = mkElm 0 (Fin 500) 1 [0x90; 64; 90] 3 :: out) /\
  Forall (fun e => deqb (time e) (Fin 500) = true) (fst run).
Proof.
  intros s msecs run.
  assert (W : wait_target s = Some (Fin 500, msecs))
    by (vm_compute; reflexivity).
  destruct (timed_wait_exact sorting_heap 0 (Fin 500) msecs
              (mkElm 0 (Fin 500) 1 [0x90; 64; 90] 3)
              [mkElm 0 (Fin 1000) 0 [0x80; 60; 0] 7] s)
    as (_ & _ & Hout & Hall).
  - exact sorting_heap_contract.
  - exact playing_queue.
  - exact playing_queue_is_heap.
  - exact in_window_playing.
  - exact timed_playing.
  - exact W.
  - split; [exact W|]. split; [exact Hout|]. apply Hall. reflexivity.
Defined.

(** X20. What a cancel request sends. [doCancelMessages] for an open
    output device sends, for each entry of the cancel map with that
    device and track (any track for [ALL_TRACKS]) in the order of the
    keys, one sustain-off for a pedal entry and as many note-offs as the
    entry counts otherwise; for a device that is closed or negative it
    sends nothing. *)
Theorem cancel_sends_note_offs (H : heap_algorithms) (d t : Z)
    (s : mo_state) :
  sent (doCancelMessages H d t s) =
  sent s
  ++ (if (0 <=? d) && isOpenedDevice d s
      then flat_map (cancel_msgs d)
             (filter (fun e => NoteMap.track_hit d t (fst e))
                (cancelNoteMap s))
      else []).
Proof.
  destruct (doCancelMessages_closed H d t s) as (rm & q2 & _ & E).
  rewrite E. reflexivity.
Qed.

Lemma land_data_byte b : 0 <= b < 0x80 -> 0 <= Z.land b 0xf0 < 0x80.
Proof.
  intro Hb.
  assert (E : (0 <=? Z.land b 0xf0) && (Z.land b 0xf0 <? 0x80) = true).
  { apply (Z_range_forallb
             (fun b => (0 <=? Z.land b 0xf0) && (Z.land b 0xf0 <? 0x80))
             0 128); [vm_compute; reflexivity|lia]. }
  apply andb_true_iff in E. destruct E as [A B].
  apply Z.leb_le in A. apply Z.ltb_lt in B. lia.
Qed.

(** X21. System-exclusive messages. An event whose bytes are [F0] and a
    body that begins with a data byte (below 80), taken off the queue for
    an open output device, is sent as one system-exclusive message that
    carries the body without the leading [F0]; neither note map
    changes. *)
Theorem sysex_dispatch (ticks msecs : double) (e : mo_queue_elm)
    (b : Z) (body : list Z) (s : mo_state) :
  0 <= devNum e -> isOpenedDevice (devNum e) s = true ->
  msg e = 0xf0 :: b :: body -> 0 <= b < 0x80 ->
  dispatch ticks msecs e s
  = midi_send (devNum e) (SysDep.mkMsg (b :: body) true) s.
Proof.
  intros Hd Ho Hm Hb. unfold dispatch.
  replace (devNum e =? DEV_LOOPBACK) with false
    by (symmetry; apply Z.eqb_neq; unfold DEV_LOOPBACK; lia).
  rewrite Hm. cbn [byte_at nth].
  change (negb (0xf0 =? 255)) with true. cbv iota.
  rewrite isOpenedDevice_handle in Ho by exact Hd. rewrite Ho.
  replace (devNum e >=? 0) with true
    by (symmetry; rewrite Z.geb_leb; apply Z.leb_le; lia).
  cbn [andb]. change (0xf0 =? 0xf0) with true. cbv iota. cbn [tl].
  unfold midiOutSendMessage. cbn [SysDep.msg byte_at nth].
  pose proof (land_data_byte b Hb) as Hl.
  replace (Z.land b 240 =? 144) with false
    by (symmetry; apply Z.eqb_neq; lia).
  replace (Z.land b 240 =? 128) with false
    by (symmetry; apply Z.eqb_neq; lia).
  replace (Z.land b 240 =? 176) with false
    by (symmetry; apply Z.eqb_neq; lia).
  reflexivity.
Qed.

Lemma sysex_dispatch_witness :
  let s := snd (openDevice 1 true 0 startup_state) in
  let e := mkElm 0 (Fin 0) 0 [0xf0; 0x7e; 0x7f; 0x09; 0x01; 0xf7] 0 in
  sent (dispatch (Fin 0) (Fin 0) e s)
  = [(0, SysDep.mkMsg [0x7e; 0x7f; 0x09; 0x01; 0xf7] true)].
Proof.
  intros s e.
  rewrite (sysex_dispatch (Fin 0) (Fin 0) e 0x7e [0x7f; 0x09; 0x01; 0xf7] s).
  - reflexivity.
  - cbn. lia.
  - reflexivity.
  - reflexivity.
  - lia.
Defined.

(** X22. All-Notes-Off and All-Sound-Off in retrigger mode. A control
    change 123 or 120 sent on a channel is passed on as it is and takes
    the notes of that device and channel out of the retrigger map, so
    that the next note-on of any of them is not preceded by a note-off;
    the cancel map is left as it is, so that a later cancel still sends
    the note-offs. *)
Theorem all_notes_off_resets_retrigger (d t b0 cc v : Z) (s : mo_state) :
  retriggerNotes s = true ->
  NoteMap.ordered (retriggerNoteMap s) ->
  Z.land b0 0xf0 = 0xb0 ->
  cc = C_ALL_NOTES_OFF \/ cc = C_ALL_SOUND_OFF ->
  let m := SysDep.mkMsg [b0; cc; v] false in
  let s' := midiOutSendMessage d t m s in
  sent s' = sent s ++ [(d, m)] /\
  cancelNoteMap s' = cancelNoteMap s /\
  retriggerNoteMap s' =
  filter (fun e => negb (NoteMap.prefix_hit d 0 (Z.land b0 0xf) (fst e)))
    (retriggerNoteMap s) /\
  (forall n, fst (NoteMap.push d 0 (Z.land b0 0xf) n (retriggerNoteMap s'))
             = 0).
Proof.
  intros Hr Ho Hst Hcc m s'.
  assert (E : s' = midi_send d m
                     (set_retriggerNoteMap
                        (NoteMap.clear d 0 (Z.land b0 0xf)
                           (retriggerNoteMap s)) s)).
  { unfold s', midiOutSendMessage, m. cbn [SysDep.msg byte_at nth].
    rewrite Hst. change (0xb0 =? 0x90) with false.
    change (0xb0 =? 0x80) with false. change (0xb0 =? 0xb0) with true.
    cbn [andb orb].
    replace ((cc =? C_ALL_NOTES_OFF) || (cc =? C_ALL_SOUND_OFF)) with true
      by (destruct Hcc as [-> | ->]; reflexivity).
    rewrite Hr. reflexivity. }
  assert (Em : retriggerNoteMap s'
               = filter
                   (fun e => negb (NoteMap.prefix_hit d 0 (Z.land b0 0xf)
                                     (fst e)))
                   (retriggerNoteMap s)).
  { rewrite E. cbn. apply clear_filter. exact Ho. }
  rewrite E at 1 2. cbn [sent cancelNoteMap midi_send set_sent
                           set_retriggerNoteMap].
  split; [reflexivity|]. split; [reflexivity|]. split; [exact Em|].
  intro n. rewrite push_returns_count.
  - unfold NoteMap.count_of. rewrite Em.
    rewrite (find_filter
               (fun k => negb (NoteMap.prefix_hit d 0 (Z.land b0 0xf) k))).
    unfold NoteMap.prefix_hit. cbn. rewrite !Z.eqb_refl. reflexivity.
  - rewrite Em, <- clear_filter by exact Ho. rewrite clear_drop_run.
    apply ordered_drop_run. exact Ho.
Qed.

Lemma all_notes_off_resets_retrigger_witness :
  let s0 := midiOutSendMessage 0 7 (SysDep.mkMsg [0x93; 60; 100] false)
              (snd (openDevice 1 true 0 startup_state)) in
  let s1 := midiOutSendMessage 0 7 (SysDep.mkMsg [0xb3; 123; 0] false) s0 in
  retriggerNoteMap s0 = [(NoteMap.mkKey 0 0 3 60, 1)] /\
  sent s1 = sent s0 ++ [(0, SysDep.mkMsg [0xb3; 123; 0] false)] /\
  cancelNoteMap s1 = cancelNoteMap s0 /\
  retriggerNoteMap s1 = [] /\
  (forall n, fst (NoteMap.push 0 0 3 n (retriggerNoteMap s1)) = 0).
Proof.
  intros s0 s1. split; [reflexivity|].
  apply (all_notes_off_resets_retrigger 0 7 0xb3 123 0 s0).
  - reflexivity.
  - repeat constructor.
  - reflexivity.
  - left. reflexivity.
Defined.

(** * The invariant of the queue *)

Lemma Permutation_filter_split {A : Type} (f : A -> bool) (l : list A) :
  Permutation l (filter f l ++ filter (fun x => negb (f x)) l).
Proof.
  induction l as [|x l IH]; cbn [filter]; [constructor|].
  destruct (f x); cbn [negb app].
  - constructor. exact IH.
  - apply Permutation_cons_app. exact IH.
Qed.

Lemma in_window_app_r base l q :
  in_window base (l ++ q) -> in_window base q.
Proof.
  intros [Hw Hn]. split.
  - apply Forall_app in Hw. tauto.
  - rewrite map_app in Hn. apply NoDup_app_remove_l in Hn. exact Hn.
Qed.

Lemma scheduler_inv_nil base s :
  moEventQueue s = [] -> scheduler_inv base s.
Proof.
  intro E. unfold scheduler_inv, queue_safe, in_window, timed. rewrite E.
  repeat split; try constructor.
  intros i p c _ Hc. destruct i; discriminate.
Qed.

(** A state whose queue is a heap made of events of the queue of a state
    in the invariant, with the same counter and as many handles, is in
    the invariant. *)
Lemma scheduler_inv_part base s s' l :
  scheduler_inv base s ->
  length (midiOutHandles s') = length (midiOutHandles s) ->
  currentCount s' = currentCount s ->
  Permutation (moEventQueue s) (l ++ moEventQueue s') ->
  is_heap greater (moEventQueue s') ->
  scheduler_inv base s'.
Proof.
  intros (_ & Hw & Ha & Ht & Hq) Eh Ec Hp Hh.
  assert (Hin : forall e, In e (moEventQueue s') -> In e (moEventQueue s)).
  { intros e He. apply (Permutation_in e (Permutation_sym Hp)).
    apply in_or_app. right. exact He. }
  split; [exact Hh|]. split; [|split; [|split]].
  - exact (in_window_app_r base l _ (in_window_perm _ _ _ Hp Hw)).
  - unfold next_age. rewrite Ec. rewrite Forall_forall in *.
    intros e He. apply Ha, Hin, He.
  - unfold timed in *. rewrite Forall_forall in *.
    intros e He. apply Ht, Hin, He.
  - unfold queue_safe in *. rewrite Eh. rewrite Forall_forall in *.
    intros e He. apply Hq, Hin, He.
Qed.

Lemma scheduler_inv_ext base s s' :
  scheduler_inv base s ->
  length (midiOutHandles s') = length (midiOutHandles s) ->
  currentCount s' = currentCount s ->
  moEventQueue s' = moEventQueue s ->
  scheduler_inv base s'.
Proof.
  intros Hi Eh Ec Eq.
  apply (scheduler_inv_part base s s' [] Hi Eh Ec).
  - rewrite Eq. apply Permutation_refl.
  - rewrite Eq. apply Hi.
Qed.

Lemma scheduler_inv_swo base s :
  scheduler_inv base s -> strict_weak_order greater (moEventQueue s).
Proof.
  intros (_ & Hw & _ & Ht & _). exact (greater_strict_weak_order base _ Hw Ht).
Qed.

Lemma count_control s s' :
  control s' = control s -> currentCount s' = currentCount s.
Proof. unfold control. congruence. Qed.

Lemma scheduler_inv_doCancelMessages H base d t s :
  heap_contract H -> scheduler_inv base s ->
  scheduler_inv base (doCancelMessages H d t s).
Proof.
  intros HC Hi.
  destruct (moEventQueue_doCancelMessages H d t s) as (q2 & Hp & Eq).
  pose proof (control_doCancelMessages H d t s) as Cc.
  set (hit := cancel_hit d t) in *.
  assert (Hp2 : Permutation (moEventQueue s)
                  (filter hit (moEventQueue s) ++ q2)).
  { eapply Permutation_trans; [apply (Permutation_filter_split hit)|].
    apply Permutation_app_head, Permutation_sym, Hp. }
  destruct Hi as (Hh & Hw & Ha & Ht & Hq).
  assert (Hw2 : in_window base q2).
  { exact (in_window_app_r base _ _ (in_window_perm _ _ _ Hp2 Hw)). }
  assert (Ht2 : timed q2).
  { unfold timed in *. rewrite Forall_forall in *. intros e He. apply Ht.
    apply (Permutation_in e (Permutation_sym Hp2)), in_or_app. right.
    exact He. }
  apply (scheduler_inv_part base s _ (filter hit (moEventQueue s))).
  - exact (conj Hh (conj Hw (conj Ha (conj Ht Hq)))).
  - rewrite (handles_control _ _ Cc). reflexivity.
  - exact (count_control _ _ Cc).
  - rewrite Eq. eapply Permutation_trans; [exact Hp2|].
    apply Permutation_app_head. apply (make_heap_perm H HC).
  - rewrite Eq. apply (make_heap_is_heap H HC).
    exact (greater_strict_weak_order base _ Hw2 Ht2).
Qed.

Lemma scheduler_inv_fold_doCancelMessages H base (rs : list (Z * Z)) :
  heap_contract H -> forall s,
  scheduler_inv base s ->
  scheduler_inv base
    (fold_left (fun s r => doCancelMessages H (fst r) (snd r) s) rs s).
Proof.
  intro HC. induction rs as [|r rs IH]; intros s Hi; cbn [fold_left];
    [exact Hi|].
  apply IH, scheduler_inv_doCancelMessages; assumption.
Qed.

Lemma dispatch_loop_heap H base ticks msecs :
  heap_contract H -> forall budget s,
  is_heap greater (moEventQueue s) ->
  in_window base (moEventQueue s) ->
  timed (moEventQueue s) ->
  is_heap greater (moEventQueue (snd (dispatch_loop H budget ticks msecs s))).
Proof.
  intro HC. induction budget as [|b IH]; intros s Hh Hw Ht;
    cbn [dispatch_loop]; [exact Hh|].
  destruct (moEventQueue s) as [|qtop rest] eqn:Eq;
    [cbn [snd]; rewrite Eq; exact Hh|].
  destruct (dleb (time qtop) ticks); [|cbn [snd]; rewrite Eq; exact Hh].
  rewrite moEventQueue_dispatch, Eq.
  destruct (pop_heap_spec H HC _ greater qtop rest
              (greater_strict_weak_order base _ Hw Ht) Hh)
    as [l' [Epop [Hperm Hheap]]].
  rewrite Epop, removelast_last.
  set (s2 := set_moEventQueue l' (dispatch ticks msecs qtop s)).
  specialize (IH s2). change (moEventQueue s2) with l' in IH.
  destruct (dispatch_loop H b ticks msecs s2) as [out s3].
  cbn [snd] in *. apply IH.
  - exact Hheap.
  - exact (in_window_perm _ _ _ Hperm (in_window_tail _ _ _ Hw)).
  - apply (timed_perm _ _ Hperm). inversion Ht; assumption.
Qed.

Lemma scheduler_inv_dispatch_loop H base ticks msecs s :
  heap_contract H -> scheduler_inv base s ->
  scheduler_inv base
    (snd (dispatch_loop H (length (moEventQueue s)) ticks msecs s)).
Proof.
  intros HC Hi.
  pose proof Hi as (Hh & Hw & Ha & Ht & Hq).
  pose proof (dispatch_loop_order H HC base ticks msecs
                (length (moEventQueue s)) s (le_n _) Hh Hw Ht)
    as (_ & Hp & _ & _).
  pose proof (control_dispatch_loop H ticks msecs
                (length (moEventQueue s)) s) as Cc.
  apply (scheduler_inv_part base s _
           (fst (dispatch_loop H (length (moEventQueue s)) ticks msecs s))
           Hi).
  - rewrite (handles_control _ _ Cc). reflexivity.
  - exact (count_control _ _ Cc).
  - exact Hp.
  - apply (dispatch_loop_heap H base); assumption.
Qed.

(** X23. The invariant of the queue holds through every turn of the
    scheduler thread. If, before the turn, the queue is a heap for
    [greater] whose events have counters in a window of less than 2^31
    from [base] and ticks that are numbers, every event has a message
    that is not empty and a device number below the size of the table of
    handles, then the same holds after the turn, the heap algorithms
    meeting their contract: each [pop_heap] and [make_heap] of the turn
    works on a valid range, and the reads [qtop->msg[0]] and
    [midiOutHandles[qtop->devNum]] stay inside the vectors. *)
Theorem scheduler_invariant_wake (H : heap_algorithms) (base : Z)
    (tmout : bool) (ticks msecs now : double) (s : mo_state) :
  heap_contract H ->
  scheduler_inv base s ->
  scheduler_inv base (snd (thread_wake H tmout ticks msecs now s)).
Proof.
  intros HC Hi.
  destruct (shutdownRequest s) eqn:Hs.
  { unfold thread_wake. rewrite Hs. cbn [snd].
    apply (scheduler_inv_ext base s); try reflexivity; [exact Hi|].
    unfold close_all. cbn. apply length_map. }
  destruct (thread_wake_stages H tmout ticks msecs now s Hs)
    as (msecs' & s1 & s2 & s3 & E1 & E2 & E3 & E).
  rewrite E. cbn [snd].
  pose proof (applyScaleRequest_frame now msecs s) as F1.
  rewrite E1 in F1. cbn [snd] in F1.
  destruct F1 as (Fh & _ & _ & _ & _ & _ & _ & Fc & Fq & _).
  assert (I1 : scheduler_inv base s1).
  { apply (scheduler_inv_ext base s); [exact Hi| |exact Fc|exact Fq].
    rewrite Fh. reflexivity. }
  assert (I2 : scheduler_inv base s2).
  { subst s2. destruct (stopRequest s1); [|exact I1]. cbv zeta.
    rewrite doStopAll_closed.
    match goal with
    | |- scheduler_inv _ (if ?b then _ else _) => destruct b
    end; apply scheduler_inv_nil; reflexivity. }
  assert (I3 : scheduler_inv base s3).
  { subst s3.
    apply (scheduler_inv_ext base
             (fold_left (fun s r => doCancelMessages H (fst r) (snd r) s)
                (cancelRequests s2) s2)); try reflexivity.
    apply scheduler_inv_fold_doCancelMessages; assumption. }
  destruct (negb tmout); [exact I3|].
  apply scheduler_inv_dispatch_loop; assumption.
Qed.

Lemma playing_handles : midiOutHandles playing_state = [true].
Proof. vm_compute. reflexivity. Qed.

Lemma playing_count : currentCount playing_state = 2.
Proof. vm_compute. reflexivity. Qed.

Lemma scheduler_inv_playing : scheduler_inv 0 playing_state.
Proof.
  split; [exact playing_queue_is_heap|].
  split; [exact in_window_playing|].
  split; [|split; [exact timed_playing|]].
  - unfold next_age. rewrite playing_count, playing_queue.
    repeat constructor.
  - unfold queue_safe. rewrite playing_handles, playing_queue.
    repeat constructor; cbn; try discriminate; lia.
Qed.

Lemma scheduler_inv_cancelMessages base d t s :
  scheduler_inv base s -> scheduler_inv base (cancelMessages d t s).
Proof.
  intro Hi. apply (scheduler_inv_ext base s); [exact Hi| | |]; reflexivity.
Qed.

Lemma scheduler_invariant_wake_witness :
  scheduler_inv 0
    (snd (thread_wake sorting_heap true (Fin 500) (Fin 500) (Fin 500)
            (cancelMessages 0 7 playing_state))).
Proof.
  apply (scheduler_invariant_wake sorting_heap 0 true (Fin 500) (Fin 500)
           (Fin 500) (cancelMessages 0 7 playing_state)).
  - exact sorting_heap_contract.
  - exact (scheduler_inv_cancelMessages 0 0 7 playing_state
             scheduler_inv_playing).
Defined.

(** X24. The invariant of the queue holds through the calls of the other
    threads. [queueMessage] keeps it for a tick that is a number, as long
    as fewer than 2^31 counters have been drawn since [base]; when the
    message is accepted the event is in the queue with the counter of the
    state, and the counter has moved on. [openDevice] and [closeDevice]
    keep it, as the table of handles never gets shorter. *)
Theorem scheduler_invariant_calls (H : heap_algorithms) (base : Z)
    (s : mo_state) :
  heap_contract H ->
  scheduler_inv base s ->
  (forall d ticks trk m,
     is_nan ticks = false -> next_age base s < 2 ^ 31 ->
     let r := queueMessage H d ticks trk m s in
     scheduler_inv base (snd r) /\
     (fst r = false ->
      In (mkElm d ticks (currentCount s) m trk) (moEventQueue (snd r)) /\
      next_age base (snd r) = next_age base s + 1)) /\
  (forall n p d, scheduler_inv base (snd (openDevice n p d s))) /\
  (forall d, scheduler_inv base (closeDevice d s)).
Proof.
  intros HC Hi. split; [|split].
  - intros d ticks trk m Hn Hage r.
    destruct r as [err s'] eqn:Er. unfold r in Er. cbn [fst snd].
    destruct err.
    { pose proof (queueMessage_refused H d ticks trk m s) as Hr.
      rewrite Er in Hr. cbn [fst snd] in Hr. rewrite Hr by reflexivity.
      split; [exact Hi|discriminate]. }
    pose proof Hi as (Hh & Hw & Ha & Ht & Hq).
    pose proof (queueMessage_youngest H base d ticks trk m s s' HC Er
                  Hage Hw Ha) as (Eage & Hp & Hw' & Ha' & En).
    pose proof (queueMessage_enqueues H d ticks trk m s s' HC Er)
      as (_ & Ec & Hheap).
    set (e := mkElm d ticks (currentCount s) m trk) in *.
    assert (En' : next_age base s' = next_age base s + 1).
    { rewrite En. apply Z.mod_small.
      unfold next_age in *.
      pose proof (Z.mod_pos_bound (currentCount s - base) (2 ^ 32)).
      lia. }
    assert (Ht' : timed (moEventQueue s ++ [e])).
    { unfold timed. apply Forall_app. split; [exact Ht|].
      constructor; [exact Hn|constructor]. }
    assert (Hacc : m <> [] /\ d < Z.of_nat (length (midiOutHandles s)) /\
                   midiOutHandles s' = midiOutHandles s).
    { unfold queueMessage in Er.
      destruct (Z.of_nat (length m) <? 1) eqn:El; [discriminate|].
      destruct ((d >=? 0) && _) eqn:Eg; [discriminate|].
      injection Er as <-. apply Z.ltb_ge in El.
      split; [destruct m; [cbn in El; lia|discriminate]|].
      split; [|reflexivity].
      destruct (Z.ltb_spec d 0) as [L|L]; [lia|].
      replace (d >=? 0) with true in Eg
        by (symmetry; rewrite Z.geb_leb; apply Z.leb_le; lia).
      cbn [andb] in Eg. apply orb_false_iff in Eg. destruct Eg as [Eg _].
      rewrite Z.geb_leb in Eg. apply Z.leb_gt in Eg. exact Eg. }
    destruct Hacc as (Hm & Hd & Eh).
    split.
    + split; [|split; [|split; [|split]]].
      * apply Hheap; [|exact Hh].
        apply (greater_strict_weak_order base).
        -- exact (in_window_perm _ _ _ (Permutation_sym Hp) Hw').
        -- exact Ht'.
      * exact Hw'.
      * rewrite En'. exact Ha'.
      * exact (timed_perm _ _ Hp Ht').
      * unfold queue_safe. rewrite Eh.
        apply (Permutation_Forall Hp). apply Forall_app. split; [exact Hq|].
        constructor; [|constructor]. cbn. split; assumption.
    + intros _. split; [|exact En'].
      apply (Permutation_in _ Hp), in_or_app. right. left. reflexivity.
  - intros n p d.
    assert (Hlen : (length (midiOutHandles s)
                    <= length (midiOutHandles (snd (openDevice n p d s))))%nat
                   /\ currentCount (snd (openDevice n p d s)) = currentCount s
                   /\ moEventQueue (snd (openDevice n p d s)) = moEventQueue s).
    { unfold openDevice.
      destruct (d <? 0) eqn:Ed; [cbn; auto|].
      destruct (d >=? n); [cbn; auto|].
      apply Z.ltb_ge in Ed.
      set (hs := if Z.of_nat (length (midiOutHandles s)) <=? d
                 then midiOutHandles s
                      ++ repeat false
                           (Z.to_nat d + 1 - length (midiOutHandles s))
                 else midiOutHandles s).
      assert (Hhs : (length (midiOutHandles s) <= length hs)%nat
                    /\ (Z.to_nat d < length hs)%nat).
      { unfold hs.
        destruct (Z.of_nat (length (midiOutHandles s)) <=? d) eqn:E.
        - apply Z.leb_le in E. rewrite length_app, repeat_length. lia.
        - apply Z.leb_gt in E. lia. }
      destruct (nth (Z.to_nat d) hs false); [cbn; tauto|].
      destruct p; cbn [snd midiOutHandles set_midiOutHandles currentCount
                         moEventQueue]; [|tauto].
      rewrite length_store_nat by tauto. tauto. }
    destruct Hlen as (Hl & Ec & Eq).
    destruct Hi as (Hh & Hw & Ha & Ht & Hq).
    unfold scheduler_inv, queue_safe, next_age. rewrite Ec, Eq.
    split; [exact Hh|]. split; [exact Hw|]. split; [exact Ha|].
    split; [exact Ht|].
    revert Hq. apply Forall_impl. intros e [A B]. split; [exact A|lia].
  - intro d. destruct (closeDevice_frame d s) as (Eq & _ & _ & _ & El).
    apply (scheduler_inv_ext base s); try assumption.
    unfold closeDevice. destruct (d <? 0); [reflexivity|].
    destruct (_ && _); reflexivity.
Qed.

Lemma scheduler_invariant_calls_witness :
  let r := queueMessage sorting_heap 0 (Fin 250) 3 [0xc0; 5] playing_state in
  scheduler_inv 0 (snd r) /\
  In (mkElm 0 (Fin 250) 2 [0xc0; 5] 3) (moEventQueue (snd r)) /\
  scheduler_inv 0 (closeDevice 0 playing_state).
Proof.
  destruct (scheduler_invariant_calls sorting_heap 0 playing_state
              sorting_heap_contract scheduler_inv_playing)
    as (Hq & _ & Hc).
  destruct (Hq 0 (Fin 250) 3 [0xc0; 5]) as (Hi & Hin);
    [reflexivity|unfold next_age; rewrite playing_count; reflexivity|].
  split; [exact Hi|]. split; [|apply Hc].
  apply Hin. reflexivity.
Defined.

(** * The input relay *)

Lemma fold_left_keep {A : Type} (p : A -> bool) (l : list A) : forall acc,
  fold_left (fun q e => if p e then q ++ [e] else q) l acc
  = acc ++ filter p l.
Proof.
  induction l as [|x l IH]; intro acc; cbn [fold_left filter].
  - symmetry. apply app_nil_r.
  - rewrite IH. destruct (p x); [|reflexivity].
    rewrite <- app_assoc. reflexivity.
Qed.

Lemma input_isOpenedDevice_nth d s :
  0 <= d ->
  MidiInput.isOpenedDevice d s
  = nth (Z.to_nat d) (MidiInput.midiInHandles s) false.
Proof.
  intro Hd. unfold MidiInput.isOpenedDevice.
  replace (d <? 0) with false by (symmetry; apply Z.ltb_ge; lia).
  destruct (d <? Z.of_nat (length (MidiInput.midiInHandles s))) eqn:E;
    [reflexivity|].
  apply Z.ltb_ge in E. cbn [andb]. symmetry. apply nth_overflow. lia.
Qed.

(** X25. [MidiIn::closeDevice] for a device number that is not negative
    takes the messages of that device out of the input queue, whether the
    device was open or not, and keeps the other messages in their order;
    the device is closed afterwards and no other device changes. A
    receiver that is waiting goes on waiting. *)
Theorem input_closeDevice_purges (d : Z) (s : MidiInput.mi_state) :
  0 <= d ->
  let s' := MidiInput.closeDevice d s in
  MidiInput.miEventQueue s'
  = filter (fun e => negb (MidiIn.devNum e =? d)) (MidiInput.miEventQueue s) /\
  MidiInput.isOpenedDevice d s' = false /\
  (forall d', d' <> d ->
     MidiInput.isOpenedDevice d' s' = MidiInput.isOpenedDevice d' s) /\
  MidiInput.receiving s' = MidiInput.receiving s.
Proof.
  intros Hd s'.
  assert (E : s' = MidiInput.mkState
                     (if (d <? Z.of_nat (length (MidiInput.midiInHandles s)))
                         && nth (Z.to_nat d) (MidiInput.midiInHandles s) false
                      then store (MidiInput.midiInHandles s) d false
                      else MidiInput.midiInHandles s)
                     (filter (fun e => negb (MidiIn.devNum e =? d))
                        (MidiInput.miEventQueue s))
                     (MidiInput.receiving s)).
  { unfold s', MidiInput.closeDevice.
    replace (d <? 0) with false by (symmetry; apply Z.ltb_ge; lia).
    rewrite (fold_left_keep (fun e => negb (MidiIn.devNum e =? d))).
    reflexivity. }
  assert (Hn : forall k,
             nth k (MidiInput.midiInHandles s') false =
             if Nat.eqb k (Z.to_nat d) then false
             else nth k (MidiInput.midiInHandles s) false).
  { intro k. rewrite E. cbn [MidiInput.midiInHandles].
    destruct (d <? Z.of_nat (length (MidiInput.midiInHandles s))) eqn:L;
      cbn [andb].
    - apply Z.ltb_lt in L.
      destruct (nth (Z.to_nat d) (MidiInput.midiInHandles s) false) eqn:Eo.
      + unfold store. apply nth_store_nat. lia.
      + destruct (Nat.eqb k (Z.to_nat d)) eqn:Ek; [|reflexivity].
        apply Nat.eqb_eq in Ek. subst k. exact Eo.
    - apply Z.ltb_ge in L.
      destruct (Nat.eqb k (Z.to_nat d)) eqn:Ek; [|reflexivity].
      apply Nat.eqb_eq in Ek. subst k. apply nth_overflow. lia. }
  split; [rewrite E; reflexivity|]. split; [|split].
  - rewrite input_isOpenedDevice_nth by exact Hd.
    rewrite Hn, Nat.eqb_refl. reflexivity.
  - intros d' Hne.
    destruct (Z.ltb_spec d' 0) as [L|L].
    + unfold MidiInput.isOpenedDevice.
      replace (d' <? 0) with true by (symmetry; apply Z.ltb_lt; lia).
      reflexivity.
    + rewrite !input_isOpenedDevice_nth by exact L. rewrite Hn.
      replace (Nat.eqb (Z.to_nat d') (Z.to_nat d)) with false
        by (symmetry; apply Nat.eqb_neq; lia).
      reflexivity.
  - rewrite E. reflexivity.
Qed.

Lemma input_closeDevice_purges_witness :
  let q := [MidiIn.mkIn 0 (Fin 10) [0x90; 60; 100] 0;
            MidiIn.mkIn DEV_LOOPBACK (Fin 11) [0xff; 0x01; 0x00] 2;
            MidiIn.mkIn 1 (Fin 12) [0x90; 62; 100] 0;
            MidiIn.mkIn 0 (Fin 13) [0x80; 60; 0] 0] in
  let s := MidiInput.mkState [true; true] q true in
  MidiInput.miEventQueue (MidiInput.closeDevice 0 s)
  = [MidiIn.mkIn DEV_LOOPBACK (Fin 11) [0xff; 0x01; 0x00] 2;
     MidiIn.mkIn 1 (Fin 12) [0x90; 62; 100] 0] /\
  MidiInput.isOpenedDevice 0 (MidiInput.closeDevice 0 s) = false /\
  MidiInput.isOpenedDevice 1 (MidiInput.closeDevice 0 s) = true.
Proof.
  intros q s.
  destruct (input_closeDevice_purges 0 s) as (E & C & O & _); [lia|].
  split; [exact E|]. split; [exact C|].
  rewrite O by discriminate. reflexivity.
Defined.

Lemma relay_eta (e : MidiIn.mi_queue_elm) :
  MidiIn.mkIn (MidiIn.devNum e) (MidiIn.time e) (MidiIn.msg e) (MidiIn.tk e)
  = e.
Proof. destruct e; reflexivity. Qed.

Lemma receive_many_fifo : forall (n : nat) (s : MidiInput.mi_state),
  (n <= length (MidiInput.miEventQueue s))%nat ->
  receive_many n s =
  Some (map received (firstn n (MidiInput.miEventQueue s)),
        MidiInput.mkState (MidiInput.midiInHandles s)
          (skipn n (MidiInput.miEventQueue s))
          (match n with O => MidiInput.receiving s | S _ => false end)).
Proof.
  induction n as [|n IH]; intros s Hn.
  - cbn. destruct s; reflexivity.
  - destruct s as [hs q rcv]. cbn [MidiInput.miEventQueue] in Hn.
    destruct q as [|e q]; [cbn in Hn; lia|].
    cbn [receive_many MidiInput.receive_begin MidiInput.receive_end
           MidiInput.miEventQueue MidiInput.midiInHandles
           MidiInput.receiving].
    rewrite IH by (cbn in *; lia).
    cbn [MidiInput.miEventQueue MidiInput.midiInHandles MidiInput.receiving
           firstn skipn map].
    destruct n; reflexivity.
Qed.

(** X26. What [MidiIn::receiveMessage] hands back. Calls that find
    messages in the queue get them in the order in which they were
    enqueued, the oldest first, each message once. A call that is waiting
    when [MidiIn::interrupt] comes gets the device number [DEV_DUMMY] with
    an empty message; the interrupt drops the messages that were waiting,
    and the messages that come in after it and before the receiver runs
    stay in the queue for the next call. *)
Theorem receive_outcome (n : nat) (late : list MidiIn.mi_queue_elm)
    (s : MidiInput.mi_state) :
  (n <= length (MidiInput.miEventQueue s))%nat ->
  (exists s',
     receive_many n s
     = Some (map received (firstn n (MidiInput.miEventQueue s)), s') /\
     MidiInput.miEventQueue s' = skipn n (MidiInput.miEventQueue s)) /\
  let s1 := MidiInput.interrupt (MidiInput.receive_begin s) in
  let s2 :=
    fold_left
      (fun s e =>
         MidiInput.enqueue (MidiIn.devNum e) (MidiIn.time e) (MidiIn.tk e)
           (MidiIn.msg e) s) late s1 in
  MidiInput.receive_end s2 = Some ((DEV_DUMMY, Fin 0, 0, []), s2) /\
  MidiInput.miEventQueue s2 = late.
Proof.
  intro Hn. split.
  - eexists. split; [apply receive_many_fifo; exact Hn|]. reflexivity.
  - intros s1 s2.
    assert (E : forall l acc,
               fold_left
                 (fun s e =>
                    MidiInput.enqueue (MidiIn.devNum e) (MidiIn.time e)
                      (MidiIn.tk e) (MidiIn.msg e) s) l
                 (MidiInput.mkState (MidiInput.midiInHandles s) acc false)
               = MidiInput.mkState (MidiInput.midiInHandles s) (acc ++ l)
                   false).
    { induction l as [|e l IH]; intro acc; cbn [fold_left].
      - rewrite app_nil_r. reflexivity.
      - unfold MidiInput.enqueue at 2.
        cbn [MidiInput.midiInHandles MidiInput.miEventQueue
               MidiInput.receiving].
        unfold MidiIn.enqueue. rewrite relay_eta, IH, <- app_assoc.
        reflexivity. }
    unfold s2, s1, MidiInput.interrupt, MidiInput.receive_begin.
    cbn [MidiInput.midiInHandles]. rewrite E. cbn [app].
    split; [|reflexivity].
    unfold MidiInput.receive_end.
    cbn [MidiInput.miEventQueue MidiInput.receiving].
    destruct late; reflexivity.
Qed.

Lemma receive_outcome_witness :
  let q := [MidiIn.mkIn 0 (Fin 10) [0x90; 60; 100] 0;
            MidiIn.mkIn 1 (Fin 12) [0x90; 62; 100] 0;
            MidiIn.mkIn 0 (Fin 13) [0x80; 60; 0] 0] in
  let s := MidiInput.mkState [true; true] q false in
  exists s',
    receive_many 2 s
    = Some ([(0, Fin 10, 0, [0x90; 60; 100]);
             (1, Fin 12, 0, [0x90; 62; 100])], s') /\
    MidiInput.miEventQueue s' = [MidiIn.mkIn 0 (Fin 13) [0x80; 60; 0] 0].
Proof.
  intros q s.
  destruct (receive_outcome 2 [] s) as [R _]; [cbn; lia|].
  exact R.
Defined.

Lemma midimsg_eta (m : SysDep.midimsg_t) :
  SysDep.mkMsg (SysDep.msg m) (SysDep.isSysEx m) = m.
Proof. destruct m; reflexivity. Qed.

(** X27. From input to output. A message the platform hands to the input
    thread is put at the back of the input queue with the device number
    it came from, track 0 and the tick [msecsToTicks] gives for its time
    stamp. Its bytes are such that, queued as they are for an open output
    device, they make the scheduler hand the platform the very message
    that came in: a system-exclusive message is marked by a leading [F0]
    which the dispatch takes off again. This holds for system-exclusive
    messages and for messages whose first byte is neither [F0] nor
    [FF]. *)
Theorem thru_roundtrip (tm : tempo_state) (din dout trk cnt : Z)
    (midimsg : SysDep.midimsg_t) (tstamp t ticks msecs : double)
    (mi : MidiInput.mi_state) (s : mo_state) :
  SysDep.isSysEx midimsg = true \/
  (SysDep.isSysEx midimsg = false /\
   byte_at (SysDep.msg midimsg) 0 <> 0xf0 /\
   byte_at (SysDep.msg midimsg) 0 <> 0xff) ->
  0 <= dout -> isOpenedDevice dout s = true ->
  let mi' :=
    MidiInput.midiInThreadBody_step tm din (Some (midimsg, tstamp)) mi in
  exists e,
    MidiInput.miEventQueue mi' = MidiInput.miEventQueue mi ++ [e] /\
    MidiIn.devNum e = din /\ MidiIn.tk e = 0 /\
    MidiIn.time e = msecsToTicks tm tstamp /\
    dispatch ticks msecs (mkElm dout t cnt (MidiIn.msg e) trk) s
    = midiOutSendMessage dout trk midimsg s.
Proof.
  intros Hm Hd Ho mi'.
  eexists. split; [reflexivity|].
  split; [reflexivity|]. split; [reflexivity|]. split; [reflexivity|].
  cbn [MidiIn.msg]. unfold dispatch. cbn [devNum msg tk].
  replace (dout =? DEV_LOOPBACK) with false
    by (symmetry; apply Z.eqb_neq; unfold DEV_LOOPBACK; lia).
  rewrite isOpenedDevice_handle in Ho by exact Hd. rewrite Ho.
  replace (dout >=? 0) with true
    by (symmetry; rewrite Z.geb_leb; apply Z.leb_le; lia).
  cbn [andb].
  destruct Hm as [Hx|(Hx & H0 & Hf)]; rewrite Hx.
  - cbn [byte_at nth]. change (negb (0xf0 =? 255)) with true.
    change (0xf0 =? 0xf0) with true. cbv iota. cbn [tl].
    rewrite <- Hx, midimsg_eta. reflexivity.
  - apply Z.eqb_neq in H0, Hf. rewrite H0, Hf. cbn [negb].
    rewrite <- Hx, midimsg_eta. reflexivity.
Qed.

Lemma thru_roundtrip_witness :
  let s := snd (openDevice 1 true 0 startup_state) in
  let sysex := SysDep.mkMsg [0xf0; 0x7e; 0x7f; 0x09; 0x01; 0xf7] true in
  let mi' :=
    MidiInput.midiInThreadBody_step startup_tempo 3
      (Some (sysex, Fin 250)) MidiInput.startup_state in
  exists e,
    MidiInput.miEventQueue mi' = [e] /\
    MidiIn.msg e = [0xf0; 0xf0; 0x7e; 0x7f; 0x09; 0x01; 0xf7] /\
    sent (dispatch (Fin 0) (Fin 0) (mkElm 0 (Fin 0) 0 (MidiIn.msg e) 0) s)
    = [(0, sysex)].
Proof.
  intros s sysex mi'.
  destruct (thru_roundtrip startup_tempo 3 0 0 0 sysex (Fin 250) (Fin 0)
              (Fin 0) (Fin 0) MidiInput.startup_state s)
    as (e & Eq & _ & _ & _ & Ed).
  - left. reflexivity.
  - lia.
  - reflexivity.
  - exists e. split; [exact Eq|].
    assert (Em : MidiIn.msg e = [0xf0; 0xf0; 0x7e; 0x7f; 0x09; 0x01; 0xf7]).
    { cbn in Eq. injection Eq as <-. reflexivity. }
    split; [exact Em|]. rewrite Ed. reflexivity.
Defined.

(** * The platform adapters *)

Lemma lor_shiftl_add (a b n : Z) :
  0 <= n -> 0 <= a < 2 ^ n ->
  Z.lor a (Z.shiftl b n) = a + b * 2 ^ n.
Proof.
  intros Hn Ha.
  assert (E : Z.land a (Z.shiftl b n) = 0).
  { apply Z.bits_inj'. intros m Hm.
    rewrite Z.land_spec, Z.bits_0.
    destruct (Z.lt_ge_cases m n) as [L|L].
    - rewrite Z.shiftl_spec_low by exact L. apply andb_false_r.
    - rewrite <- (Z.mod_small a (2 ^ n)) by exact Ha.
      rewrite Z.mod_pow2_bits_high by lia. reflexivity. }
  pose proof (Z.add_lor_land a (Z.shiftl b n)) as A. rewrite E in A.
  rewrite Z.shiftl_mul_pow2 in * by exact Hn. lia.
Qed.

(** X28. Windows. A channel message of three bytes is packed by
    [midi_send] into the word [b0 | b1 << 8 | b2 << 16]; such a word
    coming in from the driver passes the filter of the input handler
    (the status byte is below F0) and [midi_recv] unpacks it to the same
    three bytes. *)
Theorem win_short_roundtrip (b0 b1 b2 ts : Z) (buf : Win.midiin_buffer) :
  0 <= b0 < 0xf0 -> 0 <= b1 < 256 -> 0 <= b2 < 256 ->
  exists w,
    Win.midi_send_short [b0; b1; b2] = Some w /\
    w = b0 + b1 * 256 + b2 * 65536 /\
    Win.midiInHandler_data w ts buf = buf ++ [(ts, w)] /\
    Win.midi_recv_short w = SysDep.mkMsg [b0; b1; b2] false.
Proof.
  intros H0 H1 H2.
  assert (E1 : Z.lor b0 (Z.shiftl b1 8) = b0 + b1 * 256).
  { rewrite lor_shiftl_add; [reflexivity|lia|]. change (2 ^ 8) with 256. lia. }
  assert (E2 : Z.lor (Z.lor b0 (Z.shiftl b1 8)) (Z.shiftl b2 16)
               = b0 + b1 * 256 + b2 * 65536).
  { rewrite E1. rewrite lor_shiftl_add; [reflexivity|lia|].
    change (2 ^ 16) with 65536. lia. }
  exists (b0 + b1 * 256 + b2 * 65536).
  split; [|split; [reflexivity|split]].
  - unfold Win.midi_send_short. cbn [nth_error length].
    change (Z.of_nat 3 >=? 2) with true. cbv iota. rewrite E2. reflexivity.
  - unfold Win.midiInHandler_data.
    change 0xff with (Z.ones 8). rewrite Z.land_ones by lia.
    change (2 ^ 8) with 256. change (2 ^ 32) with 4294967296.
    replace ((b0 + b1 * 256 + b2 * 65536) mod 256) with b0
      by (Z.to_euclidean_division_equations; lia).
    replace (b0 <? 240) with true by (symmetry; apply Z.ltb_lt; lia).
    rewrite Z.mod_small by lia. reflexivity.
  - unfold Win.midi_recv_short.
    change 0xff with (Z.ones 8). rewrite !Z.land_ones by lia.
    rewrite !Z.shiftr_div_pow2 by lia.
    change (2 ^ 8) with 256. change (2 ^ 16) with 65536.
    replace ((b0 + b1 * 256 + b2 * 65536) mod 256) with b0
      by (Z.to_euclidean_division_equations; lia).
    replace (((b0 + b1 * 256 + b2 * 65536) / 256) mod 256) with b1
      by (Z.to_euclidean_division_equations; lia).
    replace (((b0 + b1 * 256 + b2 * 65536) / 65536) mod 256) with b2
      by (Z.to_euclidean_division_equations; lia).
    reflexivity.
Qed.

Lemma win_short_roundtrip_witness :
  exists w,
    Win.midi_send_short [0x93; 60; 100] = Some w /\
    w = 0x93 + 60 * 256 + 100 * 65536 /\
    Win.midiInHandler_data w 1234 [] = [] ++ [(1234, w)] /\
    Win.midi_recv_short w = SysDep.mkMsg [0x93; 60; 100] false.
Proof. apply (win_short_roundtrip 0x93 60 100 1234 []); lia. Defined.

(** The status byte of a channel message, taken apart and put together
    again. *)
Lemma status_rebuild (b0 : Z) :
  0x80 <= b0 < 0xf0 ->
  let hi := Z.land b0 0xf0 in
  to_uchar (Z.lor hi (Z.land (Z.land b0 0xf) 0xf)) = b0 /\
  (hi = 0x80 \/ hi = 0x90 \/ hi = 0xa0 \/ hi = 0xb0 \/ hi = 0xc0 \/
   hi = 0xd0 \/ hi = 0xe0) /\
  ((0xc0 <=? b0) && (b0 <? 0xe0) = (hi =? 0xc0) || (hi =? 0xd0)).
Proof.
  intro Hr.
  assert (E : (let hi := Z.land b0 0xf0 in
               (to_uchar (Z.lor hi (Z.land (Z.land b0 0xf) 0xf)) =? b0)
               && ((hi =? 0x80) || (hi =? 0x90) || (hi =? 0xa0)
                   || (hi =? 0xb0) || (hi =? 0xc0) || (hi =? 0xd0)
                   || (hi =? 0xe0))
               && Bool.eqb ((0xc0 <=? b0) && (b0 <? 0xe0))
                    ((hi =? 0xc0) || (hi =? 0xd0))) = true).
  { apply (Z_range_forallb
             (fun b0 =>
                let hi := Z.land b0 0xf0 in
                (to_uchar (Z.lor hi (Z.land (Z.land b0 0xf) 0xf)) =? b0)
                && ((hi =? 0x80) || (hi =? 0x90) || (hi =? 0xa0)
                    || (hi =? 0xb0) || (hi =? 0xc0) || (hi =? 0xd0)
                    || (hi =? 0xe0))
                && Bool.eqb ((0xc0 <=? b0) && (b0 <? 0xe0))
                     ((hi =? 0xc0) || (hi =? 0xd0)))
             0x80 112); [vm_compute; reflexivity|lia]. }
  cbv zeta in E. apply andb_true_iff in E. destruct E as [E E3].
  apply andb_true_iff in E. destruct E as [E1 E2].
  apply Z.eqb_eq in E1. apply Bool.eqb_prop in E3.
  rewrite !orb_true_iff, !Z.eqb_eq in E2.
  cbv zeta. split; [exact E1|]. split; [tauto|exact E3].
Qed.

Lemma pitch_bend_rebuild (b1 b2 : Z) :
  0 <= b1 < 0x80 -> 0 <= b2 < 0x80 ->
  let value := b1 + Z.shiftl b2 7 - 8192 in
  -8192 <= value <= 8191 /\
  to_uchar (Z.land (value + 8192) 0x7f) = b1 /\
  to_uchar (Z.land (Z.shiftr (value + 8192) 7) 0x7f) = b2.
Proof.
  intros H1 H2. cbv zeta. rewrite Z.shiftl_mul_pow2 by lia.
  change (2 ^ 7) with 128.
  replace (b1 + b2 * 128 - 8192 + 8192) with (b1 + b2 * 128) by lia.
  change 0x7f with (Z.ones 7). rewrite !Z.land_ones by lia.
  rewrite Z.shiftr_div_pow2 by lia. change (2 ^ 7) with 128.
  unfold to_uchar.
  repeat split; try lia; Z.to_euclidean_division_equations; lia.
Qed.

(** X29. Linux. A channel message with data bytes below 80 (three bytes,
    or two for program change and channel pressure) is turned by
    [midi_send] into an ALSA event which [midi_recv] turns back into the
    same message, byte for byte; the two data bytes of a pitch bend make
    the ALSA value [b1 + 128 * b2 - 8192], between -8192 and 8191. A
    system-exclusive message goes through with its bytes unchanged. *)
Theorem alsa_roundtrip (b0 b1 b2 : Z) (body : list Z) :
  0x80 <= b0 < 0xf0 -> 0 <= b1 < 0x80 -> 0 <= b2 < 0x80 ->
  let m := if (0xc0 <=? b0) && (b0 <? 0xe0)
           then SysDep.mkMsg [b0; b1] false
           else SysDep.mkMsg [b0; b1; b2] false in
  (exists ev, Alsa.midi_send m = Some ev /\ Alsa.midi_recv ev = Some m) /\
  (Z.land b0 0xf0 = 0xe0 ->
   exists value,
     Alsa.midi_send m = Some (Alsa.PITCHBEND (Z.land b0 0xf) value) /\
     value = b1 + 128 * b2 - 8192 /\ -8192 <= value <= 8191) /\
  (exists ev, Alsa.midi_send (SysDep.mkMsg body true) = Some ev /\
              Alsa.midi_recv ev = Some (SysDep.mkMsg body true)).
Proof.
  intros H0 H1 H2 m.
  destruct (status_rebuild b0 H0) as (Eb & Hhi & Ecd). cbv zeta in Eb, Ecd.
  destruct (pitch_bend_rebuild b1 b2 H1 H2) as (Pr & P1 & P2).
  cbv zeta in Pr, P1, P2.
  assert (U1 : to_uchar b1 = b1) by (unfold to_uchar; apply Z.mod_small; lia).
  assert (U2 : to_uchar b2 = b2) by (unfold to_uchar; apply Z.mod_small; lia).
  unfold m. rewrite Ecd.
  split; [|split].
  - unfold Alsa.midi_send.
    destruct Hhi as [Hh|[Hh|[Hh|[Hh|[Hh|[Hh|Hh]]]]]]; rewrite Hh;
      cbn [orb Z.eqb Pos.eqb SysDep.isSysEx SysDep.msg negb byte_at nth];
      rewrite ?Hh; cbn [Z.eqb Pos.eqb];
      eexists; (split; [reflexivity|]);
      cbn [Alsa.midi_recv]; rewrite <- Hh at 1; rewrite Eb, ?U1, ?U2, ?P1, ?P2;
      reflexivity.
  - intro Hh. rewrite Hh. cbn [orb Z.eqb Pos.eqb].
    unfold Alsa.midi_send.
    cbn [SysDep.isSysEx SysDep.msg negb byte_at nth]. rewrite Hh.
    cbn [Z.eqb Pos.eqb].
    eexists. split; [reflexivity|]. split; [|exact Pr].
    rewrite Z.shiftl_mul_pow2 by lia. change (2 ^ 7) with 128. lia.
  - eexists. split; reflexivity.
Qed.

Lemma alsa_roundtrip_witness :
  (exists ev, Alsa.midi_send (SysDep.mkMsg [0xe3; 0; 0x40] false) = Some ev /\
              Alsa.midi_recv ev = Some (SysDep.mkMsg [0xe3; 0; 0x40] false)) /\
  Alsa.midi_send (SysDep.mkMsg [0xe3; 0; 0x40] false)
  = Some (Alsa.PITCHBEND 3 0).
Proof.
  destruct (alsa_roundtrip 0xe3 0 0x40 []) as (R & P & _); try lia.
  split; [exact R|].
  destruct (P eq_refl) as (value & E & Ev & _).
  cbn [andb Z.leb Z.ltb Z.compare Pos.compare Pos.compare_cont] in E.
  rewrite E, Ev. reflexivity.
Defined.

(** * The read procedure of CoreMIDI *)

Section ReadProc.

Variables startHostTime now : Z.

(** Inside a system-exclusive message the data bytes are collected and
    the real-time bytes are passed over. *)
Lemma read_bytes_sysex_data (ts : Z) (elm : CoreMidi.midiin_buffer_elm)
    (buf : list CoreMidi.midiin_buffer_elm) (sts : Z) :
  forall (bs rest : list Z) (budget : nat) (sx : list Z),
  Forall (fun b => b < 0x80 \/ 0xf8 <= b) bs ->
  CoreMidi.read_bytes (length bs + budget) startHostTime now ts (bs ++ rest)
    elm (CoreMidi.mkIn buf (Some sx) sts)
  = CoreMidi.read_bytes budget startHostTime now ts rest elm
      (CoreMidi.mkIn buf (Some (sx ++ filter (fun b => b <? 0x80) bs)) sts).
Proof.
  induction bs as [|b bs IH]; intros rest budget sx Hok.
  - cbn [length app filter Nat.add]. rewrite app_nil_r. reflexivity.
  - inversion Hok as [|? ? Hb Hbs]; subst.
    cbn [length app Nat.add CoreMidi.read_bytes CoreMidi.sysexData
           CoreMidi.inputBuffer CoreMidi.sysexTimeStamp filter].
    destruct (Z.ltb_spec b 0x80) as [L|L].
    + rewrite IH by exact Hbs. rewrite <- app_assoc. reflexivity.
    + replace (b <? 0xf8) with false by (symmetry; apply Z.ltb_ge; lia).
      apply IH. exact Hbs.
Qed.

(** The element the end of a system-exclusive message puts into the
    input buffer. *)
Lemma read_bytes_sysex_end (ts : Z) (elm : CoreMidi.midiin_buffer_elm)
    (buf : list CoreMidi.midiin_buffer_elm) (sts : Z) (bs : list Z)
    (budget : nat) (sx : list Z) :
  Forall (fun b => b < 0x80 \/ 0xf8 <= b) bs ->
  (length bs + 1 < budget)%nat ->
  let e :=
    CoreMidi.mkElm (if sts <? startHostTime then now else sts) false
      (CoreMidi.msg elm)
      (sx ++ filter (fun b => b <? 0x80) bs ++ [0xf7]) in
  CoreMidi.read_bytes budget startHostTime now ts (bs ++ [0xf7]) elm
    (CoreMidi.mkIn buf (Some sx) sts)
  = Some (e, CoreMidi.mkIn (buf ++ [e]) None sts).
Proof.
  intros Hok Hb e.
  replace budget with (length bs + (S (S (budget - length bs - 2))))%nat
    by lia.
  rewrite read_bytes_sysex_data by exact Hok.
  cbn [CoreMidi.read_bytes CoreMidi.sysexData CoreMidi.inputBuffer
         CoreMidi.sysexTimeStamp].
  change (0xf7 <? 0x80) with false. change (0xf7 <? 0xf8) with true.
  change (negb (0xf7 =? 0xf7)) with false. cbv iota.
  unfold CoreMidi.complete.
  cbn [CoreMidi.timeStamp CoreMidi.isShortMsg CoreMidi.msg CoreMidi.lmsg
         CoreMidi.inputBuffer CoreMidi.sysexData CoreMidi.sysexTimeStamp].
  unfold e. rewrite <- app_assoc.
  destruct (sts <? startHostTime); reflexivity.
Qed.

(** Packets without bytes change nothing. *)
Lemma read_packets_silent (ps : list CoreMidi.MIDIPacket) :
  concat (map CoreMidi.data ps) = [] ->
  forall elm mi,
    CoreMidi.read_packets startHostTime now ps elm mi = Some (elm, mi).
Proof.
  induction ps as [|p ps IH]; intros Hc elm mi; [reflexivity|].
  cbn [map concat] in Hc. apply app_eq_nil in Hc. destruct Hc as [Hp Hc].
  cbn [CoreMidi.read_packets]. rewrite Hp.
  cbn [length Nat.mul Nat.add CoreMidi.read_bytes]. apply IH. exact Hc.
Qed.

Lemma app_eq_snoc {A : Type} (a t b : list A) (x : A) :
  a ++ t = b ++ [x] ->
  (t = [] /\ a = b ++ [x]) \/ (exists t', t = t' ++ [x] /\ b = a ++ t').
Proof.
  intro E. destruct t as [|y t0].
  - left. rewrite app_nil_r in E. split; [reflexivity|exact E].
  - right. destruct (exists_last (l := y :: t0)) as (t' & z & Ez);
      [discriminate|].
    rewrite Ez in *. rewrite app_assoc in E. apply app_inj_tail in E.
    destruct E as [E ->]. exists t'. split; [reflexivity|].
    symmetry. exact E.
Qed.

(** The rest of a system-exclusive message, in the packet at hand from
    [a] on and in the packets [ps] after it. *)
Lemma read_packets_inside (buf : list CoreMidi.midiin_buffer_elm)
    (sts : Z) (elm : CoreMidi.midiin_buffer_elm) :
  forall (ps : list CoreMidi.MIDIPacket) (a body : list Z) (budget : nat)
         (ts : Z) (sx : list Z),
  a ++ concat (map CoreMidi.data ps) = body ++ [0xf7] ->
  Forall (fun b => b < 0x80 \/ 0xf8 <= b) body ->
  (length a < budget)%nat ->
  let e :=
    CoreMidi.mkElm (if sts <? startHostTime then now else sts) false
      (CoreMidi.msg elm)
      (sx ++ filter (fun b => b <? 0x80) body ++ [0xf7]) in
  match CoreMidi.read_bytes budget startHostTime now ts a elm
          (CoreMidi.mkIn buf (Some sx) sts) with
  | Some (elm1, mi1) => CoreMidi.read_packets startHostTime now ps elm1 mi1
  | None => None
  end
  = Some (e, CoreMidi.mkIn (buf ++ [e]) None sts).
Proof.
  induction ps as [|p ps IH]; intros a body budget ts sx Hs Hok Hb e.
  - cbn [map concat] in Hs. rewrite app_nil_r in Hs. subst a.
    rewrite length_app in Hb. cbn [length] in Hb.
    rewrite read_bytes_sysex_end by (try exact Hok; lia).
    reflexivity.
  - destruct (app_eq_snoc _ _ _ _ Hs) as [[Ht Ea]|(t' & Et & Eb)].
    + subst a. rewrite length_app in Hb. cbn [length] in Hb.
      rewrite read_bytes_sysex_end by (try exact Hok; lia).
      apply read_packets_silent. exact Ht.
    + subst body. apply Forall_app in Hok. destruct Hok as [Hoa Hot].
      replace budget with (length a + (S (budget - length a - 1)))%nat
        by lia.
      pose proof (read_bytes_sysex_data ts elm buf sts a []
                    (S (budget - length a - 1)) sx Hoa) as R.
      rewrite app_nil_r in R. rewrite R. clear R.
      cbn [CoreMidi.read_bytes CoreMidi.read_packets].
      cbn [map concat] in Et.
      specialize (IH (CoreMidi.data p) t'
                    (2 * length (CoreMidi.data p) + 1)%nat
                    (CoreMidi.packet_timeStamp p)
                    (sx ++ filter (fun b => b <? 0x80) a) Et Hot).
      cbv zeta in IH. rewrite IH by lia.
      unfold e. rewrite filter_app, <- !app_assoc. reflexivity.
Qed.

(** A system-exclusive message that begins in the packets [ps]. *)
Lemma read_packets_start (buf : list CoreMidi.midiin_buffer_elm)
    (elm : CoreMidi.midiin_buffer_elm) :
  forall (ps : list CoreMidi.MIDIPacket) (body : list Z) (sts0 : Z),
  concat (map CoreMidi.data ps) = 0xf0 :: body ++ [0xf7] ->
  Forall (fun b => b < 0x80 \/ 0xf8 <= b) body ->
  exists sts,
    let e :=
      CoreMidi.mkElm (if sts <? startHostTime then now else sts) false
        (CoreMidi.msg elm)
        (0xf0 :: filter (fun b => b <? 0x80) body ++ [0xf7]) in
    CoreMidi.read_packets startHostTime now ps elm
      (CoreMidi.mkIn buf None sts0)
    = Some (e, CoreMidi.mkIn (buf ++ [e]) None sts).
Proof.
  induction ps as [|p ps IH]; intros body sts0 Hs Hok; [discriminate|].
  cbn [map concat] in Hs.
  destruct (CoreMidi.data p) as [|d a] eqn:Ed.
  - cbn [app] in Hs. destruct (IH body sts0 Hs Hok) as [sts E].
    exists sts. cbn [CoreMidi.read_packets]. rewrite Ed.
    cbn [length Nat.mul Nat.add CoreMidi.read_bytes]. exact E.
  - cbn [app] in Hs. injection Hs as -> Hs.
    exists (CoreMidi.packet_timeStamp p).
    cbn [CoreMidi.read_packets]. rewrite Ed.
    replace (2 * length (0xf0%Z :: a) + 1)%nat with (S (2 * length a + 2))
      by (cbn [length]; lia).
    cbn [CoreMidi.read_bytes CoreMidi.sysexData CoreMidi.inputBuffer].
    change (0xf0 =? 0xf0) with true. cbv iota.
    apply (read_packets_inside buf (CoreMidi.packet_timeStamp p) elm ps a
             body (2 * length a + 2)%nat (CoreMidi.packet_timeStamp p)
             [0xf0] Hs Hok).
    lia.
Qed.

End ReadProc.

(** X30. macOS. A system-exclusive message [F0 body F7] whose body holds
    data bytes (below 80) and real-time bytes (F8 and above), coming
    in while no other one is pending and cut into packets in any way,
    goes into the input buffer as one long element when its last byte
    has been read: [F0], the data bytes of the body in their order and
    [F7]; the real-time bytes in between are dropped and nothing stays
    pending. [midi_recv] hands this element on as a system-exclusive
    message with these bytes. *)
Theorem coremidi_sysex_reassembly (startHostTime now sts0 : Z)
    (packets : list CoreMidi.MIDIPacket) (body : list Z)
    (elm0 : CoreMidi.midiin_buffer_elm)
    (buf : list CoreMidi.midiin_buffer_elm) :
  concat (map CoreMidi.data packets) = 0xf0 :: body ++ [0xf7] ->
  Forall (fun b => b < 0x80 \/ 0xf8 <= b) body ->
  exists mi' e,
    CoreMidi.midiInReadProc startHostTime now packets elm0
      (CoreMidi.mkIn buf None sts0) = Some mi' /\
    CoreMidi.inputBuffer mi' = buf ++ [e] /\
    CoreMidi.sysexData mi' = None /\
    CoreMidi.midi_recv_msg e
    = SysDep.mkMsg (0xf0 :: filter (fun b => b <? 0x80) body ++ [0xf7]) true.
Proof.
  intros Hs Hok.
  destruct (read_packets_start startHostTime now buf elm0 packets body sts0
              Hs Hok) as [sts E].
  cbv zeta in E. unfold CoreMidi.midiInReadProc. rewrite E.
  eexists _, _. split; [reflexivity|]. split; [reflexivity|].
  split; reflexivity.
Qed.

Lemma coremidi_sysex_reassembly_witness :
  let packets :=
    [CoreMidi.mkPacket 100 [0xf0; 0x7e];
     CoreMidi.mkPacket 101 [];
     CoreMidi.mkPacket 102 [0x7f; 0xf8; 0x09];
     CoreMidi.mkPacket 103 [0x01; 0xf7]] in
  exists mi' e,
    CoreMidi.midiInReadProc 0 0 packets
      (CoreMidi.mkElm 0 true (0, 0, 0) []) (CoreMidi.mkIn [] None 0)
    = Some mi' /\
    CoreMidi.inputBuffer mi' = [] ++ [e] /\
    CoreMidi.sysexData mi' = None /\
    CoreMidi.midi_recv_msg e
    = SysDep.mkMsg [0xf0; 0x7e; 0x7f; 0x09; 0x01; 0xf7] true.
Proof.
  intro packets.
  apply (coremidi_sysex_reassembly 0 0 0 packets [0x7e; 0x7f; 0xf8; 0x09; 0x01]
           (CoreMidi.mkElm 0 true (0, 0, 0) []) []).
  - reflexivity.
  - repeat constructor; lia.
Defined.

(** * Retrigger mode keeps the notes of a device single *)

Lemma sounding_app tr dm d ch n :
  sounding (tr ++ [dm]) d ch n = tells dm d ch n (sounding tr d ch n).
Proof. unfold sounding. rewrite fold_left_app. reflexivity. Qed.

(** What [midiOutSendMessage] does in retrigger mode with a message of
    three bytes, by the kind of the message. *)
Lemma midiOutSendMessage_retrigger d t b0 b1 b2 s :
  retriggerNotes s = true ->
  let m := SysDep.mkMsg [b0; b1; b2] false in
  let ch := Z.land b0 0xf in
  let status := Z.land b0 0xf0 in
  let s' := midiOutSendMessage d t m s in
  if ((status =? 0x90) && (b2 =? 0)) || (status =? 0x80) then
    retriggerNoteMap s' = snd (NoteMap.pop d 0 ch b1 (retriggerNoteMap s)) /\
    sent s' =
    sent s ++ (if fst (NoteMap.pop d 0 ch b1 (retriggerNoteMap s)) >=? 1
               then [] else [(d, m)])
  else if status =? 0x90 then
    retriggerNoteMap s' = snd (NoteMap.push d 0 ch b1 (retriggerNoteMap s)) /\
    sent s' =
    sent s ++ (if fst (NoteMap.push d 0 ch b1 (retriggerNoteMap s)) >=? 1
               then [(d, SysDep.mkMsg [b0; b1; 0] false)] else [])
           ++ [(d, m)]
  else if (status =? 0xb0)
          && ((b1 =? C_ALL_NOTES_OFF) || (b1 =? C_ALL_SOUND_OFF)) then
    retriggerNoteMap s' = NoteMap.clear d 0 ch (retriggerNoteMap s) /\
    sent s' = sent s ++ [(d, m)]
  else
    retriggerNoteMap s' = retriggerNoteMap s /\
    sent s' = sent s ++ [(d, m)].
Proof.
  intros Hr m ch status s'.
  unfold s', midiOutSendMessage, m. cbn [SysDep.msg byte_at nth].
  fold ch. fold status. rewrite Hr.
  destruct (((status =? 0x90) && (b2 =? 0)) || (status =? 0x80)).
  - destruct (NoteMap.pop d 0 ch b1 (retriggerNoteMap s)) as [c rm].
    cbn [fst snd]. destruct (c >=? 1); cbn.
    + rewrite app_nil_r. split; reflexivity.
    + split; reflexivity.
  - destruct (status =? 0x90).
    + destruct (NoteMap.push d 0 ch b1 (retriggerNoteMap s)) as [c rm].
      cbn [fst snd]. destruct (c >=? 1); cbn.
      * rewrite <- app_assoc. split; reflexivity.
      * split; reflexivity.
    + destruct ((status =? 0xb0)
                && ((b1 =? C_ALL_NOTES_OFF) || (b1 =? C_ALL_SOUND_OFF))).
      * cbn. split; reflexivity.
      * destruct ((status =? 0xb0) && (b1 =? C_SUSTAIN)).
        -- destruct (b2 =? 0); cbn; split; reflexivity.
        -- cbn. split; reflexivity.
Qed.

Lemma count_of_find key m :
  NoteMap.count_of key m
  = match NoteMap.find key m with Some c => c | None => 0 end.
Proof. reflexivity. Qed.

Lemma tells_other dm d ch n before :
  (fst dm <> d \/ Z.land (byte_at (SysDep.msg (snd dm)) 0) 0xf <> ch) ->
  tells dm d ch n before = before.
Proof.
  intro H. unfold tells.
  destruct H as [H|H]; apply Z.eqb_neq in H; rewrite H; cbn [negb orb].
  - reflexivity.
  - rewrite orb_true_r. reflexivity.
Qed.

(** The retrigger map stays in order, and its counts stay positive as
    long as the note of a note-on is piled less than [INT_MAX] times. *)
Lemma retrigger_map_kept d t b0 b1 b2 s :
  retriggerNotes s = true ->
  NoteMap.ordered (retriggerNoteMap s) ->
  positive (retriggerNoteMap s) ->
  (Z.land b0 0xf0 = 0x90 -> b2 <> 0 ->
   NoteMap.count_of (NoteMap.mkKey d 0 (Z.land b0 0xf) b1) (retriggerNoteMap s)
   < INT_MAX) ->
  let s' := midiOutSendMessage d t (SysDep.mkMsg [b0; b1; b2] false) s in
  NoteMap.ordered (retriggerNoteMap s') /\ positive (retriggerNoteMap s').
Proof.
  intros Hr Ho Hp Hlt s'.
  pose proof (midiOutSendMessage_retrigger d t b0 b1 b2 s Hr) as C.
  cbv zeta in C. fold s' in C.
  destruct (Z.eqb_spec (Z.land b0 0xf0) 0x90) as [E90|N90];
    destruct (Z.eqb_spec b2 0) as [Ev|Nv]; cbn [andb orb] in C.
  - destruct C as [-> _]. split; [apply ordered_pop|apply positive_pop];
      assumption.
  - rewrite E90 in C. cbn [Z.eqb Pos.eqb] in C. destruct C as [-> _].
    split; [apply ordered_push; assumption|].
    apply positive_push; auto.
  - destruct (Z.land b0 0xf0 =? 0x80).
    + destruct C as [-> _]. split; [apply ordered_pop|apply positive_pop];
        assumption.
    + destruct ((Z.land b0 0xf0 =? 0xb0)
                && ((b1 =? C_ALL_NOTES_OFF) || (b1 =? C_ALL_SOUND_OFF)));
        destruct C as [-> _].
      * rewrite clear_drop_run.
        split; [apply ordered_drop_run|apply positive_drop_run]; assumption.
      * split; assumption.
  - destruct (Z.land b0 0xf0 =? 0x80).
    + destruct C as [-> _]. split; [apply ordered_pop|apply positive_pop];
        assumption.
    + destruct ((Z.land b0 0xf0 =? 0xb0)
                && ((b1 =? C_ALL_NOTES_OFF) || (b1 =? C_ALL_SOUND_OFF)));
        destruct C as [-> _].
      * rewrite clear_drop_run.
        split; [apply ordered_drop_run|apply positive_drop_run]; assumption.
      * split; assumption.
Qed.

(** X9. Retrigger mode keeps the notes of a device single. Let the
    retrigger map be in order with positive counts and know every note
    that is sounding on a device according to the messages sent so far,
    and, when the message is a note-on, let its note be piled less than
    [INT_MAX] times, so that the count does not overflow. After the message
    of three bytes has been sent through [midiOutSendMessage] in retrigger
    mode the map is still in order with positive counts and still knows
    every sounding note, and a note-on never reaches the device while the
    note is sounding: either the note was not sounding, or the note-off
    that is put in front of the note-on has turned it off. *)
Theorem retrigger_keeps_notes_single (d t b0 b1 b2 : Z) (s : mo_state) :
  retriggerNotes s = true ->
  NoteMap.ordered (retriggerNoteMap s) ->
  positive (retriggerNoteMap s) ->
  (Z.land b0 0xf0 = 0x90 -> b2 <> 0 ->
   NoteMap.count_of (NoteMap.mkKey d 0 (Z.land b0 0xf) b1) (retriggerNoteMap s)
   < INT_MAX) ->
  retrigger_inv s ->
  let m := SysDep.mkMsg [b0; b1; b2] false in
  let s' := midiOutSendMessage d t m s in
  retrigger_inv s' /\
  NoteMap.ordered (retriggerNoteMap s') /\
  positive (retriggerNoteMap s') /\
  (Z.land b0 0xf0 = 0x90 -> b2 <> 0 ->
   exists tr,
     sent s' = tr ++ [(d, m)] /\ sounding tr d (Z.land b0 0xf) b1 = false).
Proof.
  intros Hr Ho Hp Hlt Hinv m s'.
  pose proof (retrigger_map_kept d t b0 b1 b2 s Hr Ho Hp Hlt) as [Ho' Hp'].
  fold s' in Ho', Hp'.
  pose proof (midiOutSendMessage_retrigger d t b0 b1 b2 s Hr) as C.
  cbv zeta in C. subst m. fold s' in C.
  set (ch := Z.land b0 0xf) in *. set (status := Z.land b0 0xf0) in *.
  set (key := NoteMap.mkKey d 0 ch b1).
  assert (Hkey : forall d' ch' n',
             NoteMap.mkKey d' 0 ch' n' <> key ->
             d' <> d \/ ch' <> ch \/ n' <> b1).
  { intros d' ch' n' Hne.
    destruct (Z.eq_dec d' d) as [->|]; [|tauto].
    destruct (Z.eq_dec ch' ch) as [->|]; [|tauto].
    destruct (Z.eq_dec n' b1) as [->|]; [|tauto].
    exfalso. apply Hne. reflexivity. }
  fold ch status in Hlt.
  (* a message about the note [b1] of [d] and [ch] leaves the other notes *)
  assert (Hoth : forall v d' ch' n' before,
             status = 0x90 \/ status = 0x80 ->
             NoteMap.mkKey d' 0 ch' n' <> key ->
             tells (d, SysDep.mkMsg [b0; b1; v] false) d' ch' n' before
             = before).
  { intros v d' ch' n' before Hst Hne. unfold tells.
    cbn [fst snd SysDep.msg SysDep.isSysEx byte_at nth]. fold ch status.
    destruct (Z.eqb_spec d d'); [|reflexivity]. cbn [negb orb].
    destruct (Z.eqb_spec ch ch'); [|reflexivity]. cbn [negb].
    subst d' ch'.
    assert (Hn : (b1 =? n') = false).
    { apply Z.eqb_neq. destruct (Hkey _ _ _ Hne) as [?|[?|?]]; congruence. }
    rewrite Hn, !andb_false_r.
    destruct Hst as [-> | ->]; reflexivity. }
  split; [|split; [exact Ho'|split; [exact Hp'|]]].
  - (* the invariant *)
    unfold retrigger_inv. intros d' ch' n' Hs.
    destruct (((status =? 0x90) && (b2 =? 0)) || (status =? 0x80)) eqn:Eoff.
    + (* note-off *)
      destruct C as [Erm Esent]. rewrite Erm.
      pose proof (pop_returns_positive d 0 ch b1 _ Hp) as Hc.
      pose proof (count_of_pop d 0 ch b1 _ Ho) as Hcnt.
      pose proof (fun key' => find_pop_other d 0 ch b1 key' _ Ho) as Hfr.
      fold key in Hc, Hcnt, Hfr.
      assert (Hst : status = 0x90 \/ status = 0x80).
      { apply orb_true_iff in Eoff. destruct Eoff as [E|E].
        - apply andb_true_iff in E. left. apply Z.eqb_eq. tauto.
        - right. apply Z.eqb_eq. exact E. }
      destruct (NoteMap.equiv key (NoteMap.mkKey d' 0 ch' n')) eqn:Ek.
      * apply equiv_eq in Ek. rewrite <- Ek in *. rewrite Hcnt.
        destruct (fst (NoteMap.pop d 0 ch b1 (retriggerNoteMap s)) >=? 1)
          eqn:Ec.
        -- rewrite Z.geb_leb in Ec. apply Z.leb_le in Ec. lia.
        -- exfalso. rewrite Esent, sounding_app in Hs.
           injection Ek as <- <- <-.
           unfold tells in Hs.
           cbn [fst snd SysDep.msg SysDep.isSysEx byte_at nth] in Hs.
           fold ch status in Hs. rewrite !Z.eqb_refl in Hs.
           cbn [negb orb andb] in Hs. rewrite andb_true_r in Hs.
           destruct Hst as [E|E]; rewrite E in *.
           ++ cbn [Z.eqb Pos.eqb orb andb] in Hs, Eoff.
              rewrite orb_false_r in Eoff. rewrite Eoff in Hs. cbn in Hs.
              discriminate.
           ++ cbn [Z.eqb Pos.eqb orb andb] in Hs. discriminate.
      * apply equiv_false_iff in Ek.
        assert (Hne : NoteMap.mkKey d' 0 ch' n' <> key) by congruence.
        rewrite count_of_find, Hfr by exact Hne.
        apply Hinv.
        destruct (fst (NoteMap.pop d 0 ch b1 (retriggerNoteMap s)) >=? 1).
        -- rewrite Esent, app_nil_r in Hs. exact Hs.
        -- rewrite Esent, sounding_app, Hoth in Hs by assumption. exact Hs.
    + destruct (status =? 0x90) eqn:Eon.
      * (* note-on *)
        destruct C as [Erm Esent]. rewrite Erm.
        pose proof (count_of_push d 0 ch b1 _ Ho) as Hcnt.
        pose proof (fun key' => find_push_other d 0 ch b1 key' _ Ho) as Hfr.
        fold key in Hcnt, Hfr.
        apply Z.eqb_eq in Eon.
        assert (Hv : b2 <> 0).
        { intros ->. rewrite Eon in Eoff. discriminate. }
        specialize (Hlt Eon Hv).
        destruct (NoteMap.equiv key (NoteMap.mkKey d' 0 ch' n')) eqn:Ek.
        -- apply equiv_eq in Ek. rewrite <- Ek. rewrite Hcnt.
           pose proof (count_of_nonneg key _ Hp).
           rewrite int_incr_below by exact Hlt. lia.
        -- apply equiv_false_iff in Ek.
           assert (Hne : NoteMap.mkKey d' 0 ch' n' <> key) by congruence.
           rewrite count_of_find, Hfr by exact Hne.
           apply Hinv. rewrite Esent in Hs.
           rewrite app_assoc, sounding_app, Hoth in Hs by auto.
           destruct (fst (NoteMap.push d 0 ch b1 (retriggerNoteMap s)) >=? 1).
           ++ rewrite sounding_app, Hoth in Hs by auto. exact Hs.
           ++ rewrite app_nil_r in Hs. exact Hs.
      * destruct ((status =? 0xb0)
                  && ((b1 =? C_ALL_NOTES_OFF) || (b1 =? C_ALL_SOUND_OFF)))
          eqn:Eano.
        -- (* All-Notes-Off, All-Sound-Off *)
           destruct C as [Erm Esent]. rewrite Erm.
           rewrite clear_filter by exact Ho.
           rewrite count_of_find.
           rewrite (find_filter
                      (fun k => negb (NoteMap.prefix_hit d 0 ch k))).
           rewrite Esent, sounding_app in Hs.
           unfold NoteMap.prefix_hit.
           cbn [NoteMap.devNum NoteMap.tk NoteMap.ch]. rewrite Z.eqb_refl.
           rewrite andb_true_r.
           unfold tells in Hs.
           cbn [fst snd SysDep.msg SysDep.isSysEx byte_at nth] in Hs.
           fold ch status in Hs.
           rewrite (Z.eqb_sym d' d), (Z.eqb_sym ch' ch).
           destruct (d =? d'); cbn [negb orb andb] in *.
           ++ destruct (ch =? ch'); cbn [negb orb andb] in *.
              ** rewrite Eon, Eano in Hs. cbn [andb] in Hs.
                 apply andb_true_iff in Eano. destruct Eano as [Eb _].
                 apply Z.eqb_eq in Eb. rewrite Eb in Hs.
                 cbn [Z.eqb Pos.eqb orb andb] in Hs. discriminate.
              ** exact (Hinv _ _ _ Hs).
           ++ exact (Hinv _ _ _ Hs).
        -- (* another message *)
           destruct C as [Erm Esent]. rewrite Erm. apply Hinv.
           rewrite Esent, sounding_app in Hs.
           unfold tells in Hs.
           cbn [fst snd SysDep.msg SysDep.isSysEx byte_at nth] in Hs.
           fold ch status in Hs.
           destruct (negb (d =? d') || false || negb (ch =? ch'));
             [exact Hs|].
           rewrite Eon, Eano in Hs. cbn [andb] in Hs.
           apply orb_false_iff in Eoff. destruct Eoff as [_ E80].
           rewrite E80 in Hs. cbn [orb andb] in Hs. exact Hs.
  - (* the note-on *)
    intros Hst Hv.
    assert (Eoff : ((status =? 0x90) && (b2 =? 0)) || (status =? 0x80)
                   = false).
    { rewrite Hst. apply Z.eqb_neq in Hv. rewrite Hv. reflexivity. }
    rewrite Eoff in C. rewrite Hst in C. cbn [Z.eqb Pos.eqb] in C.
    destruct C as [_ Esent]. rewrite app_assoc in Esent.
    eexists. split; [exact Esent|].
    destruct (fst (NoteMap.push d 0 ch b1 (retriggerNoteMap s)) >=? 1) eqn:Ec.
    + rewrite sounding_app. unfold tells.
      cbn [fst snd SysDep.msg SysDep.isSysEx byte_at nth].
      fold ch status. rewrite !Z.eqb_refl, Hst. reflexivity.
    + rewrite app_nil_r.
      destruct (sounding (sent s) d ch b1) eqn:Es; [|reflexivity].
      exfalso. apply Hinv in Es.
      rewrite push_returns_count in Ec by exact Ho.
      rewrite Z.geb_leb in Ec. apply Z.leb_gt in Ec. lia.
Qed.

Lemma retrigger_keeps_notes_single_witness :
  let s0 := midiOutSendMessage 0 7 (SysDep.mkMsg [0x93; 60; 100] false)
              (snd (openDevice 1 true 0 startup_state)) in
  let m := SysDep.mkMsg [0x93; 60; 90] false in
  let s1 := midiOutSendMessage 0 5 m s0 in
  sounding (sent s0) 0 3 60 = true /\
  retrigger_inv s1 /\
  exists tr, sent s1 = tr ++ [(0, m)] /\ sounding tr 0 3 60 = false.
Proof.
  intros s0 m s1. split; [reflexivity|].
  destruct (retrigger_keeps_notes_single 0 5 0x93 60 90 s0)
    as (I & _ & _ & N).
  - reflexivity.
  - repeat constructor.
  - repeat constructor.
  - intros _ _. reflexivity.
  - intros d ch n.
    assert (Es : sent s0 = [(0, SysDep.mkMsg [0x93; 60; 100] false)])
      by reflexivity.
    assert (Erm : retriggerNoteMap s0 = [(NoteMap.mkKey 0 0 3 60, 1)])
      by reflexivity.
    rewrite Es, Erm. unfold sounding, tells.
    cbn [fold_left fst snd SysDep.msg SysDep.isSysEx byte_at nth].
    change (Z.land 147 15) with 3. change (Z.land 147 240) with 144.
    change (100 =? 0) with false.
    change (144 =? 144) with true. change (144 =? 128) with false.
    change (144 =? 176) with false. cbn [negb orb andb].
    destruct (Z.eqb_spec 0 d) as [<-|]; cbn [negb orb]; [|discriminate].
    destruct (Z.eqb_spec 3 ch) as [<-|]; cbn [negb]; [|discriminate].
    destruct (Z.eqb_spec 60 n) as [<-|]; [|discriminate].
    intros _. reflexivity.
  - split; [exact I|]. apply N; [reflexivity|discriminate].
Defined.
